(** * multer-gridfs-storage: the storage engine of [lib/gridfs.js]

    A shallow embedding of the [GridFSStorage] class: the settings an upload
    is stored under, the connection life cycle of an instance with its event
    emitter, the upload pipeline over the two writer APIs, and the
    connection cache shared by instances. *)

From Stdlib Require Import Floats Ascii.
From Stdlib.Strings Require Import Byte.
From stdpp Require Import base option list gmap strings pretty.

(** ** Errors and fallible results *)

(** A JavaScript [Error] object: its class name and its message. *)
Record Error := MkError { name : string; message : string }.

Definition new_Error (msg : string) : Error := MkError "Error" msg.

(** A computation that returns a value or throws; for an [async] function,
    the promise it returns is fulfilled or rejected. *)
Inductive res (A : Type) : Type :=
  | Ok (a : A)
  | Throw (e : Error).
Arguments Ok {A} a.
Arguments Throw {A} e.

Definition res_bind {A B} (r : res A) (k : A → res B) : res B :=
  match r with
  | Ok a => k a
  | Throw e => Throw e
  end.

Notation "'try' x ← r ; k" := (res_bind r (λ x, k))
  (at level 100, x binder, r at next level, k at level 200, right associativity,
   format "'[' 'try'  x  ←  r ; '/' k ']'").

(** ** JavaScript values *)

(** The values a settings object holds.  A number is an IEEE double; an
    object is given by its own enumerable properties; an [ObjectID] is an
    opaque object identified by its serial. *)
#[local] Unset Elimination Schemes.
Inductive value : Type :=
  | VUndefined
  | VNull
  | VBool (b : bool)
  | VNumber (n : float)
  | VString (s : string)
  | VObjectID (oid : nat)
  | VObject (own : gmap string value).
#[local] Set Elimination Schemes.

(** An object literal or the target of a spread. *)
Abbreviation object := (gmap string value).

(** [o.k]: a property that is not there reads as [undefined]. *)
Definition get (o : object) (k : string) : value := default VUndefined (o !! k).

(** [Boolean(v)]. *)
Definition truthy (v : value) : bool :=
  match v with
  | VUndefined | VNull => false
  | VBool b => b
  | VNumber n => negb (PrimFloat.is_zero n || PrimFloat.is_nan n)
  | VString s => negb (String.eqb s "")
  | VObjectID _ | VObject _ => true
  end.

(** [{...a, ...b}]: the properties of [b] are written over those of [a]. *)
Definition spread (a b : object) : object := b ∪ a.

Lemma lookup_spread (a b : object) (k : string) :
  spread a b !! k = match b !! k with Some v => Some v | None => a !! k end.
Proof. unfold spread. rewrite lookup_union. by destruct (b !! k), (a !! k). Qed.

(** ** Naming: the settings an upload is stored under *)

(** [const defaults]. *)
Definition defaults : object :=
  {[ "metadata" := VNull;
     "chunkSize" := VNumber 261120%float;
     "bucketName" := VString "fs";
     "aliases" := VNull ]}.

(** [buffer.toString('hex')]: two lowercase digits per byte. *)
Definition hex_digit (d : nat) : ascii :=
  default "0"%char (Strings.String.list_ascii_of_string "0123456789abcdef" !! d).

Definition hex_byte (b : byte) : string :=
  let n := Byte.to_nat b in
  String (hex_digit (n / 16)) (String (hex_digit (n mod 16)) EmptyString).

Fixpoint toString_hex (buffer : list byte) : string :=
  match buffer with
  | [] => ""
  | b :: rest => hex_byte b +:+ toString_hex rest
  end.

(** The platform's random source, as [crypto.randomBytes] sees it: it
    reports an error, or hands out bytes. *)
Inductive entropy : Type :=
  | EntropyFails (err : Error)
  | EntropyGives (bytes : nat → byte).

(** [crypto.randomBytes(size, cb)]: [cb(err)] or [cb(null, buffer)] with a
    buffer of [size] bytes. *)
Definition randomBytes (size : nat) (rng : entropy) : res (list byte) :=
  match rng with
  | EntropyFails err => Throw err
  | EntropyGives bytes => Ok (bytes <$> seq 0 size)
  end.

(** [GridFSStorage.generateBytes]. *)
Definition generateBytes (rng : entropy) : res object :=
  try buffer ← randomBytes 16 rng;
  Ok {[ "filename" := VString (toString_hex buffer) ]}.

(** An object as a function is handed one.  A spread copies its own
    enumerable properties; a read [o.k] finds these and, for a key that is
    not among them, what the object has besides: its own properties that
    are not enumerable and the properties of its prototype chain.  The
    properties are data properties. *)
Record js_object : Type :=
  { own_enumerable : object; otherwise : object }.

(** An object literal, or what a spread built: all that a read finds in it
    are its own enumerable properties. *)
Definition plain (o : object) : js_object :=
  {| own_enumerable := o; otherwise := ∅ |}.

(** [o.k]. *)
Definition read (o : js_object) (k : string) : value :=
  match own_enumerable o !! k with
  | Some v => v
  | None => get (otherwise o) k
  end.

(** [GridFSStorage._mergeProps(extra, fileSettings)]; [oid] is the serial of
    the [ObjectID] that [new ObjectID()] builds when it is called.
    [fileSettings.filename] and [fileSettings.id] are reads, the last line
    is a spread. *)
Definition _mergeProps (rng : entropy) (oid : nat) (extra : object)
    (fileSettings : js_object) : res object :=
  try previous ← (if truthy (read fileSettings "filename") then Ok ∅
                  else generateBytes rng);
  let hasId := read fileSettings "id" in
  let previous :=
    if truthy hasId then previous else <["id" := VObjectID oid]> previous in
  Ok (spread (spread (spread previous defaults) extra)
        (own_enumerable fileSettings)).

(** What [await this._generate(request, file)] produced, as [fromStream]
    inspects it: by its [typeof], and for an object by its own enumerable
    properties; the objects a naming function gives are plain ones. *)
Inductive returned : Type :=
  | RUndefined
  | RNull
  | RBoolean (b : bool)
  | RNumber (n : float)
  | RString (s : string)
  | RSymbol (description : string)
  | RBigInt (z : Z)
  | RFunction (fname : string)
  | RObject (own : object).

Definition typeof (v : returned) : string :=
  match v with
  | RUndefined => "undefined"
  | RNull | RObject _ => "object"
  | RBoolean _ => "boolean"
  | RNumber _ => "number"
  | RString _ => "string"
  | RSymbol _ => "symbol"
  | RBigInt _ => "bigint"
  | RFunction _ => "function"
  end.

(** The own enumerable properties a value contributes when it is used as a
    settings object. *)
Definition own_properties (v : returned) : object :=
  match v with
  | RObject own => own
  | _ => ∅
  end.

Definition allowedTypes : list string :=
  ["undefined"; "number"; "string"; "object"].

(** The descriptor multer hands over for the uploaded file. *)
Record File := { mimetype : value }.

(** ** The backend, as the storage engine sees it *)

(** A [Db] object and a [MongoClient]; the driver of MongoDb 2 has no
    [isConnected] on what stands for the client. *)
Record Db := { db_serial : nat }.
Record Client := { client_serial : nat; has_isConnected : bool }.

(** What the backend answers when it is asked for the state of the link. *)
Record link := { client_isConnected : bool; topology_isConnected : bool }.

(** [{db, client}] as a connection attempt resolves with it. *)
Record handles := { h_db : Db; h_client : option Client }.

(** [{db: this.db, client: this.client}] as [ready] and the [connection]
    event hand it out. *)
Record conn := Conn { conn_db : option Db; conn_client : option Client }.

(** What [MongoClient.connect] resolves with: MongoDb 3 gives a client, on
    which [client.db(parsedUri.database)] gives the database; MongoDb 2
    gives the database itself. *)
Inductive connected_to : Type :=
  | ClientOf (c : Client) (database : Db)
  | DbOf (d : Db).

(** A promise. *)
Inductive pstate (A : Type) : Type :=
  | Pending
  | Fulfilled (a : A)
  | Rejected (e : Error).
Arguments Pending {A}.
Arguments Fulfilled {A} a.
Arguments Rejected {A} e.

Definition settled {A} (p : pstate A) : bool :=
  match p with Pending => false | _ => true end.

Definition of_res {A} (r : res A) : pstate A :=
  match r with Ok a => Fulfilled a | Throw e => Rejected e end.

#[global] Instance Error_eq_dec : EqDecision Error.
Proof. solve_decision. Defined.
#[global] Instance Db_eq_dec : EqDecision Db.
Proof. solve_decision. Defined.
#[global] Instance Client_eq_dec : EqDecision Client.
Proof. solve_decision. Defined.
#[global] Instance handles_eq_dec : EqDecision handles.
Proof. solve_decision. Defined.
#[global] Instance conn_eq_dec : EqDecision conn.
Proof. solve_decision. Defined.
#[global] Instance pstate_eq_dec `{EqDecision A} : EqDecision (pstate A).
Proof. solve_decision. Defined.

(** ** The connection cache *)

(** The options of [MongoClient.connect]: an opaque object, two of which
    stand for the same configuration when their canonical text is. *)
Record Options := { canonical : string }.

(** What [cache.initialize] is called with: [{url, cacheName, init}]. *)
Record signature := {
  sig_url : string;
  sig_cacheName : string;
  sig_init : option Options
}.

#[global] Instance Options_eq_dec : EqDecision Options.
Proof. solve_decision. Defined.
#[global] Instance signature_eq_dec : EqDecision signature.
Proof. solve_decision. Defined.

(** Modelled from the spec: the status of a cache entry, which
    [lib/cache.js] (not among the sources) keeps. *)
Inductive status : Type := pending | opening | resolved | rejected.

(** Modelled from the spec: a cache entry of [lib/cache.js].  The promise
    every waiter holds is the entry's own, [entry_promise] below. *)
Record entry := {
  e_signature : signature;
  e_status : status;
  e_db : option Db;
  e_client : option Client;
  e_error : option Error
}.

(** Modelled from the spec: the index [initialize] returns, an object that
    names a slot of [lib/cache.js]. *)
Record index := { slot : nat }.

(** Modelled from the spec: the process-wide registry of [lib/cache.js],
    one slot per signature. *)
Abbreviation Cache := (list entry).

#[global] Instance status_eq_dec : EqDecision status.
Proof. solve_decision. Defined.
#[global] Instance index_eq_dec : EqDecision index.
Proof. solve_decision. Defined.

Definition fresh_entry (sg : signature) : entry :=
  {| e_signature := sg; e_status := pending;
     e_db := None; e_client := None; e_error := None |}.

Fixpoint find_slot (sg : signature) (c : Cache) : option nat :=
  match c with
  | [] => None
  | e :: rest =>
      if decide (e_signature e = sg) then Some 0
      else S <$> find_slot sg rest
  end.

(** Modelled from the spec: [initialize(signature) -> index] of
    [lib/cache.js], which registers or reuses a slot. *)
Definition Cache_initialize (sg : signature) (c : Cache) : index * Cache :=
  match find_slot sg c with
  | Some i => ({| slot := i |}, c)
  | None => ({| slot := length c |}, c ++ [fresh_entry sg])
  end.

(** Modelled from the spec: [get(index)] of [lib/cache.js]. *)
Definition Cache_get (i : option index) (c : Cache) : option entry :=
  i ≫= λ i, c !! slot i.

(** Modelled from the spec: [isPending(index)] of [lib/cache.js]. *)
Definition Cache_isPending (i : option index) (c : Cache) : bool :=
  match Cache_get i c with
  | Some e => bool_decide (e_status e = pending)
  | None => false
  end.

(** Modelled from the spec: [isOpening(index)] of [lib/cache.js]. *)
Definition Cache_isOpening (i : option index) (c : Cache) : bool :=
  match Cache_get i c with
  | Some e => bool_decide (e_status e = opening)
  | None => false
  end.

Definition alter_slot (f : entry → entry) (i : option index) (c : Cache) : Cache :=
  match i with
  | Some i => alter f (slot i) c
  | None => c
  end.

(** [cached.opening = true], on the entry [cache.get] returned. *)
Definition set_opening (e : entry) : entry :=
  {| e_signature := e_signature e; e_status := opening;
     e_db := e_db e; e_client := e_client e; e_error := e_error e |}.

Definition is_settled (e : entry) : bool :=
  match e_status e with
  | resolved | rejected => true
  | pending | opening => false
  end.

(** Modelled from the spec: [resolve(index, db, client)] of [lib/cache.js];
    an entry is settled once and immutable thereafter. *)
Definition Cache_resolve (i : option index) (h : handles) (c : Cache) : Cache :=
  alter_slot (λ e,
    if is_settled e then e
    else {| e_signature := e_signature e; e_status := resolved;
            e_db := Some (h_db h); e_client := h_client h;
            e_error := e_error e |}) i c.

(** Modelled from the spec: [reject(index, error)] of [lib/cache.js]. *)
Definition Cache_reject (i : option index) (err : Error) (c : Cache) : Cache :=
  alter_slot (λ e,
    if is_settled e then e
    else {| e_signature := e_signature e; e_status := rejected;
            e_db := e_db e; e_client := e_client e;
            e_error := Some err |}) i c.

(** Modelled from the spec: the promise of an entry of [lib/cache.js],
    which all current and future waiters observe. *)
Definition entry_promise (e : entry) : pstate handles :=
  match e_status e, e_db e, e_error e with
  | resolved, Some d, _ => Fulfilled {| h_db := d; h_client := e_client e |}
  | rejected, _, Some err => Rejected err
  | _, _, _ => Pending
  end.

(** Modelled from the spec: [waitFor(index) -> promise<{db, client}>] of
    [lib/cache.js]. *)
Definition Cache_waitFor (i : option index) (c : Cache) : pstate handles :=
  match Cache_get i c with
  | Some e => entry_promise e
  | None => Pending
  end.

(** ** The configuration of an instance *)

(** An object given as it is, or a promise for it. *)
Inductive supplied (A : Type) : Type :=
  | Given (a : A)
  | Promised.
Arguments Given {A} a.
Arguments Promised {A}.

(** [configuration.cache]: absent, a boolean or a name. *)
Inductive cache_option : Type :=
  | CacheUnset
  | CacheFlag (b : bool)
  | CacheNamed (nm : string).

Record configuration := {
  cfg_url : option string;
  cfg_options : option Options;
  cfg_cache : cache_option;
  cfg_db : option (supplied Db);
  cfg_client : option (supplied Client);
  cfg_file : bool
}.

(** [Boolean(configuration.url)]. *)
Definition has_url (cfg : configuration) : bool :=
  match cfg_url cfg with
  | Some u => negb (String.eqb u "")
  | None => false
  end.

(** [Boolean(configuration.cache)]. *)
Definition Boolean_cache (o : cache_option) : bool :=
  match o with
  | CacheUnset => false
  | CacheFlag b => b
  | CacheNamed nm => negb (String.eqb nm "")
  end.

Definition isPromise {A} (o : option (supplied A)) : bool :=
  match o with Some Promised => true | _ => false end.

(** ** The instance: its fields, its listeners and what the run-time holds for it *)

(** The events of the class with their arguments. *)
Inductive signal : Type :=
  | connection (result : conn)
  | connectionFailed (err : Error)
  | file (f : object)
  | streamError (err : Error) (conf : object)
  | dbError (err : Error).

(** The name an event is emitted and listened to under. *)
Definition event_of (s : signal) : string :=
  match s with
  | connection _ => "connection"
  | connectionFailed _ => "connectionFailed"
  | file _ => "file"
  | streamError _ _ => "streamError"
  | dbError _ => "dbError"
  end.

(** A listener: one of the application, known by a number, or one of the
    two closures [done] and [fail] that [ready] makes for the promise [p]
    it returns. *)
Inductive listener : Type :=
  | application (n : nat)
  | ready_done (p : nat)
  | ready_fail (p : nat).

(** An entry of the emitter's table: [on] or [once]. *)
Record registration := {
  on_event : string;
  fn : listener;
  is_once : bool
}.

#[global] Instance listener_eq_dec : EqDecision listener.
Proof. solve_decision. Defined.
#[global] Instance registration_eq_dec : EqDecision registration.
Proof. solve_decision. Defined.

(** What [process.nextTick] was given: the only callback of the class emits
    [connection]. *)
Inductive task : Type := emit_connection.

(** What a connecting instance is suspended on, inside
    [_resolveConnection]. *)
Inductive suspended : Type :=
  | OnHandles
  | OnConnect
  | OnCache (i : option index).

#[global] Instance suspended_eq_dec : EqDecision suspended.
Proof. solve_decision. Defined.

(** Where an upload stands. *)
Inductive stage : Type :=
  | Queued (p : nat)
  | WaitReady (p : nat)
  | Generating
  | Opening
  | OpenFailed
  | Piping
  | Aborted.

(** An upload: a call of [fromStream], or of [_handleFile] when [u_cb];
    then [cb] is the reaction to the promise of the upload. *)
Record upload := {
  u_file : option File;
  u_cb : bool;
  u_stage : stage;
  u_options : object;
  u_closing : nat;
  u_promise : pstate object
}.

(** What the instance does to the world around it, in the order it does. *)
Inductive effect : Type :=
  | Emit (s : signal) (connected_now : bool)
  | Deliver (n : nat) (s : signal)
  | ClientOn (ev : string)
  | MongoConnect (url : option string) (opts : option Options)
  | Callback (r : res object)
  | CreateStream (u : nat) (conf : object)
  | WriterOn (u : nat) (ev : string)
  | StoreOpen (u : nat)
  | Pump (u : nat)
  | StoreClose (u : nat).

(** The fields of a [GridFSStorage] object ([db] to [_legacy]), the table
    of its [EventEmitter] part, and what the run-time holds: how often
    [errEvent] is attached to the client, what [_resolveConnection] is
    suspended on, the queue of [process.nextTick], the promises [ready]
    returned, the uploads, and the effects so far. *)
Record state := {
  db : option Db;
  client : option Client;
  connected : bool;
  connecting : bool;
  configuration_ : configuration;
  caching : bool;
  cacheName : option string;
  cacheIndex : option index;
  error : option Error;
  _legacy : bool;
  listeners : list registration;
  subscriptions : nat;
  awaiting : option suspended;
  ticks : list task;
  promises : list (pstate conn);
  uploads : list upload;
  log : list effect
}.

Definition set_db (v : option Db) (st : state) : state :=
  {| db := v; client := client st; connected := connected st; connecting :=
  connecting st; configuration_ := configuration_ st; caching := caching st;
  cacheName := cacheName st; cacheIndex := cacheIndex st; error := error st;
  _legacy := _legacy st; listeners := listeners st; subscriptions :=
  subscriptions st; awaiting := awaiting st; ticks := ticks st; promises :=
  promises st; uploads := uploads st; log := log st |}.

Definition set_client (v : option Client) (st : state) : state :=
  {| db := db st; client := v; connected := connected st; connecting :=
  connecting st; configuration_ := configuration_ st; caching := caching st;
  cacheName := cacheName st; cacheIndex := cacheIndex st; error := error st;
  _legacy := _legacy st; listeners := listeners st; subscriptions :=
  subscriptions st; awaiting := awaiting st; ticks := ticks st; promises :=
  promises st; uploads := uploads st; log := log st |}.

Definition set_connected (v : bool) (st : state) : state :=
  {| db := db st; client := client st; connected := v; connecting :=
  connecting st; configuration_ := configuration_ st; caching := caching st;
  cacheName := cacheName st; cacheIndex := cacheIndex st; error := error st;
  _legacy := _legacy st; listeners := listeners st; subscriptions :=
  subscriptions st; awaiting := awaiting st; ticks := ticks st; promises :=
  promises st; uploads := uploads st; log := log st |}.

Definition set_connecting (v : bool) (st : state) : state :=
  {| db := db st; client := client st; connected := connected st; connecting
  := v; configuration_ := configuration_ st; caching := caching st; cacheName
  := cacheName st; cacheIndex := cacheIndex st; error := error st; _legacy :=
  _legacy st; listeners := listeners st; subscriptions := subscriptions st;
  awaiting := awaiting st; ticks := ticks st; promises := promises st; uploads
  := uploads st; log := log st |}.

Definition set_caching (v : bool) (st : state) : state :=
  {| db := db st; client := client st; connected := connected st; connecting
  := connecting st; configuration_ := configuration_ st; caching := v;
  cacheName := cacheName st; cacheIndex := cacheIndex st; error := error st;
  _legacy := _legacy st; listeners := listeners st; subscriptions :=
  subscriptions st; awaiting := awaiting st; ticks := ticks st; promises :=
  promises st; uploads := uploads st; log := log st |}.

Definition set_cacheName (v : option string) (st : state) : state :=
  {| db := db st; client := client st; connected := connected st; connecting
  := connecting st; configuration_ := configuration_ st; caching := caching
  st; cacheName := v; cacheIndex := cacheIndex st; error := error st; _legacy
  := _legacy st; listeners := listeners st; subscriptions := subscriptions st;
  awaiting := awaiting st; ticks := ticks st; promises := promises st; uploads
  := uploads st; log := log st |}.

Definition set_cacheIndex (v : option index) (st : state) : state :=
  {| db := db st; client := client st; connected := connected st; connecting
  := connecting st; configuration_ := configuration_ st; caching := caching
  st; cacheName := cacheName st; cacheIndex := v; error := error st; _legacy
  := _legacy st; listeners := listeners st; subscriptions := subscriptions st;
  awaiting := awaiting st; ticks := ticks st; promises := promises st; uploads
  := uploads st; log := log st |}.

Definition set_error (v : option Error) (st : state) : state :=
  {| db := db st; client := client st; connected := connected st; connecting
  := connecting st; configuration_ := configuration_ st; caching := caching
  st; cacheName := cacheName st; cacheIndex := cacheIndex st; error := v;
  _legacy := _legacy st; listeners := listeners st; subscriptions :=
  subscriptions st; awaiting := awaiting st; ticks := ticks st; promises :=
  promises st; uploads := uploads st; log := log st |}.

Definition set_listeners (v : list registration) (st : state) : state :=
  {| db := db st; client := client st; connected := connected st; connecting
  := connecting st; configuration_ := configuration_ st; caching := caching
  st; cacheName := cacheName st; cacheIndex := cacheIndex st; error := error
  st; _legacy := _legacy st; listeners := v; subscriptions := subscriptions
  st; awaiting := awaiting st; ticks := ticks st; promises := promises st;
  uploads := uploads st; log := log st |}.

Definition set_subscriptions (v : nat) (st : state) : state :=
  {| db := db st; client := client st; connected := connected st; connecting
  := connecting st; configuration_ := configuration_ st; caching := caching
  st; cacheName := cacheName st; cacheIndex := cacheIndex st; error := error
  st; _legacy := _legacy st; listeners := listeners st; subscriptions := v;
  awaiting := awaiting st; ticks := ticks st; promises := promises st; uploads
  := uploads st; log := log st |}.

Definition set_awaiting (v : option suspended) (st : state) : state :=
  {| db := db st; client := client st; connected := connected st; connecting
  := connecting st; configuration_ := configuration_ st; caching := caching
  st; cacheName := cacheName st; cacheIndex := cacheIndex st; error := error
  st; _legacy := _legacy st; listeners := listeners st; subscriptions :=
  subscriptions st; awaiting := v; ticks := ticks st; promises := promises st;
  uploads := uploads st; log := log st |}.

Definition set_ticks (v : list task) (st : state) : state :=
  {| db := db st; client := client st; connected := connected st; connecting
  := connecting st; configuration_ := configuration_ st; caching := caching
  st; cacheName := cacheName st; cacheIndex := cacheIndex st; error := error
  st; _legacy := _legacy st; listeners := listeners st; subscriptions :=
  subscriptions st; awaiting := awaiting st; ticks := v; promises := promises
  st; uploads := uploads st; log := log st |}.

Definition set_promises (v : list (pstate conn)) (st : state) : state :=
  {| db := db st; client := client st; connected := connected st; connecting
  := connecting st; configuration_ := configuration_ st; caching := caching
  st; cacheName := cacheName st; cacheIndex := cacheIndex st; error := error
  st; _legacy := _legacy st; listeners := listeners st; subscriptions :=
  subscriptions st; awaiting := awaiting st; ticks := ticks st; promises := v;
  uploads := uploads st; log := log st |}.

Definition set_uploads (v : list upload) (st : state) : state :=
  {| db := db st; client := client st; connected := connected st; connecting
  := connecting st; configuration_ := configuration_ st; caching := caching
  st; cacheName := cacheName st; cacheIndex := cacheIndex st; error := error
  st; _legacy := _legacy st; listeners := listeners st; subscriptions :=
  subscriptions st; awaiting := awaiting st; ticks := ticks st; promises :=
  promises st; uploads := v; log := log st |}.

Definition set_log (v : list effect) (st : state) : state :=
  {| db := db st; client := client st; connected := connected st; connecting
  := connecting st; configuration_ := configuration_ st; caching := caching
  st; cacheName := cacheName st; cacheIndex := cacheIndex st; error := error
  st; _legacy := _legacy st; listeners := listeners st; subscriptions :=
  subscriptions st; awaiting := awaiting st; ticks := ticks st; promises :=
  promises st; uploads := uploads st; log := v |}.

(** ** The event emitter *)

Definition add_log (e : effect) (st : state) : state :=
  set_log (log st ++ [e]) st.

(** [this.on(ev, f)] and [this.once(ev, f)]. *)
Definition on (ev : string) (f : listener) (st : state) : state :=
  set_listeners
    (listeners st ++ [{| on_event := ev; fn := f; is_once := false |}]) st.

Definition once (ev : string) (f : listener) (st : state) : state :=
  set_listeners
    (listeners st ++ [{| on_event := ev; fn := f; is_once := true |}]) st.

Fixpoint remove_first (P : registration → bool) (l : list registration)
    : list registration :=
  match l with
  | [] => []
  | r :: rest => if P r then rest else r :: remove_first P rest
  end.

(** Node takes the entry out that was added last. *)
Definition remove_last (P : registration → bool) (l : list registration)
    : list registration :=
  reverse (remove_first P (reverse l)).

(** [this.removeListener(ev, f)]: also an entry that [once] wrapped. *)
Definition removeListener (ev : string) (f : listener) (st : state) : state :=
  set_listeners
    (remove_last (λ r, bool_decide (on_event r = ev ∧ fn r = f))
       (listeners st)) st.

(** ** Promises of [ready] and the uploads that wait for them *)

Definition new_promise (v : pstate conn) (st : state) : nat * state :=
  (length (promises st), set_promises (promises st ++ [v]) st).

(** [GridFSStorage.prototype.ready]. *)
Definition ready (st : state) : nat * state :=
  match error st with
  | Some err => new_promise (Rejected err) st
  | None =>
      if connected st then
        new_promise (Fulfilled (Conn (db st) (client st))) st
      else
        let '(p, st) := new_promise Pending st in
        (p, once "connectionFailed" (ready_fail p)
              (once "connection" (ready_done p) st))
  end.

Definition set_stage (s : stage) (u : upload) : upload :=
  {| u_file := u_file u; u_cb := u_cb u; u_stage := s;
     u_options := u_options u; u_closing := u_closing u;
     u_promise := u_promise u |}.

Definition set_u_options (o : object) (u : upload) : upload :=
  {| u_file := u_file u; u_cb := u_cb u; u_stage := u_stage u;
     u_options := o; u_closing := u_closing u; u_promise := u_promise u |}.

Definition set_closing (n : nat) (u : upload) : upload :=
  {| u_file := u_file u; u_cb := u_cb u; u_stage := u_stage u;
     u_options := u_options u; u_closing := n; u_promise := u_promise u |}.

Definition set_u_promise (p : pstate object) (u : upload) : upload :=
  {| u_file := u_file u; u_cb := u_cb u; u_stage := u_stage u;
     u_options := u_options u; u_closing := u_closing u; u_promise := p |}.

Definition alter_upload (f : upload → upload) (i : nat) (st : state) : state :=
  set_uploads (alter f i (uploads st)) st.

(** The promise of upload [i] is resolved or rejected; when the upload came
    through [_handleFile], [cb] is its reaction.  A promise that is settled
    stays as it is. *)
Definition finish_upload (i : nat) (r : res object) (st : state) : state :=
  match uploads st !! i with
  | Some u =>
      if settled (u_promise u) then st
      else
        let st := alter_upload (set_u_promise (of_res r)) i st in
        if u_cb u then add_log (Callback r) st else st
  | None => st
  end.

(** [fromStream] (or the chain of [_handleFile]) ends with [err] before a
    writer was made. *)
Definition abort (i : nat) (err : Error) (st : state) : state :=
  finish_upload i (Throw err) (alter_upload (set_stage Aborted) i st).

(** [fromStream], lines 364 to 368, for the upload [i]: while the
    instance is connecting the upload waits for [ready]; otherwise the
    naming function is called. *)
Definition fromStream_enter (i : nat) (st : state) : state :=
  if connecting st then
    let '(p, st) := ready st in
    alter_upload (set_stage (WaitReady p)) i st
  else alter_upload (set_stage Generating) i st.

(** The reaction of the upload [i] to the promise of [ready] it waits for,
    which the run-time calls once that promise is settled: [fromFile] for
    an upload [_handleFile] queued, the rest of [fromStream] for one that
    [fromStream] suspended, and the end of the upload after a rejection. *)
Definition resume (i : nat) (st : state) : state :=
  match uploads st !! i with
  | Some u =>
      match u_stage u with
      | Queued p =>
          match promises st !! p with
          | Some (Fulfilled _) => fromStream_enter i st
          | Some (Rejected err) => abort i err st
          | _ => st
          end
      | WaitReady p =>
          match promises st !! p with
          | Some (Fulfilled _) => alter_upload (set_stage Generating) i st
          | Some (Rejected err) => abort i err st
          | _ => st
          end
      | _ => st
      end
  | None => st
  end.

(** [resolve] and [reject] of the promise [p] that [ready] returned: a
    promise is settled once. *)
Definition settle_promise (p : nat) (outcome : pstate conn) (st : state)
    : state :=
  match promises st !! p with
  | Some Pending => set_promises (<[p := outcome]> (promises st)) st
  | _ => st
  end.

(** A listener is called with the arguments of the event. *)
Definition invoke (f : listener) (s : signal) (st : state) : state :=
  match f with
  | application n => add_log (Deliver n s) st
  | ready_done p =>
      let st := removeListener "connectionFailed" (ready_fail p) st in
      match s with
      | connection result => settle_promise p (Fulfilled result) st
      | _ => st
      end
  | ready_fail p =>
      let st := removeListener "connection" (ready_done p) st in
      match s with
      | connectionFailed err => settle_promise p (Rejected err) st
      | _ => st
      end
  end.

(** An entry of the table is called: one made by [once] leaves the table
    first. *)
Definition call (s : signal) (st : state) (r : registration) : state :=
  let st :=
    if is_once r then
      set_listeners (remove_last (λ r', bool_decide (r' = r)) (listeners st)) st
    else st in
  invoke (fn r) s st.

(** [this.emit(ev, ...args)]: the listeners registered for the event when
    it is emitted are called in the order they were added. *)
Definition emit (s : signal) (st : state) : state :=
  let snapshot := filter (λ r, on_event r = event_of s) (listeners st) in
  foldl (call s) (add_log (Emit s (connected st)) st) snapshot.

Section Storage.

(** [Number.prototype.toString], which is the platform's, and
    [getDatabase] of [lib/utils.js], which finds the [Db] object in what
    was given as the database. *)
Context (Number_toString : float → string) (getDatabase : Db → Db).

(** [fromStream], lines 370 to 384: the resolver's value is checked and
    turned into a settings object. *)
Definition fileSettings_to_settings (fileSettings : returned) : res object :=
  let setType := typeof fileSettings in
  if negb (bool_decide (setType ∈ allowedTypes)) then
    Throw (new_Error ("Invalid type for file settings, got " +:+ setType))
  else
    match fileSettings with
    | RNull | RUndefined => Ok ∅
    | RString s => Ok {[ "filename" := VString s ]}
    | RNumber n => Ok {[ "filename" := VString (Number_toString n) ]}
    | _ => Ok (own_properties fileSettings)
    end.

(** [fromStream], lines 386 to 390: [{contentType}] is merged with the
    settings. *)
Definition streamOptions_of (rng : entropy) (oid : nat) (descriptor : option File)
    (fileSettings : returned) : res object :=
  try settings ← fileSettings_to_settings fileSettings;
  let contentType :=
    match descriptor with Some f => mimetype f | None => VUndefined end in
  _mergeProps rng oid {[ "contentType" := contentType ]} (plain settings).


(** *** The naming function *)

(** What calling the naming function gave: the value a plain function
    returned, or the [{value, done}] of [generator.next]; a promise stands
    for what it settles with. *)
Inductive produced : Type :=
  | Returned (v : res returned)
  | Yielded (finished : bool) (v : res returned).

(** [GridFSStorage._handleResult(result, isGen)]. *)
Definition _handleResult (result : produced) : res returned :=
  match result with
  | Returned v => v
  | Yielded true _ => Throw (new_Error "Generator ended unexpectedly")
  | Yielded false v => v
  end.

(** [_generate(request, file)]: without a naming function the settings are
    [{}]. *)
Definition _generate (st : state) (result : produced) : res returned :=
  if negb (cfg_file (configuration_ st)) then Ok (RObject ∅)
  else _handleResult result.

(** *** The connection life cycle *)

(** [_updateConnectionStatus()]. *)
Definition _updateConnectionStatus (l : link) (st : state) : state :=
  match db st with
  | None => set_connecting false (set_connected false st)
  | Some _ =>
      match client st with
      | Some c =>
          set_connected
            (if has_isConnected c then client_isConnected l else true) st
      | None => set_connected (topology_isConnected l) st
      end
  end.

(** [errEvent], the closure of [_setDb] that is attached to the client. *)
Definition errEvent (l : link) (err : option Error) (st : state) : state :=
  let st := _updateConnectionStatus l st in
  let error := match err with Some e => e | None => new_Error "" end in
  emit (dbError error) st.

(** What [this.client.on] fails with when [this.client] is [null]. *)
Definition TypeError_on_null : Error :=
  MkError "TypeError" "Cannot read property 'on' of null".

(** [_setDb(db, client)]: the state it leaves, and the error it throws when
    there is no client to attach [errEvent] to. *)
Definition _setDb (l : link) (d : Db) (c : option Client) (st : state)
    : option Error * state :=
  let st := set_connecting false st in
  let st := set_db (Some (getDatabase d)) st in
  let st := match c with Some _ => set_client c st | None => st end in
  match client st with
  | None => (Some TypeError_on_null, st)
  | Some _ =>
      let st := foldl (λ st ev, add_log (ClientOn ev) st) st
                  ["error"; "parseError"; "timeout"; "close"] in
      let st := set_subscriptions (S (subscriptions st)) st in
      let st := _updateConnectionStatus l st in
      (None, set_ticks (ticks st ++ [emit_connection]) st)
  end.

(** [_fail(err)]. *)
Definition _fail (l : link) (err : Error) (st : state) : state :=
  let st := set_connecting false st in
  let st := set_db None st in
  let st := set_client None st in
  let st := set_error (Some err) st in
  let st := _updateConnectionStatus l st in
  emit (connectionFailed err) st.

(** [this._options], which the constructor sets when there is an url. *)
Definition _options (st : state) : option Options :=
  if has_url (configuration_ st) then cfg_options (configuration_ st)
  else None.

(** [_resolveConnection()] up to where it is suspended; the call of
    [_createConnection] has reached [MongoClient.connect] by then. *)
Definition _resolveConnection (c : Cache) (st : state) : state * Cache :=
  let st := set_connecting true st in
  let connect st :=
    set_awaiting (Some OnConnect)
      (add_log (MongoConnect (cfg_url (configuration_ st)) (_options st)) st) in
  if bool_decide (is_Some (cfg_db (configuration_ st))) then
    (set_awaiting (Some OnHandles) st, c)
  else if negb (caching st) then (connect st, c)
  else if negb (Cache_isOpening (cacheIndex st) c)
          && Cache_isPending (cacheIndex st) c then
    (connect st, alter_slot set_opening (cacheIndex st) c)
  else (set_awaiting (Some (OnCache (cacheIndex st))) st, c).

(** [_createConnection()] from where [MongoClient.connect] answered. *)
Definition _createConnection (answer : res connected_to) (c : Cache)
    (st : state) : res handles * Cache :=
  match answer with
  | Ok got =>
      let h :=
        match got with
        | ClientOf cl database => {| h_db := database; h_client := Some cl |}
        | DbOf d => {| h_db := d; h_client := None |}
        end in
      (Ok h, if caching st then Cache_resolve (cacheIndex st) h c else c)
  | Throw err =>
      (Throw err,
       if bool_decide (is_Some (cacheIndex st)) then
         Cache_reject (cacheIndex st) err c
       else c)
  end.

(** [_connect()]. *)
Definition _connect (l : link) (c : Cache) (st : state) : res state * Cache :=
  match cfg_db (configuration_ st) with
  | Some (Given d) =>
      if isPromise (cfg_client (configuration_ st)) then
        let '(st, c) := _resolveConnection c st in (Ok st, c)
      else
        let cl :=
          match cfg_client (configuration_ st) with
          | Some (Given cl) => Some cl
          | _ => None
          end in
        match _setDb l d cl st with
        | (None, st) => (Ok st, c)
        | (Some err, _) => (Throw err, c)
        end
  | _ => let '(st, c) := _resolveConnection c st in (Ok st, c)
  end.

Definition no_url_or_db : Error :=
  new_Error
    "Error creating storage engine. At least one of url or db option must be provided.".

(** [new GridFSStorage(configuration)]; [legacy] is the constant of the
    module, and the cache is [GridFSStorage.cache]. *)
Definition constructor (legacy : bool) (cfg : option configuration) (l : link)
    (c : Cache) : res state * Cache :=
  match cfg with
  | None => (Throw no_url_or_db, c)
  | Some cfg =>
      if negb (has_url cfg) && negb (bool_decide (is_Some (cfg_db cfg))) then
        (Throw no_url_or_db, c)
      else
        let st :=
          {| db := None; client := None; connected := false;
             connecting := false; configuration_ := cfg; caching := false;
             cacheName := None; cacheIndex := None; error := None;
             _legacy := legacy; listeners := []; subscriptions := 0;
             awaiting := None; ticks := []; promises := []; uploads := [];
             log := [] |} in
        let st :=
          if has_url cfg then set_caching (Boolean_cache (cfg_cache cfg)) st
          else st in
        let '(st, c) :=
          if caching st then
            let nm :=
              match cfg_cache cfg with
              | CacheNamed nm => nm
              | _ => "default"
              end in
            let st := set_cacheName (Some nm) st in
            let '(i, c) :=
              Cache_initialize
                {| sig_url := default "" (cfg_url cfg); sig_cacheName := nm;
                   sig_init := _options st |} c in
            (set_cacheIndex (Some i) st, c)
          else (st, c) in
        _connect l c st
  end.

(** The reactions [_connect] attached to the promise of
    [_resolveConnection]: [_setDb], and [_fail] for a rejection or for what
    [_setDb] throws. *)
Definition settle (l : link) (r : res handles) (st : state) : state :=
  match awaiting st with
  | None => st
  | Some _ =>
      let st := set_awaiting None st in
      match r with
      | Ok h =>
          match _setDb l (h_db h) (h_client h) st with
          | (None, st) => st
          | (Some err, st) => _fail l err st
          end
      | Throw err => _fail l err st
      end
  end.

(** The queue of [process.nextTick] runs its first callback. *)
Definition run_tick (st : state) : state :=
  match ticks st with
  | [] => st
  | emit_connection :: rest =>
      emit (connection (Conn (db st) (client st))) (set_ticks rest st)
  end.

(** *** The upload pipeline *)

Definition new_upload (f : option File) (cb : bool) (s : stage) (st : state)
    : nat * state :=
  (length (uploads st),
   set_uploads
     (uploads st ++
        [{| u_file := f; u_cb := cb; u_stage := s; u_options := ∅;
            u_closing := 0; u_promise := Pending |}]) st).

(** [fromStream(readStream, request, file)] is called: a new upload, which
    goes as far as its first [await]. *)
Definition fromStream (f : option File) (cb : bool) (st : state) : state :=
  let '(i, st) := new_upload f cb Generating st in
  fromStream_enter i st.

Definition connection_must_be_open : Error :=
  new_Error "The database connection must be open to store files".

(** [_handleFile(request, file, cb)]. *)
Definition _handleFile (l : link) (f : File) (st : state) : state :=
  if connecting st then
    let '(p, st) := ready st in
    (new_upload (Some f) true (Queued p) st).2
  else
    let st := _updateConnectionStatus l st in
    if connected st then fromStream (Some f) true st
    else add_log (Callback (Throw connection_must_be_open)) st.

(** [emitError], the closure of [fromStream] for the upload [i]. *)
Definition emitError (i : nat) (err : Error) (st : state) : state :=
  match uploads st !! i with
  | Some u =>
      let st := emit (streamError err (u_options u)) st in
      finish_upload i (Throw err) st
  | None => st
  end.

(** [storedFile], as [emitFile] builds it from the document [f] of the
    writer. *)
Definition storedFile (streamOptions f : object) : object :=
  {[ "id" := get f "_id";
     "filename" := get f "filename";
     "metadata" :=
       (if truthy (get f "metadata") then get f "metadata" else VNull);
     "bucketName" := get streamOptions "bucketName";
     "chunkSize" := get f "chunkSize";
     "size" := get f "length";
     "md5" := get f "md5";
     "uploadDate" := get f "uploadDate";
     "contentType" := get f "contentType" ]}.

(** [emitFile], the closure of [fromStream] for the upload [i]. *)
Definition emitFile (i : nat) (f : object) (st : state) : state :=
  match uploads st !! i with
  | Some u =>
      let stored := storedFile (u_options u) f in
      let st := emit (file stored) st in
      finish_upload i (Ok stored) st
  | None => st
  end.

(** The executor of the promise [fromStream] returns, lines 414 to 443:
    the writer is made by [createStream], [emitError] is attached, and the
    legacy store is opened or the pump is started.  [createStream] hands
    [this.db] to the driver, which is taken to give the writer, as it does
    for a database; what it does when it is handed [null], on an instance
    that has no database, is the driver's and is not part of this. *)
Definition start_writer (i : nat) (streamOptions : object) (st : state)
    : state :=
  let st := alter_upload (set_u_options streamOptions) i st in
  let st := add_log (CreateStream i streamOptions) st in
  let st := add_log (WriterOn i "error") st in
  if _legacy st then
    alter_upload (set_stage Opening) i (add_log (StoreOpen i) st)
  else
    let st := add_log (WriterOn i "finish") st in
    alter_upload (set_stage Piping) i (add_log (Pump i) st).

(** [fromStream] from where the naming function answered, lines 368 to
    414. *)
Definition generated (i : nat) (result : produced) (rng : entropy) (oid : nat)
    (st : state) : state :=
  match uploads st !! i with
  | Some u =>
      match u_stage u with
      | Generating =>
          match
            (try fileSettings ← _generate st result;
             streamOptions_of rng oid (u_file u) fileSettings)
          with
          | Ok streamOptions => start_writer i streamOptions st
          | Throw err => abort i err st
          end
      | _ => st
      end
  | None => st
  end.

(** What the writer of an upload reports: its [error], [finish] and [end]
    events, and the callbacks of [store.open] and [store.close]. *)
Inductive notification : Type :=
  | writer_error (err : Error)
  | writer_finish (f : object)
  | store_opened (err : option Error)
  | writer_end
  | store_closed (err : option Error) (f : object).

(** The listeners and callbacks [fromStream] gave to the writer of the
    upload [i]. *)
Definition notify (i : nat) (n : notification) (st : state) : state :=
  match uploads st !! i with
  | Some u =>
      match n, u_stage u with
      | writer_error err, (Opening | OpenFailed | Piping) => emitError i err st
      | writer_finish f, Piping =>
          if _legacy st then st else emitFile i f st
      | store_opened (Some err), Opening =>
          emitError i err (alter_upload (set_stage OpenFailed) i st)
      | store_opened None, Opening =>
          let st := alter_upload (set_stage Piping) i st in
          add_log (Pump i) (add_log (WriterOn i "end") st)
      | writer_end, Piping =>
          if _legacy st then
            alter_upload (set_closing (S (u_closing u))) i
              (add_log (StoreClose i) st)
          else st
      | store_closed err f, _ =>
          match u_closing u with
          | 0 => st
          | S k =>
              let st := alter_upload (set_closing k) i st in
              match err with
              | Some e => emitError i e st
              | None => emitFile i f st
              end
          end
      | _, _ => st
      end
  | None => st
  end.

(** *** Runs of an instance *)

(** What reaches an instance after its construction. *)
Inductive input : Type :=
  | Settle (r : res handles)
  | Tick
  | BackendEvent (err : option Error)
  | CallReady
  | Attach (ev : string) (n : nat) (only_once : bool)
  | HandleFile (f : File)
  | FromStream (f : option File)
  | Resume (i : nat)
  | Generated (i : nat) (result : produced) (rng : entropy) (oid : nat)
  | Notify (i : nat) (n : notification).

Definition step (st : state) (li : link * input) : state :=
  let l := li.1 in
  match li.2 with
  | Settle r => settle l r st
  | Tick => run_tick st
  | BackendEvent err => Nat.iter (subscriptions st) (errEvent l err) st
  | CallReady => (ready st).2
  | Attach ev n only_once =>
      if only_once then once ev (application n) st
      else on ev (application n) st
  | HandleFile f => _handleFile l f st
  | FromStream f => fromStream f false st
  | Resume i => resume i st
  | Generated i result rng oid => generated i result rng oid st
  | Notify i n => notify i n st
  end.

Definition run (st : state) (ins : list (link * input)) : state :=
  foldl step st ins.

(** *** Instances that share the cache *)

(** The process: [GridFSStorage.cache], the instances made so far, and what
    the promise of [_resolveConnection] of an instance was settled with. *)
Record world := {
  registry : Cache;
  instances : list state;
  observations : list (nat * res handles)
}.

Definition empty_world : world :=
  {| registry := []; instances := []; observations := [] |}.

(** What happens in the process: an instance is made; [MongoClient.connect]
    answers the instance [i] that called it; the promise of [cache.waitFor]
    that instance [i] holds is found settled; the promises given as [db]
    and [client] of instance [i] settle; an instance gets another input. *)
Inductive happening : Type :=
  | New (legacy : bool) (cfg : option configuration)
  | ConnectDone (i : nat) (answer : res connected_to)
  | CacheAnswered (i : nat)
  | HandlesDone (i : nat) (r : res handles)
  | Local (i : nat) (inp : input).

Definition is_Settle (inp : input) : bool :=
  match inp with Settle _ => true | _ => false end.

Definition observe (i : nat) (l : link) (r : res handles) (c : Cache)
    (st : state) (w : world) : world :=
  {| registry := c;
     instances := <[i := settle l r st]> (instances w);
     observations := observations w ++ [(i, r)] |}.

Definition happen (w : world) (lh : link * happening) : world :=
  let l := lh.1 in
  match lh.2 with
  | New legacy cfg =>
      match constructor legacy cfg l (registry w) with
      | (Ok st, c) =>
          {| registry := c; instances := instances w ++ [st];
             observations := observations w |}
      | (Throw _, c) =>
          {| registry := c; instances := instances w;
             observations := observations w |}
      end
  | ConnectDone i answer =>
      match instances w !! i with
      | Some st =>
          match awaiting st with
          | Some OnConnect =>
              let '(r, c) := _createConnection answer (registry w) st in
              observe i l r c st w
          | _ => w
          end
      | None => w
      end
  | CacheAnswered i =>
      match instances w !! i with
      | Some st =>
          match awaiting st with
          | Some (OnCache idx) =>
              match Cache_waitFor idx (registry w) with
              | Fulfilled h => observe i l (Ok h) (registry w) st w
              | Rejected err => observe i l (Throw err) (registry w) st w
              | Pending => w
              end
          | _ => w
          end
      | None => w
      end
  | HandlesDone i r =>
      match instances w !! i with
      | Some st =>
          match awaiting st with
          | Some OnHandles => observe i l r (registry w) st w
          | _ => w
          end
      | None => w
      end
  | Local i inp =>
      match instances w !! i with
      | Some st =>
          if is_Settle inp then w
          else
            {| registry := registry w;
               instances := <[i := step st (l, inp)]> (instances w);
               observations := observations w |}
      | None => w
      end
  end.

Definition history (w : world) (hs : list (link * happening)) : world :=
  foldl happen w hs.

(** The calls of [MongoClient.connect] an instance made. *)
Definition is_connect (e : effect) : bool :=
  match e with MongoConnect _ _ => true | _ => false end.

Definition connects (st : state) : nat :=
  length (filter (λ e, Is_true (is_connect e)) (log st)).

(** * Properties *)

(** ** Naming *)



(** The layers of the merge as the specification lists them.  The lowest
    one holds what is generated: the text of 16 random bytes and a new
    [ObjectID]. *)
Definition auto_generated (rng : entropy) (oid : nat) : object :=
  match randomBytes 16 rng with
  | Ok buffer =>
      {[ "filename" := VString (toString_hex buffer); "id" := VObjectID oid ]}
  | Throw _ => {[ "id" := VObjectID oid ]}
  end.

Definition inferred (descriptor : option File) : object :=
  {[ "contentType" :=
       match descriptor with Some f => mimetype f | None => VUndefined end ]}.

(** The value of a key is that of the first layer that has the key. *)
Fixpoint by_precedence (layers : list object) (k : string) : option value :=
  match layers with
  | [] => None
  | o :: lower =>
      match o !! k with
      | Some v => Some v
      | None => by_precedence lower k
      end
  end.









Lemma get_None (o : object) k : o !! k = None → get o k = VUndefined.
Proof. unfold get. by intros ->. Qed.

Lemma read_plain (o : object) k : read (plain o) k = get o k.
Proof.
  unfold read, get. simpl. destruct (o !! k); [done|]. by rewrite lookup_empty.
Qed.

(** The lowest layer of the merge as [_mergeProps] builds it: of the
    generated [filename] and [id], those whose key reads falsy on the
    settings. *)
Definition generated_for (rng : entropy) (oid : nat) (fileSettings : js_object)
    : object :=
  filter (λ kv, truthy (read fileSettings kv.1) = false) (auto_generated rng oid).

Lemma generated_for_lookup rng oid fileSettings k :
  generated_for rng oid fileSettings !! k
  = if truthy (read fileSettings k) then None else auto_generated rng oid !! k.
Proof.
  unfold generated_for.
  destruct (truthy (read fileSettings k)) eqn:Hk.
  - apply map_lookup_filter_None. right. intros v _. simpl. by rewrite Hk.
  - destruct (auto_generated rng oid !! k) as [v|] eqn:Hv.
    + by apply map_lookup_filter_Some.
    + apply map_lookup_filter_None. by left.
Qed.

Lemma generated_for_plain rng oid (settings : object) k :
  settings !! k = None →
  generated_for rng oid (plain settings) !! k = auto_generated rng oid !! k.
Proof.
  intros Hk. rewrite generated_for_lookup, read_plain.
  by rewrite (get_None _ _ Hk).
Qed.

(** What [_mergeProps] returns, key by key. *)
Lemma _mergeProps_layers rng oid extra fileSettings merged k :
  _mergeProps rng oid extra fileSettings = Ok merged →
  merged !! k
  = by_precedence [own_enumerable fileSettings; extra; defaults;
                   generated_for rng oid fileSettings] k.
Proof.
  unfold _mergeProps, generateBytes. intros H.
  assert (∃ prev : object,
    merged = spread (spread (spread prev defaults) extra)
               (own_enumerable fileSettings) ∧
    prev !! k = generated_for rng oid fileSettings !! k)
    as (prev & -> & Hprev).
  { rewrite generated_for_lookup. unfold auto_generated.
    destruct (truthy (read fileSettings "filename")) eqn:Hname;
      destruct (truthy (read fileSettings "id")) eqn:Hid;
      destruct (randomBytes 16 rng) as [buffer|]; simpl in H; try done;
      injection H as <-; eexists; (split; [done|]);
      (destruct (decide (k = "filename")) as [->|Hf];
        [|destruct (decide (k = "id")) as [->|Hi]]);
      rewrite ?Hname, ?Hid; try (by simplify_map_eq);
      destruct (truthy (read fileSettings k)); by simplify_map_eq. }
  rewrite !lookup_spread. simpl.
  destruct (own_enumerable fileSettings !! k); [done|].
  destruct (extra !! k); [done|].
  destruct (defaults !! k); [done|].
  rewrite Hprev. by destruct (generated_for rng oid fileSettings !! k).
Qed.

Lemma _mergeProps_lookup rng oid extra (settings : object) merged k :
  _mergeProps rng oid extra (plain settings) = Ok merged →
  merged !! k
  = by_precedence [settings; extra; defaults; auto_generated rng oid] k.
Proof.
  intros H. rewrite (_mergeProps_layers _ _ _ _ _ k H). simpl.
  destruct (settings !! k) eqn:Hk; [done|].
  by rewrite (generated_for_plain _ _ _ _ Hk).
Qed.

(** C1: the settings an upload is stored under hold, for every key, the
    value of the first of these that has the key: the settings the naming
    function resolved to, the [contentType] of the file descriptor, the
    defaults, and last the generated [filename] and [id].  So what the
    naming function gave wins every conflict, [contentType] included.  A
    naming function that returns ["abc"] gives settings with the filename
    ["abc"], the chunk size 261120 and the bucket name ["fs"]. *)
Theorem merge_precedence :
  (∀ rng oid descriptor fileSettings streamOptions,
     streamOptions_of rng oid descriptor fileSettings = Ok streamOptions →
     ∃ settings,
       fileSettings_to_settings fileSettings = Ok settings ∧
       ∀ k, streamOptions !! k
            = by_precedence
                [settings; inferred descriptor; defaults;
                 auto_generated rng oid] k) ∧
  (∀ rng oid descriptor,
     ∃ streamOptions,
       streamOptions_of rng oid descriptor (RString "abc") = Ok streamOptions ∧
       streamOptions !! "filename" = Some (VString "abc") ∧
       streamOptions !! "chunkSize" = Some (VNumber 261120%float) ∧
       streamOptions !! "bucketName" = Some (VString "fs")).
Proof.
  split.
  - intros rng oid descriptor fileSettings streamOptions H.
    unfold streamOptions_of in H.
    destruct (fileSettings_to_settings fileSettings) as [settings|] eqn:Hs;
      simpl in H; [|done].
    exists settings. split; [done|]. intros k.
    by apply _mergeProps_lookup.
  - intros rng oid descriptor.
    destruct (streamOptions_of rng oid descriptor (RString "abc"))
      as [streamOptions|err] eqn:H.
    + exists streamOptions. split; [done|].
      unfold streamOptions_of in H. simpl in H.
      rewrite !(_mergeProps_lookup _ _ _ _ _ _ H). done.
    + unfold streamOptions_of in H. simpl in H. done.
Qed.


(** The effects of the steps of an upload that end it early. *)
Lemma log_finish_upload i r st :
  log (finish_upload i r st) = log st
  ∨ log (finish_upload i r st) = log st ++ [Callback r].
Proof.
  unfold finish_upload. destruct (uploads st !! i) as [u|]; [|by left].
  destruct (settled (u_promise u)); [by left|].
  destruct (u_cb u); [by right|by left].
Qed.

Lemma log_abort i err st :
  log (abort i err st) = log st
  ∨ log (abort i err st) = log st ++ [Callback (Throw err)].
Proof.
  unfold abort.
  destruct (log_finish_upload i (Throw err)
              (alter_upload (set_stage Aborted) i st)) as [H|H];
    rewrite H; [by left|by right].
Qed.

(** An effect that is none of those listed. *)
Ltac not_listed :=
  let Hin := fresh "Hin" in
  intros Hin;
  repeat (apply elem_of_cons in Hin as [Hin|Hin]; [discriminate Hin|]);
  by apply elem_of_nil in Hin.

Lemma log_start_writer i streamOptions st :
  ∃ rest,
    log (start_writer i streamOptions st)
    = log st ++ CreateStream i streamOptions :: WriterOn i "error" :: rest
    ∧ ∀ conf, CreateStream i conf ∉ rest.
Proof.
  unfold start_writer. simpl. destruct (_legacy st); simpl.
  - exists [StoreOpen i]. rewrite <- !app_assoc. split; [done|].
    intros conf. not_listed.
  - exists [WriterOn i "finish"; Pump i]. rewrite <- !app_assoc.
    split; [done|]. intros conf. not_listed.
Qed.

(** The promise of an upload that is aborted while it is pending is
    rejected, and nothing else of it changes but its stage. *)
Lemma abort_rejects i err st u :
  uploads st !! i = Some u →
  u_promise u = Pending →
  u_promise <$> uploads (abort i err st) !! i = Some (Rejected err).
Proof.
  intros Hu Hp. unfold abort, finish_upload, alter_upload. simpl.
  rewrite list_lookup_alter_eq, Hu. simpl. rewrite Hp. simpl.
  destruct (u_cb u); simpl; by rewrite !list_lookup_alter_eq, Hu.
Qed.

(** C6: what the naming function resolved to is taken when it is
    [undefined] or [null] (the settings are then empty), a number or a
    string (the settings are then [{filename: String(value)}]), or an
    object (its own properties are the settings); a value of another type
    is refused with the error "Invalid type for file settings, got " and
    the type.  The upload it was resolved for then ends there: its promise
    is rejected with that error, and no writer is made. *)
Theorem naming_result_validation :
  (∀ fileSettings,
     match fileSettings with
     | RUndefined | RNull => fileSettings_to_settings fileSettings = Ok ∅
     | RNumber n =>
         fileSettings_to_settings fileSettings
         = Ok {[ "filename" := VString (Number_toString n) ]}
     | RString s =>
         fileSettings_to_settings fileSettings
         = Ok {[ "filename" := VString s ]}
     | RObject own => fileSettings_to_settings fileSettings = Ok own
     | RBoolean _ | RSymbol _ | RBigInt _ | RFunction _ =>
         fileSettings_to_settings fileSettings
         = Throw (new_Error ("Invalid type for file settings, got "
                             +:+ typeof fileSettings))
     end) ∧
  (∀ st i u result fileSettings rng oid err,
     uploads st !! i = Some u →
     u_stage u = Generating →
     u_promise u = Pending →
     _generate st result = Ok fileSettings →
     fileSettings_to_settings fileSettings = Throw err →
     let st' := generated i result rng oid st in
     err = new_Error ("Invalid type for file settings, got "
                      +:+ typeof fileSettings) ∧
     u_promise <$> uploads st' !! i = Some (Rejected err) ∧
     ∀ conf, CreateStream i conf ∈ log st' → CreateStream i conf ∈ log st).
Proof.
  split.
  - by intros [].
  - intros st i u result fileSettings rng oid err Hu Hstage Hp Hgen Hbad st'.
    assert (st' = abort i err st) as ->.
    { unfold st', generated. rewrite Hu, Hstage, Hgen. simpl.
      unfold streamOptions_of. by rewrite Hbad. }
    split; [|split].
    + by destruct fileSettings; inversion Hbad.
    + by apply abort_rejects with u.
    + intros conf. destruct (log_abort i err st) as [->| ->]; [done|].
      intros [Hin|Hin]%elem_of_app; [done|]. revert Hin. not_listed.
Qed.



(** ** The event emitter *)

(** What a record of effects shows: the signals that were emitted, and the
    signals the listener [n] of the application was called with. *)
Definition emitted (es : list effect) : list signal :=
  omap (λ e, match e with Emit s _ => Some s | _ => None end) es.

Definition heard (n : nat) (es : list effect) : list signal :=
  omap (λ e,
    match e with
    | Deliver m s => if decide (m = n) then Some s else None
    | _ => None
    end) es.

(** The two signals a connection attempt ends with. *)
Definition is_outcome (s : signal) : bool :=
  match s with
  | connection _ | connectionFailed _ => true
  | _ => false
  end.

Definition outcomes (ss : list signal) : list signal :=
  filter (λ s, Is_true (is_outcome s)) ss.

Section removal.
Context (P : registration → Prop) `{!∀ r, Decision (P r)}.
Implicit Types (Q : registration → bool) (l : list registration).

Lemma filter_remove_first_out Q l :
  (∀ r, Q r = true → ¬ P r) → filter P (remove_first Q l) = filter P l.
Proof.
  intros HQ. induction l as [|r l IH]; simpl; [done|].
  destruct (Q r) eqn:Hr.
  - by rewrite filter_cons_False by auto.
  - by rewrite !filter_cons, IH.
Qed.

Lemma filter_remove_last_out Q l :
  (∀ r, Q r = true → ¬ P r) → filter P (remove_last Q l) = filter P l.
Proof.
  intros HQ. unfold remove_last.
  by rewrite filter_reverse, filter_remove_first_out, filter_reverse,
    reverse_involutive.
Qed.

Lemma filter_remove_first_in Q l :
  (∀ r, Q r = true → P r) →
  filter P (remove_first Q l) = remove_first Q (filter P l).
Proof.
  intros HQ. induction l as [|r l IH]; simpl; [done|].
  destruct (Q r) eqn:Hr.
  - rewrite filter_cons_True by auto. simpl. by rewrite Hr.
  - rewrite !filter_cons. destruct (decide (P r)); [|done].
    simpl. by rewrite Hr, IH.
Qed.

Lemma filter_remove_last_in Q l :
  (∀ r, Q r = true → P r) →
  filter P (remove_last Q l) = remove_last Q (filter P l).
Proof.
  intros HQ. unfold remove_last.
  by rewrite filter_reverse, filter_remove_first_in, filter_reverse.
Qed.
End removal.

Lemma remove_first_subseteq Q (l : list registration) r :
  r ∈ remove_first Q l → r ∈ l.
Proof.
  induction l as [|r' l IH]; simpl; [done|].
  destruct (Q r'); [by right|].
  intros [->|Hin]%elem_of_cons; [by left|right; auto].
Qed.

Lemma remove_last_subseteq Q (l : list registration) r :
  r ∈ remove_last Q l → r ∈ l.
Proof.
  unfold remove_last. rewrite elem_of_reverse.
  intros H%remove_first_subseteq. by apply elem_of_reverse.
Qed.

(** The fields of the instance that no listener touches. *)
Definition core (st : state) :=
  (db st, client st, connected st, connecting st, configuration_ st,
   (caching st, cacheName st, cacheIndex st, error st, _legacy st),
   (subscriptions st, awaiting st, ticks st, uploads st)).

Lemma core_settle_promise p outcome st :
  core (settle_promise p outcome st) = core st.
Proof. unfold settle_promise. by destruct (promises st !! p) as [[]|]. Qed.

Lemma log_settle_promise p outcome st :
  log (settle_promise p outcome st) = log st.
Proof. unfold settle_promise. by destruct (promises st !! p) as [[]|]. Qed.

Lemma listeners_settle_promise p outcome st :
  listeners (settle_promise p outcome st) = listeners st.
Proof. unfold settle_promise. by destruct (promises st !! p) as [[]|]. Qed.

Lemma length_settle_promise p outcome st :
  length (promises (settle_promise p outcome st)) = length (promises st).
Proof.
  unfold settle_promise. destruct (promises st !! p) as [[]|]; try done.
  simpl. by rewrite length_insert.
Qed.

Lemma lookup_settle_promise_ne p q outcome st :
  p ≠ q → promises (settle_promise p outcome st) !! q = promises st !! q.
Proof.
  intros Hpq. unfold settle_promise.
  destruct (promises st !! p) as [[]|]; try done.
  simpl. by rewrite list_lookup_insert_ne.
Qed.

Lemma core_call s st r : core (call s st r) = core st.
Proof.
  unfold call, invoke.
  destruct (fn r), (is_once r), s; simpl;
    rewrite ?core_settle_promise; done.
Qed.

Lemma core_emit s st : core (emit s st) = core st.
Proof.
  unfold emit.
  generalize (filter (λ r, on_event r = event_of s) (listeners st)).
  intros snapshot.
  transitivity (core (add_log (Emit s (connected st)) st)); [|done].
  generalize (add_log (Emit s (connected st)) st). clear st.
  induction snapshot as [|r snapshot IH]; intros st; simpl; [done|].
  by rewrite IH, core_call.
Qed.

(** A call leaves alone the entries of the table that neither the wrapper
    of [once] nor [done] and [fail] take out. *)
Lemma listeners_call (P : registration → Prop) `{!∀ r, Decision (P r)} s st r :
  (is_once r = true → ¬ P r) →
  (∀ q r', fn r = ready_done q → fn r' = ready_fail q → ¬ P r') →
  (∀ q r', fn r = ready_fail q → fn r' = ready_done q → ¬ P r') →
  filter P (listeners (call s st r)) = filter P (listeners st).
Proof.
  intros Honce Hdone Hfail. unfold call.
  set (st1 := if is_once r then _ else st).
  assert (filter P (listeners st1) = filter P (listeners st)) as <-.
  { unfold st1. destruct (is_once r); [|done]. simpl.
    apply filter_remove_last_out. intros r' ->%bool_decide_eq_true. auto. }
  clearbody st1. unfold invoke. destruct (fn r) as [n|q|q] eqn:Hfn; [done|..].
  - transitivity (filter P (listeners
      (removeListener "connectionFailed" (ready_fail q) st1))).
    { by destruct s; rewrite ?listeners_settle_promise. }
    simpl. apply filter_remove_last_out.
    intros r' [_ Hr']%bool_decide_eq_true. eauto.
  - transitivity (filter P (listeners
      (removeListener "connection" (ready_done q) st1))).
    { by destruct s; rewrite ?listeners_settle_promise. }
    simpl. apply filter_remove_last_out.
    intros r' [_ Hr']%bool_decide_eq_true. eauto.
Qed.

(** No call adds an entry to the table. *)
Lemma listeners_call_subseteq s st r r' :
  r' ∈ listeners (call s st r) → r' ∈ listeners st.
Proof.
  unfold call.
  set (st1 := if is_once r then _ else st).
  assert (r' ∈ listeners st1 → r' ∈ listeners st) as Hst1.
  { unfold st1. destruct (is_once r); [|done]. simpl.
    apply remove_last_subseteq. }
  clearbody st1. intros Hin. apply Hst1. clear Hst1.
  unfold invoke in Hin. destruct (fn r) as [n|q|q]; [done|..];
    destruct s; rewrite ?listeners_settle_promise in Hin; simpl in Hin;
    by apply remove_last_subseteq in Hin.
Qed.

(** What the listeners of a snapshot add to the record of effects. *)
Definition deliveries (s : signal) (snapshot : list registration)
    : list effect :=
  omap (λ r,
    match fn r with
    | application n => Some (Deliver n s)
    | _ => None
    end) snapshot.

Lemma log_call s st r :
  log (call s st r) = log st ++ deliveries s [r].
Proof.
  unfold call, invoke, deliveries. simpl.
  destruct (fn r), (is_once r), s; simpl;
    rewrite ?log_settle_promise; simpl; by rewrite ?app_nil_r.
Qed.

Lemma log_foldl_call s snapshot st :
  log (foldl (call s) st snapshot) = log st ++ deliveries s snapshot.
Proof.
  revert st. induction snapshot as [|r snapshot IH]; intros st; simpl.
  - by rewrite app_nil_r.
  - rewrite IH, log_call. rewrite <- app_assoc. f_equal.
    unfold deliveries. simpl. by destruct (fn r).
Qed.

Lemma log_emit s st :
  log (emit s st)
  = log st ++ Emit s (connected st)
      :: deliveries s (filter (λ r, on_event r = event_of s) (listeners st)).
Proof.
  unfold emit. rewrite log_foldl_call. simpl. by rewrite <- app_assoc.
Qed.

Lemma emitted_app es1 es2 : emitted (es1 ++ es2) = emitted es1 ++ emitted es2.
Proof. apply omap_app. Qed.

Lemma heard_app n es1 es2 : heard n (es1 ++ es2) = heard n es1 ++ heard n es2.
Proof. apply omap_app. Qed.

Lemma outcomes_app ss1 ss2 : outcomes (ss1 ++ ss2) = outcomes ss1 ++ outcomes ss2.
Proof. apply filter_app. Qed.

Lemma outcomes_other s ss : is_outcome s = false → outcomes (s :: ss) = outcomes ss.
Proof.
  intros Hs. unfold outcomes. rewrite filter_cons, decide_False; [done|].
  rewrite Hs. by intros [].
Qed.

Lemma outcomes_outcome s ss :
  is_outcome s = true → outcomes (s :: ss) = s :: outcomes ss.
Proof.
  intros Hs. unfold outcomes. rewrite filter_cons, decide_True; [done|].
  by rewrite Hs.
Qed.

Lemma emitted_deliveries s snapshot : emitted (deliveries s snapshot) = [].
Proof.
  induction snapshot as [|r snapshot IH]; [done|].
  unfold deliveries in *. simpl. by destruct (fn r).
Qed.

Lemma deliveries_cons s r snapshot :
  deliveries s (r :: snapshot)
  = match fn r with
    | application n => Deliver n s :: deliveries s snapshot
    | _ => deliveries s snapshot
    end.
Proof. unfold deliveries. simpl. by destruct (fn r). Qed.

Lemma heard_Deliver n m s es :
  heard n (Deliver m s :: es)
  = if decide (m = n) then s :: heard n es else heard n es.
Proof. unfold heard. simpl. by destruct (decide (m = n)). Qed.

Lemma heard_deliveries n s snapshot :
  heard n (deliveries s snapshot)
  = (λ _, s) <$> filter (λ r, fn r = application n) snapshot.
Proof.
  induction snapshot as [|r snapshot IH]; [done|].
  rewrite filter_cons, deliveries_cons.
  destruct (fn r) as [m|q|q].
  - rewrite heard_Deliver, IH.
    destruct (decide (m = n)) as [->|Hmn].
    + by rewrite decide_True.
    + by rewrite decide_False by congruence.
  - by rewrite decide_False.
  - by rewrite decide_False.
Qed.

Lemma emitted_emit s st : emitted (log (emit s st)) = emitted (log st) ++ [s].
Proof.
  rewrite log_emit, emitted_app. simpl. by rewrite emitted_deliveries.
Qed.


(** Only [done] and [fail] of a promise settle it, and no call adds a
    promise. *)
Lemma promises_call s st r p :
  fn r ≠ ready_done p → fn r ≠ ready_fail p →
  promises (call s st r) !! p = promises st !! p.
Proof.
  intros Hd Hf. unfold call, invoke.
  destruct (fn r) as [n|q|q], (is_once r), s; simpl;
    rewrite ?lookup_settle_promise_ne by congruence; done.
Qed.

Lemma length_promises_call s st r :
  length (promises (call s st r)) = length (promises st).
Proof.
  unfold call, invoke.
  destruct (fn r) as [n|q|q], (is_once r), s; simpl;
    rewrite ?length_settle_promise; done.
Qed.

Lemma promises_call_other s st r :
  is_outcome s = false → promises (call s st r) = promises st.
Proof.
  intros Hs. unfold call, invoke.
  destruct (fn r) as [n|q|q], (is_once r), s; simpl; done.
Qed.

Lemma promises_emit_other s st :
  is_outcome s = false → promises (emit s st) = promises st.
Proof.
  intros Hs. unfold emit.
  generalize (filter (λ r, on_event r = event_of s) (listeners st)).
  intros snapshot.
  transitivity (promises (add_log (Emit s (connected st)) st)); [|done].
  generalize (add_log (Emit s (connected st)) st). clear st.
  induction snapshot as [|r snapshot IH]; intros st; simpl; [done|].
  by rewrite IH, promises_call_other.
Qed.

Lemma length_promises_emit s st :
  length (promises (emit s st)) = length (promises st).
Proof.
  unfold emit.
  generalize (filter (λ r, on_event r = event_of s) (listeners st)).
  intros snapshot.
  transitivity (length (promises (add_log (Emit s (connected st)) st)));
    [|done].
  generalize (add_log (Emit s (connected st)) st). clear st.
  induction snapshot as [|r snapshot IH]; intros st; simpl; [done|].
  by rewrite IH, length_promises_call.
Qed.

Lemma listeners_emit_subseteq s st r :
  r ∈ listeners (emit s st) → r ∈ listeners st.
Proof.
  unfold emit.
  generalize (filter (λ r, on_event r = event_of s) (listeners st)).
  intros snapshot.
  change (listeners st) with (listeners (add_log (Emit s (connected st)) st)).
  generalize (add_log (Emit s (connected st)) st). clear st.
  induction snapshot as [|r' snapshot IH]; intros st; simpl; [done|].
  intros Hin%IH. by apply listeners_call_subseteq in Hin.
Qed.

(** The listeners [done] and [fail] of one promise are taken out of the
    table only together. *)
Definition closed (P : registration → Prop) : Prop :=
  ∀ q r r',
    fn r = ready_done q ∨ fn r = ready_fail q →
    fn r' = ready_done q ∨ fn r' = ready_fail q →
    P r' → P r.

(** An emission keeps the entries of a class it calls no [once] entry and
    no [done] or [fail] of. *)
Lemma listeners_emit (P : registration → Prop) `{!∀ r, Decision (P r)} s st :
  closed P →
  (∀ r, r ∈ listeners st → on_event r = event_of s → P r →
        is_once r = false ∧ ∃ n, fn r = application n) →
  filter P (listeners (emit s st)) = filter P (listeners st).
Proof.
  intros Hclosed Hsnap. unfold emit.
  assert (Forall (λ r, P r → is_once r = false ∧ ∃ n, fn r = application n)
            (filter (λ r, on_event r = event_of s) (listeners st))) as Hall.
  { apply Forall_forall. intros r [Hev Hin]%list_elem_of_filter. auto. }
  revert Hall.
  generalize (filter (λ r, on_event r = event_of s) (listeners st)).
  intros snapshot.
  change (listeners st) with (listeners (add_log (Emit s (connected st)) st)).
  generalize (add_log (Emit s (connected st)) st). clear st Hsnap.
  induction snapshot as [|r snapshot IH]; intros st Hall; simpl; [done|].
  apply Forall_cons in Hall as [Hr Hall].
  rewrite IH by done. apply listeners_call.
  - intros Honce HP. destruct (Hr HP) as [? _]. congruence.
  - intros q r' Hq Hq' HP'.
    assert (P r) as HP by (eapply Hclosed; eauto).
    destruct (Hr HP) as (_ & n & ?). congruence.
  - intros q r' Hq Hq' HP'.
    assert (P r) as HP by (eapply Hclosed; eauto).
    destruct (Hr HP) as (_ & n & ?). congruence.
Qed.

Lemma filter_nil_Forall {A} (Q : A → Prop) `{Qdec : !∀ x, Decision (Q x)}
    (l : list A) :
  filter Q l = [] → Forall (λ x, ¬ Q x) l.
Proof.
  intros H. apply Forall_forall. intros x Hin HQ.
  assert (x ∈ filter Q l) as Hx by by apply list_elem_of_filter.
  rewrite H in Hx. by apply elem_of_nil in Hx.
Qed.

Lemma filter_nil_intro {A} (Q : A → Prop) `{Qdec : !∀ x, Decision (Q x)}
    (l : list A) :
  (∀ x, x ∈ l → ¬ Q x) → filter Q l = [].
Proof.
  induction l as [|x l IH]; intros Hl; [done|].
  rewrite filter_cons, decide_False by (apply Hl; by left).
  apply IH. intros y Hy. apply Hl. by right.
Qed.

Lemma filter_singleton_split {A} (Q : A → Prop) `{Qdec : !∀ x, Decision (Q x)}
    l x :
  filter Q l = [x] →
  ∃ l1 l2, l = l1 ++ x :: l2 ∧
    Forall (λ y, ¬ Q y) l1 ∧ Forall (λ y, ¬ Q y) l2.
Proof.
  induction l as [|y l IH]; [done|].
  rewrite filter_cons. destruct (decide (Q y)) as [HQ|HQ].
  - intros [= -> Hnil]. exists [], l. split; [done|]. split; [done|].
    by apply (filter_nil_Forall Q (Qdec:=Qdec)).
  - intros (l1 & l2 & -> & H1 & H2)%IH.
    exists (y :: l1), l2. split; [done|]. split; [by constructor|done].
Qed.

(** The effects of an emission and of the end of an upload: listeners and
    [cb] are called; nothing is done to a writer. *)
Definition notice (e : effect) : Prop :=
  match e with
  | Emit _ _ | Deliver _ _ | Callback _ => True
  | _ => False
  end.

Lemma Forall_notice_deliveries s snapshot : Forall notice (deliveries s snapshot).
Proof.
  induction snapshot as [|r snapshot IH]; [constructor|].
  rewrite deliveries_cons. destruct (fn r); [by constructor|done..].
Qed.

(** ** Steps that end no connection attempt *)

(** The entries [ready] adds to the table for the promise [p]. *)
Definition done_of (p : nat) : registration :=
  {| on_event := "connection"; fn := ready_done p; is_once := true |}.

Definition fail_of (p : nat) : registration :=
  {| on_event := "connectionFailed"; fn := ready_fail p; is_once := true |}.

(** The fields a connection attempt ends in. *)
Definition skeleton (st : state) :=
  (db st, client st, error st, subscriptions st, awaiting st, ticks st,
   (configuration_ st, caching st, cacheName st, cacheIndex st)).

(** A class of entries none of which belongs to a promise from [k] on. *)
Definition ignores (P : registration → Prop) (k : nat) : Prop :=
  ∀ q r, k ≤ q → fn r = ready_done q ∨ fn r = ready_fail q → ¬ P r.

(** A class of entries that listen to the end of the connection attempt, or
    are listeners of the application that stay. *)
Definition inert (P : registration → Prop) (l : list registration) : Prop :=
  ∀ r, r ∈ l → P r →
    on_event r = "connection" ∨ on_event r = "connectionFailed" ∨
    (is_once r = false ∧ ∃ n, fn r = application n).

(** Effects among which no connection attempt ends. *)
Definition uneventful (es : list effect) : Prop :=
  outcomes (emitted es) = [] ∧ (∀ n, outcomes (heard n es) = []) ∧
  filter (λ e, Is_true (is_connect e)) es = [].

Section calm.
Context (P : registration → Prop) `{Pdec : !∀ r, Decision (P r)}.
Context (Hclosed : closed P).

(** [st'] comes after [st], and in between no connection attempt ended,
    no promise of [ready] was settled, and the entries of the class [P]
    stayed in the table. *)
Definition calm (st st' : state) : Prop :=
  skeleton st' = skeleton st ∧
  (db st = None → connected st = false → connected st' = false) ∧
  length (promises st) ≤ length (promises st') ∧
  (∀ p, p < length (promises st) → promises st' !! p = promises st !! p) ∧
  (∀ r, r ∈ listeners st' →
     r ∈ listeners st ∨
     (∃ n, fn r = application n) ∨
     ∃ q, length (promises st) ≤ q < length (promises st') ∧
          (fn r = ready_done q ∨ fn r = ready_fail q)) ∧
  (ignores P (length (promises st)) → inert P (listeners st) →
   filter P (listeners st') = filter P (listeners st)) ∧
  ∃ es, log st' = log st ++ es ∧ uneventful es.

Lemma inert_filter l l' :
  filter P l' = filter P l → inert P l → inert P l'.
Proof.
  intros Heq Hl r Hin HP. apply Hl; [|done].
  assert (r ∈ filter P l') as Hr by by apply list_elem_of_filter.
  rewrite Heq in Hr. by apply list_elem_of_filter in Hr as [_ ?].
Qed.

Lemma ignores_mono k k' : k ≤ k' → ignores P k → ignores P k'.
Proof. intros Hk HP q r Hq. apply HP. lia. Qed.

Lemma uneventful_nil : uneventful [].
Proof. by repeat split. Qed.

Lemma uneventful_app es1 es2 :
  uneventful es1 → uneventful es2 → uneventful (es1 ++ es2).
Proof.
  intros (H1 & H1' & H1'') (H2 & H2' & H2''). split; [|split].
  - by rewrite emitted_app, outcomes_app, H1, H2.
  - intros n. by rewrite heard_app, outcomes_app, H1', H2'.
  - by rewrite filter_app, H1'', H2''.
Qed.

Lemma calm_refl st : calm st st.
Proof.
  repeat split; try done; [auto|].
  exists []. split; [by rewrite app_nil_r|apply uneventful_nil].
Qed.

Lemma calm_trans st1 st2 st3 : calm st1 st2 → calm st2 st3 → calm st1 st3.
Proof.
  intros (Hs1 & Hc1 & Hl1 & Hp1 & Hr1 & Hf1 & es1 & Hlog1 & He1)
         (Hs2 & Hc2 & Hl2 & Hp2 & Hr2 & Hf2 & es2 & Hlog2 & He2).
  assert (db st2 = db st1) as Hdb by (by injection Hs1).
  split; [congruence|]. split.
  { intros Hd Hc. apply Hc2; [congruence|auto]. }
  split; [lia|]. split.
  { intros p Hp. rewrite Hp2 by lia. auto. }
  split.
  { intros r [Hin|[Happ|(q & Hq & Hfn)]]%Hr2.
    - destruct (Hr1 r Hin) as [?|[?|(q & Hq & Hfn)]]; [by left|by right; left|].
      right; right. exists q. split; [lia|done].
    - by right; left.
    - right; right. exists q. split; [lia|done]. }
  split.
  { intros Hig Hin. rewrite Hf2, Hf1; auto.
    - by apply ignores_mono with (length (promises st1)).
    - apply inert_filter with (listeners st1); auto. }
  exists (es1 ++ es2). split.
  - by rewrite Hlog2, Hlog1, app_assoc.
  - by apply uneventful_app.
Qed.

(** A step that only touches the uploads, the log (with an effect that
    is no emission) or the state of the link is calm. *)
Lemma calm_stable st st' es :
  skeleton st' = skeleton st →
  (db st = None → connected st = false → connected st' = false) →
  promises st' = promises st →
  listeners st' = listeners st →
  log st' = log st ++ es →
  uneventful es →
  calm st st'.
Proof.
  intros Hs Hc Hp Hl Hlog He.
  split; [done|]. split; [done|]. rewrite Hp, Hl.
  repeat split; try done; [auto|]. by exists es.
Qed.

Lemma calm_add_log e st :
  match e with
  | Emit _ _ | Deliver _ _ | MongoConnect _ _ => False
  | _ => True
  end →
  calm st (add_log e st).
Proof.
  intros He. apply calm_stable with [e]; try done.
  by destruct e.
Qed.

Lemma calm_alter_upload f i st : calm st (alter_upload f i st).
Proof.
  apply calm_stable with []; try done.
  simpl. by rewrite app_nil_r.
Qed.

Lemma calm_finish_upload i r st : calm st (finish_upload i r st).
Proof.
  unfold finish_upload. destruct (uploads st !! i) as [u|]; [|apply calm_refl].
  destruct (settled (u_promise u)); [apply calm_refl|].
  destruct (u_cb u).
  - eapply calm_trans; [apply calm_alter_upload|by apply calm_add_log].
  - apply calm_alter_upload.
Qed.

Lemma calm_abort i err st : calm st (abort i err st).
Proof.
  unfold abort.
  eapply calm_trans; [apply calm_alter_upload|apply calm_finish_upload].
Qed.

Lemma calm_new_upload f cb stg st : calm st (new_upload f cb stg st).2.
Proof.
  apply calm_stable with []; try done.
  simpl. by rewrite app_nil_r.
Qed.

Lemma calm_start_writer i streamOptions st :
  calm st (start_writer i streamOptions st).
Proof.
  unfold start_writer.
  set (st1 := alter_upload (set_u_options streamOptions) i st).
  assert (calm st st1) as H1 by apply calm_alter_upload.
  set (st2 := add_log (CreateStream i streamOptions) st1).
  assert (calm st st2) as H2.
  { eapply calm_trans; [exact H1|by apply calm_add_log]. }
  set (st3 := add_log (WriterOn i "error") st2).
  assert (calm st st3) as H3.
  { eapply calm_trans; [exact H2|by apply calm_add_log]. }
  change (_legacy (add_log _ (add_log _ st1))) with (_legacy st3).
  destruct (_legacy st3).
  - eapply calm_trans; [exact H3|].
    eapply calm_trans; [|apply calm_alter_upload]. by apply calm_add_log.
  - eapply calm_trans; [exact H3|].
    eapply calm_trans; [by apply (calm_add_log (WriterOn i "finish"))|].
    eapply calm_trans; [|apply calm_alter_upload]. by apply calm_add_log.
Qed.

Lemma calm__updateConnectionStatus l st :
  calm st (_updateConnectionStatus l st).
Proof.
  unfold _updateConnectionStatus.
  destruct (db st) eqn:Hdb; [destruct (client st) eqn:Hcl|];
    apply calm_stable with []; try done.
  all: try (simpl; by rewrite app_nil_r).
  all: try (unfold skeleton; simpl; by rewrite ?Hdb, ?Hcl).
Qed.

Lemma calm_ready st : calm st (ready st).2.
Proof.
  unfold ready. destruct (error st) as [err|].
  { simpl. split; [done|]. split; [done|]. simpl. rewrite length_app.
    split; [lia|]. split; [intros p Hp; by rewrite lookup_app_l|].
    split; [auto|]. split; [done|].
    exists []. split; [by rewrite app_nil_r|apply uneventful_nil]. }
  destruct (connected st).
  { simpl. split; [done|]. split; [done|]. simpl. rewrite length_app.
    split; [lia|]. split; [intros p Hp; by rewrite lookup_app_l|].
    split; [auto|]. split; [done|].
    exists []. split; [by rewrite app_nil_r|apply uneventful_nil]. }
  simpl. split; [done|]. split; [done|]. simpl. rewrite length_app.
  split; [lia|]. split; [intros p Hp; by rewrite lookup_app_l|].
  split.
  { intros r [[Hin| ->%list_elem_of_singleton]%elem_of_app
              | ->%list_elem_of_singleton]%elem_of_app.
    - by left.
    - right; right. exists (length (promises st)). simpl. split; [lia|auto].
    - right; right. exists (length (promises st)). simpl. split; [lia|auto]. }
  split.
  { intros Hig _. rewrite !filter_app, !filter_cons, filter_nil.
    rewrite !decide_False, !app_nil_r; [done|..].
    - apply Hig with (length (promises st)); [lia|]. simpl. auto.
    - apply Hig with (length (promises st)); [lia|]. simpl. auto. }
  exists []. split; [by rewrite app_nil_r|apply uneventful_nil].
Qed.

(** The application attaches a listener that is not of the class. *)
Lemma calm_attach ev n only_once st :
  ¬ P {| on_event := ev; fn := application n; is_once := only_once |} →
  calm st (if only_once then once ev (application n) st
           else on ev (application n) st).
Proof.
  intros HP.
  assert (calm st (set_listeners
    (listeners st ++
       [{| on_event := ev; fn := application n; is_once := only_once |}])
    st)) as H.
  { split; [done|]. split; [done|]. simpl. split; [lia|]. split; [done|].
    split.
    { intros r [Hin| ->%list_elem_of_singleton]%elem_of_app; [by left|].
      right; left. by exists n. }
    split.
    { intros _ _. by rewrite filter_app, filter_cons, decide_False,
        filter_nil, app_nil_r. }
    exists []. split; [by rewrite app_nil_r|apply uneventful_nil]. }
  by destruct only_once.
Qed.

(** The emission of [file], [streamError] or [dbError]. *)
Lemma calm_emit s st : is_outcome s = false → calm st (emit s st).
Proof.
  intros Hs.
  pose proof (core_emit s st) as Hcore. unfold core in Hcore.
  split; [unfold skeleton; congruence|].
  split; [intros _ Hc; congruence|].
  rewrite length_promises_emit, promises_emit_other by done.
  split; [lia|]. split; [done|]. split.
  { intros r Hin%listeners_emit_subseteq. by left. }
  split.
  { intros _ Hin. apply listeners_emit; [done|].
    intros r Hr Hev HP.
    destruct (Hin r Hr HP) as [Hc|[Hc|?]]; [| |done];
      rewrite Hc in Hev; by destruct s. }
  eexists. split; [apply log_emit|]. split; [|split].
  - simpl. rewrite emitted_deliveries. by apply outcomes_other.
  - intros n. simpl. rewrite heard_deliveries.
    induction (filter _ (filter _ _)) as [|r l IH]; [done|].
    simpl. by rewrite outcomes_other.
  - rewrite filter_cons, decide_False by (by intros []).
    apply (filter_nil_intro (λ e, Is_true (is_connect e))).
    intros e He Hc.
    pose proof (Forall_notice_deliveries s
      (filter (λ r, on_event r = event_of s) (listeners st))) as Hn.
    rewrite Forall_forall in Hn. apply Hn in He. by destruct e.
Qed.

Lemma calm_fromStream_enter i st : calm st (fromStream_enter i st).
Proof.
  unfold fromStream_enter. destruct (connecting st).
  - pose proof (calm_ready st) as H. destruct (ready st) as [p st1].
    eapply calm_trans; [exact H|apply calm_alter_upload].
  - apply calm_alter_upload.
Qed.

Lemma calm_resume i st : calm st (resume i st).
Proof.
  unfold resume. destruct (uploads st !! i) as [u|]; [|apply calm_refl].
  destruct (u_stage u) as [p|p| | | | | ]; try apply calm_refl;
    destruct (promises st !! p) as [[| |]|]; try apply calm_refl;
    auto using calm_fromStream_enter, calm_abort, calm_alter_upload.
Qed.

Lemma calm_fromStream f cb st : calm st (fromStream f cb st).
Proof.
  unfold fromStream.
  pose proof (calm_new_upload f cb Generating st) as H.
  destruct (new_upload f cb Generating st) as [i st1].
  eapply calm_trans; [exact H|apply calm_fromStream_enter].
Qed.

Lemma calm__handleFile l f st : calm st (_handleFile l f st).
Proof.
  unfold _handleFile. destruct (connecting st).
  - pose proof (calm_ready st) as H. destruct (ready st) as [p st1].
    eapply calm_trans; [exact H|apply calm_new_upload].
  - eapply calm_trans; [apply (calm__updateConnectionStatus l)|].
    destruct (connected _).
    + apply calm_fromStream.
    + by apply calm_add_log.
Qed.

Lemma calm_emitError i err st : calm st (emitError i err st).
Proof.
  unfold emitError. destruct (uploads st !! i) as [u|]; [|apply calm_refl].
  apply calm_trans with (emit (streamError err (u_options u)) st);
    [by apply calm_emit|apply calm_finish_upload].
Qed.

Lemma calm_emitFile i f st : calm st (emitFile i f st).
Proof.
  unfold emitFile. destruct (uploads st !! i) as [u|]; [|apply calm_refl].
  apply calm_trans with (emit (file (storedFile (u_options u) f)) st);
    [by apply calm_emit|apply calm_finish_upload].
Qed.

Lemma calm_generated i result rng oid st :
  calm st (generated i result rng oid st).
Proof.
  unfold generated. destruct (uploads st !! i) as [u|]; [|apply calm_refl].
  destruct (u_stage u); try apply calm_refl.
  destruct (res_bind _ _); [apply calm_start_writer|apply calm_abort].
Qed.

Lemma calm_notify i n st : calm st (notify i n st).
Proof.
  unfold notify. destruct (uploads st !! i) as [u|]; [|apply calm_refl].
  destruct n as [err|f|[err|]| |err f].
  - destruct (u_stage u); try apply calm_refl; apply calm_emitError.
  - destruct (u_stage u); try apply calm_refl.
    destruct (_legacy st); [apply calm_refl|apply calm_emitFile].
  - destruct (u_stage u); try apply calm_refl.
    eapply calm_trans; [apply calm_alter_upload|apply calm_emitError].
  - destruct (u_stage u); try apply calm_refl.
    eapply calm_trans; [apply calm_alter_upload|].
    eapply calm_trans; [|by apply calm_add_log]. by apply calm_add_log.
  - destruct (u_stage u); try apply calm_refl.
    destruct (_legacy st); [|apply calm_refl].
    eapply calm_trans; [|apply calm_alter_upload]. by apply calm_add_log.
  - destruct (u_stage u);
      (destruct (u_closing u); [apply calm_refl|];
       eapply calm_trans; [apply calm_alter_upload|];
       destruct err; [apply calm_emitError|apply calm_emitFile]).
Qed.

Lemma calm_errEvent l err st : calm st (errEvent l err st).
Proof.
  unfold errEvent.
  eapply calm_trans; [apply (calm__updateConnectionStatus l)|].
  by apply calm_emit.
Qed.

Lemma calm_iter_errEvent l err k st :
  calm st (Nat.iter k (errEvent l err) st).
Proof.
  induction k as [|k IH]; simpl; [apply calm_refl|].
  eapply calm_trans; [exact IH|apply calm_errEvent].
Qed.
End calm.

(** ** The states an instance goes through *)

(** The states of an instance: what the constructor returns, and what the
    inputs make of it. *)
Inductive reachable : state → Prop :=
  | reachable_new legacy cfg l c st c' :
      constructor legacy cfg l c = (Ok st, c') → reachable st
  | reachable_step st li : reachable st → reachable (step st li).

(** An instance that holds an error has no database, is not connected and
    waits for no connection. *)
Definition failed_for_good (st : state) : Prop :=
  error st ≠ None →
  db st = None ∧ connected st = false ∧ awaiting st = None.

(** Of these three, exactly one: the connection attempt is under way, the
    [connection] event is queued, or the attempt has ended with one event. *)
Definition one_outcome (st : state) : Prop :=
  (if awaiting st is Some _ then 1 else 0) + length (ticks st)
  + length (outcomes (emitted (log st))) = 1.

(** The closures in the table belong to promises [ready] has returned. *)
Definition wf (st : state) : Prop :=
  ∀ r q, r ∈ listeners st →
    fn r = ready_done q ∨ fn r = ready_fail q → q < length (promises st).

Definition sound (st : state) : Prop :=
  failed_for_good st ∧ one_outcome st ∧ wf st.

Lemma closed_False : closed (λ _, False).
Proof. by intros q r r' _ _ []. Qed.

Lemma sound_calm st st' : calm (λ _, False) st st' → sound st → sound st'.
Proof.
  intros (Hs & Hc & Hl & Hp & Hr & _ & es & Hlog & He & _) (HK & HI & Hwf).
  unfold skeleton in Hs. injection Hs as Hdb Hcl Herr Hsub Haw Htk.
  split; [|split].
  - intros Herr'. rewrite Herr in Herr'. destruct (HK Herr') as (? & ? & ?).
    rewrite Hdb, Haw. auto.
  - unfold one_outcome in *.
    by rewrite Haw, Htk, Hlog, emitted_app, outcomes_app, He, app_nil_r.
  - intros r q [Hin|[[n Hn]|(q' & Hq' & Hfn)]]%Hr Hq.
    + specialize (Hwf r q Hin Hq). lia.
    + destruct Hq; congruence.
    + assert (q = q') as -> by (destruct Hq, Hfn; congruence). lia.
Qed.

(** What [_setDb] leaves when it returns, and when it throws. *)
Lemma _setDb_returns l d c st st' :
  _setDb l d c st = (None, st') →
  listeners st' = listeners st ∧ promises st' = promises st ∧
  error st' = error st ∧ awaiting st' = awaiting st ∧
  uploads st' = uploads st ∧
  ticks st' = ticks st ++ [emit_connection] ∧
  db st' = Some (getDatabase d) ∧
  connecting st' = false ∧
  log st'
  = log st ++ [ClientOn "error"; ClientOn "parseError"; ClientOn "timeout";
               ClientOn "close"].
Proof.
  unfold _setDb. simpl.
  destruct c as [c|]; simpl; [|destruct (client st) eqn:Hcl]; try done.
  - intros [= <-]. unfold _updateConnectionStatus. simpl.
    rewrite <- !app_assoc. by destruct (has_isConnected c).
  - intros [= <-]. unfold _updateConnectionStatus. simpl. rewrite Hcl.
    simpl. rewrite <- !app_assoc. done.
Qed.

Lemma _setDb_throws l d c st err st' :
  _setDb l d c st = (Some err, st') →
  err = TypeError_on_null ∧
  listeners st' = listeners st ∧ promises st' = promises st ∧
  error st' = error st ∧ awaiting st' = awaiting st ∧
  uploads st' = uploads st ∧
  ticks st' = ticks st ∧ log st' = log st.
Proof.
  unfold _setDb. simpl.
  destruct c as [c|]; simpl; [|destruct (client st) eqn:Hcl]; try done.
  by intros [= <- <-].
Qed.

(** What [_fail] leaves. *)
Lemma _fail_leaves l err st :
  let st' := _fail l err st in
  error st' = Some err ∧ db st' = None ∧ client st' = None ∧
  connected st' = false ∧ connecting st' = false ∧
  awaiting st' = awaiting st ∧ ticks st' = ticks st ∧
  uploads st' = uploads st ∧
  length (promises st') = length (promises st) ∧
  (∀ r, r ∈ listeners st' → r ∈ listeners st) ∧
  log st'
  = log st ++ Emit (connectionFailed err) false
      :: deliveries (connectionFailed err)
           (filter (λ r, on_event r = "connectionFailed") (listeners st)).
Proof.
  unfold _fail. simpl.
  set (st1 := _updateConnectionStatus l _).
  pose proof (core_emit (connectionFailed err) st1) as Hcore.
  unfold core in Hcore. injection Hcore as -> -> -> -> _ _ _ _ -> _ _ -> -> ->.
  rewrite length_promises_emit, log_emit.
  repeat split; try done.
  intros r Hin%listeners_emit_subseteq. done.
Qed.

(** What [_resolveConnection] leaves when it is suspended. *)
Lemma _resolveConnection_leaves c st :
  let st' := (_resolveConnection c st).1 in
  listeners st' = listeners st ∧ promises st' = promises st ∧
  error st' = error st ∧ ticks st' = ticks st ∧ uploads st' = uploads st ∧
  is_Some (awaiting st') ∧ connecting st' = true ∧
  (log st' = log st
   ∨ log st'
     = log st ++ [MongoConnect (cfg_url (configuration_ st)) (_options st)]).
Proof.
  unfold _resolveConnection. simpl.
  repeat case_match; simpl; repeat split; eauto.
Qed.

(** The instance before [_connect] is called. *)
Definition pristine (st : state) : Prop :=
  error st = None ∧ listeners st = [] ∧ promises st = [] ∧ ticks st = [] ∧
  uploads st = [] ∧ log st = [] ∧ awaiting st = None.

Lemma constructor_connects legacy cfg l c st c' :
  constructor legacy cfg l c = (Ok st, c') →
  ∃ st0 c0, pristine st0 ∧ _connect l c0 st0 = (Ok st, c').
Proof.
  unfold constructor. destruct cfg as [cfg|]; [|done].
  destruct (negb (has_url cfg) && negb _); [done|].
  match goal with
  | |- (let '(st, c) := ?x in _) = _ → _ => destruct x as [st0 c0] eqn:Hx
  end.
  intros H. exists st0, c0. split; [|done].
  destruct (has_url cfg); simpl in Hx.
  - destruct (Boolean_cache (cfg_cache cfg)); simpl in Hx.
    + destruct (Cache_initialize _ c) as [i c1]. injection Hx as <- <-.
      by repeat split.
    + injection Hx as <- <-. by repeat split.
  - injection Hx as <- <-. by repeat split.
Qed.

(** What the constructor returns: nothing was emitted and no listener is
    attached; the [connection] event is queued, or the connection attempt
    is under way. *)
Lemma constructor_returns legacy cfg l c st c' :
  constructor legacy cfg l c = (Ok st, c') →
  error st = None ∧ listeners st = [] ∧ promises st = [] ∧ uploads st = [] ∧
  emitted (log st) = [] ∧ (∀ n, heard n (log st) = []) ∧
  (awaiting st = None ∧ ticks st = [emit_connection] ∧ connecting st = false
   ∨ is_Some (awaiting st) ∧ ticks st = [] ∧ connecting st = true).
Proof.
  intros (st0 & c0 & (Herr & Hl & Hp & Ht & Hu & Hlog & Haw) & H)
    %constructor_connects.
  unfold _connect in H.
  assert (∀ stc, _resolveConnection c0 st0 = stc →
    (let '(st, c) := stc in (Ok st, c)) = (Ok st, c') →
    error st = None ∧ listeners st = [] ∧ promises st = [] ∧ uploads st = [] ∧
    emitted (log st) = [] ∧ (∀ n, heard n (log st) = []) ∧
    (awaiting st = None ∧ ticks st = [emit_connection] ∧ connecting st = false
     ∨ is_Some (awaiting st) ∧ ticks st = [] ∧ connecting st = true)) as Hasync.
  { intros [st1 c1] Hr [= <- <-].
    pose proof (_resolveConnection_leaves c0 st0) as Hleaves.
    rewrite Hr in Hleaves. simpl in Hleaves.
    destruct Hleaves as (-> & -> & -> & -> & -> & Ha & Hc & Hlog').
    repeat split; try done.
    - destruct Hlog' as [-> | ->]; by rewrite Hlog.
    - intros n. destruct Hlog' as [-> | ->]; by rewrite Hlog.
    - by right. }
  destruct (cfg_db (configuration_ st0)) as [[d|]|]; [|by eapply Hasync..].
  destruct (isPromise _); [by eapply Hasync|].
  destruct (_setDb l d _ st0) as [[err|] st1] eqn:Hset; [done|].
  injection H as <- <-.
  apply _setDb_returns in Hset
    as (-> & -> & -> & -> & -> & -> & _ & Hc & ->).
  rewrite Hlog, Ht. repeat split; try done. by left.
Qed.

Lemma sound_constructor legacy cfg l c st c' :
  constructor legacy cfg l c = (Ok st, c') → sound st.
Proof.
  intros (Herr & Hl & Hp & Hu & He & _ & Hq)%constructor_returns.
  split; [|split].
  - intros ?. congruence.
  - unfold one_outcome. rewrite He.
    destruct Hq as [(-> & -> & _)|([a ->] & -> & _)]; done.
  - intros r q Hin. rewrite Hl in Hin. by apply elem_of_nil in Hin.
Qed.

(** What the reactions to the end of the connection attempt leave. *)
Lemma sound_settle l r st : sound st → sound (settle l r st).
Proof.
  intros (HK & HI & Hwf). unfold settle.
  destruct (awaiting st) as [a|] eqn:Ha; [|done].
  assert (error st = None) as Herr.
  { destruct (error st) eqn:He; [|done]. destruct HK as (_ & _ & ?); congruence. }
  unfold one_outcome in HI. rewrite Ha in HI.
  assert (ticks st = [] ∧ outcomes (emitted (log st)) = []) as [Ht Ho].
  { destruct (ticks st), (outcomes (emitted (log st))); simpl in HI;
      done || lia. }
  set (st0 := set_awaiting None st).
  assert (∀ err st1,
    listeners st1 = listeners st → promises st1 = promises st →
    awaiting st1 = None → ticks st1 = [] → log st1 = log st →
    sound (_fail l err st1)) as Hfail.
  { intros err st1 Hl1 Hp1 Ha1 Ht1 Hlog1.
    destruct (_fail_leaves l err st1)
      as (He' & Hdb' & _ & Hc' & _ & Ha' & Ht' & _ & Hlen' & Hl' & Hlog').
    split; [|split].
    - intros _. rewrite Ha', Ha1. auto.
    - unfold one_outcome.
      rewrite Ha', Ha1, Ht', Ht1, Hlog', Hlog1, emitted_app, outcomes_app, Ho.
      simpl. by rewrite emitted_deliveries.
    - intros r' q Hin%Hl' Hq. rewrite Hlen', Hp1. rewrite Hl1 in Hin. eauto. }
  destruct r as [h|err]; [|by apply Hfail].
  destruct (_setDb l (h_db h) (h_client h) st0) as [[err|] st1] eqn:Hset.
  - apply _setDb_throws in Hset as (_ & Hl1 & Hp1 & _ & Ha1 & _ & Ht1 & Hlog1).
    apply Hfail; try done. by rewrite Ht1.
  - apply _setDb_returns in Hset
      as (Hl1 & Hp1 & He1 & Ha1 & _ & Ht1 & _ & _ & Hlog1).
    split; [|split].
    + intros ?. simpl in He1. congruence.
    + unfold one_outcome. rewrite Ha1, Ht1, Hlog1, emitted_app, outcomes_app.
      simpl. rewrite Ht, Ho. done.
    + intros r' q Hin Hq. rewrite Hp1. rewrite Hl1 in Hin. eauto.
Qed.

Lemma sound_run_tick st : sound st → sound (run_tick st).
Proof.
  intros (HK & HI & Hwf). unfold run_tick.
  destruct (ticks st) as [|[] rest] eqn:Ht; [done|].
  set (s := connection _). set (st0 := set_ticks rest st).
  pose proof (core_emit s st0) as Hcore. unfold core in Hcore.
  injection Hcore as Hdb _ Hc _ _ _ _ _ Herr _ _ Ha Htk _.
  split; [|split].
  - intros He. rewrite Herr in He. destruct (HK He) as (? & ? & ?).
    rewrite Hdb, Hc, Ha. auto.
  - unfold one_outcome in *. rewrite Ha, Htk, emitted_emit, outcomes_app.
    rewrite Ht in HI. simpl in *. rewrite length_app. simpl. lia.
  - intros r q Hin%listeners_emit_subseteq Hq.
    rewrite length_promises_emit. eauto.
Qed.

Lemma calm_step P `{Pdec : !∀ r, Decision (P r)} st l inp :
  closed P →
  match inp with
  | Settle _ | Tick => False
  | Attach ev n only_once =>
      ¬ P {| on_event := ev; fn := application n; is_once := only_once |}
  | _ => True
  end →
  calm P st (step st (l, inp)).
Proof.
  intros Hclosed Hinp. destruct inp; simpl; try done.
  - by apply calm_iter_errEvent.
  - by apply calm_ready.
  - by apply calm_attach.
  - by apply calm__handleFile.
  - by apply calm_fromStream.
  - by apply calm_resume.
  - by apply calm_generated.
  - by apply calm_notify.
Qed.

Lemma sound_step st li : sound st → sound (step st li).
Proof.
  intros Hs. destruct li as [l inp].
  destruct inp eqn:Hinp;
    try (apply sound_calm with st; [|done];
         apply calm_step; [apply closed_False|]; by auto).
  - by apply sound_settle.
  - by apply sound_run_tick.
Qed.

Lemma reachable_sound st : reachable st → sound st.
Proof.
  induction 1 as [legacy cfg l c st c' H|st li _ IH].
  - by eapply sound_constructor.
  - by apply sound_step.
Qed.

(** ** Events of the backend, and uploads without a connection *)

(** The state of the link as [_updateConnectionStatus] derives it. *)
Definition link_status (l : link) (st : state) : bool :=
  match db st, client st with
  | None, _ => false
  | Some _, Some c => if has_isConnected c then client_isConnected l else true
  | Some _, None => topology_isConnected l
  end.

Lemma connected__updateConnectionStatus l st :
  connected (_updateConnectionStatus l st) = link_status l st.
Proof.
  unfold _updateConnectionStatus, link_status.
  by destruct (db st), (client st).
Qed.

(** C10: when the client reports [error], [parseError], [timeout] or
    [close], [errEvent] emits one [dbError], carrying the error the client
    gave or, when it gave none, a new [Error] without message.  By then
    [connected] has been set again from the state of the link: it is the
    value listeners find when they are called, and the value that stays. *)
Theorem dbError_carries_error l err st :
  let st' := errEvent l err st in
  let carried := match err with Some e => e | None => new_Error "" end in
  log st'
  = log st ++ Emit (dbError carried) (link_status l st)
      :: deliveries (dbError carried)
           (filter (λ r, on_event r = "dbError") (listeners st)) ∧
  emitted (log st') = emitted (log st) ++ [dbError carried] ∧
  connected st' = link_status l st.
Proof.
  intros st' carried. unfold st', errEvent. fold carried.
  pose proof (core_emit (dbError carried) (_updateConnectionStatus l st))
    as Hcore.
  unfold core in Hcore. injection Hcore as _ _ Hc _ _ _ _ _ _ _ _ _ _ _.
  rewrite emitted_emit, log_emit, Hc, connected__updateConnectionStatus.
  unfold _updateConnectionStatus.
  by destruct (db st), (client st).
Qed.

(** C9: [_handleFile] on an instance that is not connecting and whose link
    is found not connected calls [cb] with the error "The database
    connection must be open to store files", and does nothing else: no
    upload is begun, no promise is made and no writer is created.  An
    instance is in that state after [_fail], and when the client says it
    is not connected. *)
Theorem handleFile_requires_connection l f st :
  connecting st = false →
  link_status l st = false →
  let st' := _handleFile l f st in
  log st' = log st ++ [Callback (Throw connection_must_be_open)] ∧
  message connection_must_be_open
  = "The database connection must be open to store files" ∧
  uploads st' = uploads st ∧ promises st' = promises st ∧
  listeners st' = listeners st.
Proof.
  intros Hc Hl. unfold _handleFile. rewrite Hc.
  rewrite connected__updateConnectionStatus, Hl. simpl.
  unfold _updateConnectionStatus. by destruct (db st), (client st).
Qed.

(** After [_fail] the link is found not connected, whatever the backend
    says. *)
Lemma link_status__fail l l' err st : link_status l' (_fail l err st) = false.
Proof.
  unfold link_status.
  by destruct (_fail_leaves l err st) as (_ & -> & _).
Qed.

(** ** The promise of [ready] *)

(** The entries of the table that belong to the promise [p]. *)
Definition about (p : nat) (r : registration) : Prop :=
  fn r = ready_done p ∨ fn r = ready_fail p.

#[local] Instance about_dec p r : Decision (about p r).
Proof. unfold about. apply _. Defined.

(** What the promise of [ready] is settled with by the event that ends the
    connection attempt. *)
Definition verdict (s : signal) : pstate conn :=
  match s with
  | connection result => Fulfilled result
  | connectionFailed err => Rejected err
  | _ => Pending
  end.

(** The promise [p] is pending and its two listeners are attached; the
    promise [p] is settled as the event [s] says and its listeners are
    gone. *)
Definition waiting (p : nat) (st : state) : Prop :=
  promises st !! p = Some Pending ∧
  filter (about p) (listeners st) = [done_of p; fail_of p].

Definition finished (p : nat) (s : signal) (st : state) : Prop :=
  promises st !! p = Some (verdict s) ∧ filter (about p) (listeners st) = [].

Lemma closed_about p : closed (about p).
Proof.
  intros q r r' Hr Hr' HP. unfold about in *.
  assert (q = p) as -> by (destruct Hr', HP; congruence). done.
Qed.

Lemma ignores_about p k : p < k → ignores (about p) k.
Proof.
  intros Hp q r Hq Hr HP. unfold about in *.
  assert (q = p) by (destruct Hr, HP; congruence). lia.
Qed.

Lemma filter_comm {A} (Q1 Q2 : A → Prop)
    `{Qdec1 : !∀ x, Decision (Q1 x), Qdec2 : !∀ x, Decision (Q2 x)}
    (l : list A) :
  filter Q1 (filter Q2 l) = filter Q2 (filter Q1 l).
Proof.
  rewrite !list_filter_filter. apply list_filter_iff. intros x. tauto.
Qed.

(** The calls of listeners that do not belong to [p] leave the promise and
    its listeners as they are. *)
Lemma foldl_call_others p s snapshot st :
  Forall (λ r, ¬ about p r) snapshot →
  promises (foldl (call s) st snapshot) !! p = promises st !! p ∧
  filter (about p) (listeners (foldl (call s) st snapshot))
  = filter (about p) (listeners st).
Proof.
  revert st. induction snapshot as [|r snapshot IH]; intros st Hall; [done|].
  apply Forall_cons in Hall as [Hr Hall]. simpl.
  destruct (IH (call s st r) Hall) as [-> ->]. split.
  - apply promises_call; intros Hfn; apply Hr; unfold about; auto.
  - apply listeners_call.
    + done.
    + intros q r' Hq Hq' HP. apply Hr.
      apply (closed_about p q r r'); auto.
    + intros q r' Hq Hq' HP. apply Hr.
      apply (closed_about p q r r'); auto.
Qed.

Lemma remove_last_done_of p :
  remove_last (λ r, bool_decide (r = done_of p)) [done_of p; fail_of p]
  = [fail_of p].
Proof.
  unfold remove_last. simpl. by rewrite bool_decide_eq_true_2.
Qed.

Lemma remove_last_fail_of p :
  remove_last (λ r, bool_decide (r = fail_of p)) [done_of p; fail_of p]
  = [done_of p].
Proof.
  unfold remove_last. simpl. by rewrite bool_decide_eq_true_2.
Qed.

Lemma remove_last_ready_fail p :
  remove_last
    (λ r, bool_decide (on_event r = "connectionFailed" ∧ fn r = ready_fail p))
    [fail_of p] = [].
Proof. unfold remove_last. simpl. by rewrite bool_decide_eq_true_2. Qed.

Lemma remove_last_ready_done p :
  remove_last
    (λ r, bool_decide (on_event r = "connection" ∧ fn r = ready_done p))
    [done_of p] = [].
Proof. unfold remove_last. simpl. by rewrite bool_decide_eq_true_2. Qed.

(** [done] is called with [connection], [fail] with [connectionFailed]. *)
Lemma call_done_of p result st :
  waiting p st → finished p (connection result) (call (connection result) st (done_of p)).
Proof.
  intros [Hp Hl]. unfold call, invoke, finished. simpl.
  unfold settle_promise. simpl. rewrite Hp. simpl. split.
  - apply list_lookup_insert_eq. by eapply lookup_lt_Some.
  - rewrite filter_remove_last_in.
    2:{ intros r [_ ?]%bool_decide_eq_true. unfold about. auto. }
    rewrite filter_remove_last_in.
    2:{ intros r ->%bool_decide_eq_true. unfold about. simpl. auto. }
    by rewrite Hl, remove_last_done_of, remove_last_ready_fail.
Qed.

Lemma call_fail_of p err st :
  waiting p st →
  finished p (connectionFailed err)
    (call (connectionFailed err) st (fail_of p)).
Proof.
  intros [Hp Hl]. unfold call, invoke, finished. simpl.
  unfold settle_promise. simpl. rewrite Hp. simpl. split.
  - apply list_lookup_insert_eq. by eapply lookup_lt_Some.
  - rewrite filter_remove_last_in.
    2:{ intros r [_ ?]%bool_decide_eq_true. unfold about. auto. }
    rewrite filter_remove_last_in.
    2:{ intros r ->%bool_decide_eq_true. unfold about. simpl. auto. }
    by rewrite Hl, remove_last_fail_of, remove_last_ready_done.
Qed.

(** The event that ends the connection attempt settles a promise that
    waits for it, and takes both its listeners out of the table. *)
Lemma emit_waiting p s st :
  is_outcome s = true → waiting p st → finished p s (emit s st).
Proof.
  intros Hs [Hp Hl]. unfold emit.
  set (st0 := add_log (Emit s (connected st)) st).
  assert (waiting p st0) as Hw by done. clearbody st0.
  set (mine := if decide (event_of s = "connection") then done_of p
               else fail_of p).
  assert (filter (about p)
            (filter (λ r, on_event r = event_of s) (listeners st)) = [mine])
    as Hsnap.
  { rewrite filter_comm, Hl. unfold mine. by destruct s. }
  apply filter_singleton_split in Hsnap as (l1 & l2 & -> & H1 & H2).
  rewrite foldl_app. simpl.
  destruct (foldl_call_others p s l1 st0 H1) as [Hp1 Hl1].
  assert (waiting p (foldl (call s) st0 l1)) as Hw1.
  { destruct Hw as [Hp0 Hl0]. split; congruence. }
  assert (finished p s (call s (foldl (call s) st0 l1) mine)) as [Hp2 Hl2].
  { unfold mine. destruct s; try done; simpl.
    - by apply call_done_of.
    - by apply call_fail_of. }
  destruct (foldl_call_others p s l2
              (call s (foldl (call s) st0 l1) mine) H2) as [Hp3 Hl3].
  split; congruence.
Qed.

(** Once the promise is settled, later events leave it alone. *)
Lemma emit_finished p s0 s st : finished p s0 st → finished p s0 (emit s st).
Proof.
  intros [Hp Hl]. unfold emit.
  set (st0 := add_log (Emit s (connected st)) st).
  assert (Forall (λ r, ¬ about p r)
            (filter (λ r, on_event r = event_of s) (listeners st))) as Hall.
  { apply (filter_nil_Forall (about p)). by rewrite filter_comm, Hl. }
  destruct (foldl_call_others p s _ st0 Hall) as [Hp1 Hl1].
  split; [by rewrite Hp1|by rewrite Hl1].
Qed.

(** What the two steps that can end the connection attempt do: nothing
    that listeners or promises notice, or one emission of the event that
    ends the attempt. *)
Definition quiet_step (st st' : state) : Prop :=
  promises st' = promises st ∧ listeners st' = listeners st ∧
  ∃ es, log st' = log st ++ es ∧ emitted es = [] ∧ ∀ n, heard n es = [].

Definition ending_step (st st' : state) : Prop :=
  ∃ st0 s,
    is_outcome s = true ∧ st' = emit s st0 ∧
    promises st0 = promises st ∧ listeners st0 = listeners st ∧
    log st0 = log st.

Lemma quiet_step_refl st : quiet_step st st.
Proof. repeat split. exists []. by rewrite app_nil_r. Qed.

Lemma _fail_ending l err st st1 :
  promises st1 = promises st → listeners st1 = listeners st →
  log st1 = log st → ending_step st (_fail l err st1).
Proof.
  intros Hp Hl Hlog. unfold _fail.
  eexists _, (connectionFailed err). split; [done|]. split; [done|].
  unfold _updateConnectionStatus. simpl. done.
Qed.

Lemma settle_shape l r st :
  quiet_step st (settle l r st) ∨ ending_step st (settle l r st).
Proof.
  unfold settle. destruct (awaiting st); [|left; apply quiet_step_refl].
  destruct r as [h|err]; [|right; by apply _fail_ending].
  destruct (_setDb l (h_db h) (h_client h) (set_awaiting None st))
    as [[err|] st1] eqn:Hset.
  - apply _setDb_throws in Hset as (_ & Hl & Hp & _ & _ & _ & _ & Hlog).
    right. by apply _fail_ending.
  - apply _setDb_returns in Hset as (Hl & Hp & _ & _ & _ & _ & _ & _ & Hlog).
    left. split; [done|]. split; [done|]. eexists. split; [exact Hlog|done].
Qed.

Lemma run_tick_shape st :
  quiet_step st (run_tick st) ∨ ending_step st (run_tick st).
Proof.
  unfold run_tick. destruct (ticks st) as [|[] rest];
    [left; apply quiet_step_refl|].
  right. by eexists _, (connection _).
Qed.

(** How far the promise [p] has come: [None] while it waits, the event
    that settled it afterwards. *)
Definition tracks (p : nat) (o : option signal) (st : state) : Prop :=
  p < length (promises st) ∧
  match o with
  | None => waiting p st
  | Some s => finished p s st
  end.

Definition first_of (o : option signal) (news : list signal) : option signal :=
  match o with
  | Some s => Some s
  | None => head news
  end.

Lemma tracks_same p o st st' :
  promises st' = promises st → listeners st' = listeners st →
  tracks p o st → tracks p o st'.
Proof.
  intros Hp Hl [Hlt H]. unfold tracks, waiting, finished in *.
  rewrite Hp, Hl. done.
Qed.

Lemma tracks_calm p o st st' :
  calm (about p) st st' → tracks p o st → tracks p o st'.
Proof.
  intros (_ & _ & Hlen & Hp & _ & Hf & _) [Hlt H].
  split; [lia|].
  assert (filter (about p) (listeners st') = filter (about p) (listeners st))
    as Hl.
  { apply Hf; [by apply ignores_about|].
    intros r Hin HP.
    assert (r ∈ filter (about p) (listeners st)) as Hr
      by by apply list_elem_of_filter.
    destruct o as [s|]; destruct H as [_ Hfl]; rewrite Hfl in Hr.
    - by apply elem_of_nil in Hr.
    - apply elem_of_cons in Hr as [->|Hr]; [by left|].
      apply list_elem_of_singleton in Hr as ->. by right; left. }
  unfold waiting, finished in *. rewrite Hl, Hp by done. done.
Qed.

Lemma tracks_emit p o s st :
  is_outcome s = true →
  tracks p o st → tracks p (first_of o [s]) (emit s st).
Proof.
  intros Hs [Hlt H]. split; [by rewrite length_promises_emit|].
  destruct o as [s0|]; simpl.
  - by apply emit_finished.
  - by apply emit_waiting.
Qed.

Lemma tracks_step p o st li :
  tracks p o st →
  ∃ news,
    outcomes (emitted (log (step st li)))
    = outcomes (emitted (log st)) ++ news ∧
    tracks p (first_of o news) (step st li).
Proof.
  intros Ht. destruct li as [l inp].
  assert (∀ st',
    quiet_step st st' ∨ ending_step st st' →
    ∃ news,
      outcomes (emitted (log st')) = outcomes (emitted (log st)) ++ news ∧
      tracks p (first_of o news) st') as Hshape.
  { intros st' [(Hp & Hl & es & Hlog & He & _)|(st0 & s & Hs & -> & Hp & Hl & Hlog)].
    - exists []. split.
      + by rewrite Hlog, emitted_app, He, !app_nil_r.
      + replace (first_of o []) with o by by destruct o.
        by apply tracks_same with st.
    - exists [s]. split.
      + rewrite emitted_emit, Hlog, outcomes_app. f_equal.
        by apply outcomes_outcome.
      + apply tracks_emit; [done|]. by apply tracks_same with st. }
  assert (calm (about p) st (step st (l, inp)) →
    ∃ news,
      outcomes (emitted (log (step st (l, inp))))
      = outcomes (emitted (log st)) ++ news ∧
      tracks p (first_of o news) (step st (l, inp))) as Hcalm.
  { intros Hc. exists []. split.
    - destruct Hc as (_ & _ & _ & _ & _ & _ & es & -> & He & _).
      by rewrite emitted_app, outcomes_app, He, !app_nil_r.
    - replace (first_of o []) with o by (by destruct o).
      by apply tracks_calm with st. }
  destruct inp;
    try (apply Hcalm, calm_step; [apply closed_about|done]).
  - apply Hshape, settle_shape.
  - apply Hshape, run_tick_shape.
  - apply Hcalm, calm_step; [apply closed_about|].
    unfold about. simpl. intros []; congruence.
Qed.

(** From [ready] on, whatever reaches the instance: the promise is pending
    as long as no event has ended the connection attempt, and is settled by
    the first such event. *)
Lemma tracks_run p o st ins :
  tracks p o st →
  ∃ news,
    outcomes (emitted (log (run st ins))) = outcomes (emitted (log st)) ++ news ∧
    tracks p (first_of o news) (run st ins).
Proof.
  revert st o. induction ins as [|li ins IH]; intros st o Ht.
  - exists []. rewrite app_nil_r. split; [done|]. by destruct o.
  - change (run st (li :: ins)) with (run (step st li) ins).
    destruct (tracks_step p o st li Ht) as (news1 & Hlog1 & Ht1).
    destruct (IH _ _ Ht1) as (news2 & Hlog2 & Ht2).
    exists (news1 ++ news2). split.
    + by rewrite Hlog2, Hlog1, app_assoc.
    + replace (first_of o (news1 ++ news2))
        with (first_of (first_of o news1) news2); [done|].
      destruct o; [done|]. by destruct news1.
Qed.

(** [ready] on an instance that is neither failed nor connected returns a
    new promise that waits. *)
Lemma ready_waits st :
  wf st → error st = None → connected st = false →
  (ready st).1 = length (promises st) ∧
  tracks (ready st).1 None (ready st).2 ∧
  log (ready st).2 = log st.
Proof.
  intros Hwf Herr Hc. unfold ready. rewrite Herr, Hc. simpl.
  split; [done|]. split; [|done]. split.
  { simpl. rewrite length_app. simpl. lia. }
  split; simpl.
  - by rewrite lookup_app_r, Nat.sub_diag.
  - rewrite !filter_app, !filter_cons, filter_nil.
    rewrite !decide_True by (unfold about; simpl; auto).
    replace (filter (about (length (promises st))) (listeners st))
      with (@nil registration); [done|].
    symmetry. apply (filter_nil_intro (about _)).
    intros r Hin [Hr|Hr].
    + specialize (Hwf r _ Hin (or_introl Hr)). lia.
    + specialize (Hwf r _ Hin (or_intror Hr)). lia.
Qed.

Lemma reachable_run st ins : reachable st → reachable (run st ins).
Proof.
  revert st. induction ins as [|li ins IH]; intros st Hr; [done|].
  apply (IH (step st li)). by constructor.
Qed.

(** The error of a failed instance stays. *)
Lemma error_step st li err :
  sound st → error st = Some err → error (step st li) = Some err.
Proof.
  intros (HK & _) Herr. destruct li as [l inp].
  assert (awaiting st = None) as Ha.
  { destruct HK as (_ & _ & ?); [congruence|done]. }
  assert (calm (λ _, False) st (step st (l, inp)) →
          error (step st (l, inp)) = Some err) as Hcalm.
  { intros (Hs & _). unfold skeleton in Hs. congruence. }
  destruct inp; try (apply Hcalm, calm_step; [apply closed_False|by auto]).
  - unfold step. simpl. unfold settle. by rewrite Ha.
  - unfold step. simpl. unfold run_tick.
    destruct (ticks st) as [|[] rest]; [done|].
    pose proof (core_emit (connection (Conn (db st) (client st)))
                  (set_ticks rest st)) as Hcore.
    unfold core in Hcore. by injection Hcore as _ _ _ _ _ _ _ _ -> _ _ _ _ _.
Qed.

Lemma error_run st ins err :
  reachable st → error st = Some err → error (run st ins) = Some err.
Proof.
  revert st. induction ins as [|li ins IH]; intros st Hr Herr; [done|].
  apply (IH (step st li)); [by constructor|].
  apply error_step; [by apply reachable_sound|done].
Qed.

(** C2: [ready] on an instance that holds the error of a failed
    connection attempt returns a promise rejected with that error, and the
    error stays, so this is so on every call, whatever happened in between;
    [_fail] stores the error.  On a connected instance [ready] returns a
    promise fulfilled with [{db, client}].  Otherwise the promise is
    pending, with [done] and [fail] attached, as long as neither
    [connection] nor [connectionFailed] is emitted; the first of the two
    that is emitted settles it, fulfilled with what [connection] carries or
    rejected with the error of [connectionFailed], and after it neither
    [done] nor [fail] is attached. *)
Theorem ready_settlement :
  (∀ l err st, error (_fail l err st) = Some err) ∧
  (∀ st err ins,
     reachable st → error st = Some err →
     let st' := run st ins in
     error st' = Some err ∧
     promises (ready st').2 !! (ready st').1 = Some (Rejected err)) ∧
  (∀ st,
     reachable st → connected st = true →
     promises (ready st).2 !! (ready st).1
     = Some (Fulfilled (Conn (db st) (client st)))) ∧
  (∀ st ins,
     reachable st → error st = None → connected st = false →
     let p := (ready st).1 in
     let st' := run (ready st).2 ins in
     ∃ news,
       outcomes (emitted (log st')) = outcomes (emitted (log st)) ++ news ∧
       match news with
       | [] =>
           promises st' !! p = Some Pending ∧
           done_of p ∈ listeners st' ∧ fail_of p ∈ listeners st'
       | s :: _ =>
           is_outcome s = true ∧
           promises st' !! p = Some (verdict s) ∧
           ∀ r, r ∈ listeners st' → ¬ about p r
       end).
Proof.
  split; [|split; [|split]].
  - intros l err st. by destruct (_fail_leaves l err st) as (-> & _).
  - intros st err ins Hr Herr st'.
    assert (error st' = Some err) as Herr' by by apply error_run.
    split; [done|]. unfold ready. rewrite Herr'. simpl.
    by rewrite lookup_app_r, Nat.sub_diag.
  - intros st Hr Hc.
    destruct (reachable_sound st Hr) as (HK & _).
    assert (error st = None) as Herr.
    { destruct (error st) eqn:He; [|done].
      destruct HK as (_ & ? & _); congruence. }
    unfold ready. rewrite Herr, Hc. simpl.
    by rewrite lookup_app_r, Nat.sub_diag.
  - intros st ins Hr Herr Hc p st'.
    destruct (reachable_sound st Hr) as (_ & _ & Hwf).
    destruct (ready_waits st Hwf Herr Hc) as (_ & Ht & Hlog).
    destruct (tracks_run _ _ _ ins Ht) as (news & Hnews & Ht').
    exists news. fold st' in Hnews, Ht'. fold p in Ht'.
    rewrite Hlog in Hnews. split; [done|].
    destruct news as [|s news]; simpl in Ht'.
    + destruct Ht' as (_ & Hp & Hl). split; [done|].
      assert (∀ r, r ∈ [done_of p; fail_of p] → r ∈ listeners st') as Hin.
      { intros r. rewrite <- Hl. by intros [_ ?]%list_elem_of_filter. }
      split; apply Hin; [by left|by right; left].
    + destruct Ht' as (_ & Hp & Hl). split; [|split; [done|]].
      * assert (s ∈ outcomes (emitted (log st'))) as Hs.
        { rewrite Hnews. apply elem_of_app. right. by left. }
        apply list_elem_of_filter in Hs as [Hs _]. by apply Is_true_true.
      * intros r Hin HP. by apply (filter_nil_not_elem_of _ _ r Hl).
Qed.

(** ** A listener of the application for the end of the connection attempt *)


Local Abbreviation mine n := (λ r : registration, fn r = application n).















(** ** The upload pipeline *)

(** The writer of the upload [i] reports [ns], one after the other. *)
Definition notify_all (i : nat) (st : state) (ns : list notification) : state :=
  foldl (λ st n, notify i n st) st ns.




Lemma uploads_emit s st : uploads (emit s st) = uploads st.
Proof.
  pose proof (core_emit s st) as H. unfold core in H. by simplify_eq.
Qed.

Lemma _legacy_emit s st : _legacy (emit s st) = _legacy st.
Proof.
  pose proof (core_emit s st) as H. unfold core in H. by simplify_eq.
Qed.

Lemma emitted_finish_upload i r st :
  emitted (log (finish_upload i r st)) = emitted (log st).
Proof.
  destruct (log_finish_upload i r st) as [-> | ->]; [done|].
  by rewrite emitted_app, app_nil_r.
Qed.

Lemma uploads_finish_upload i r st u :
  uploads st !! i = Some u →
  uploads (finish_upload i r st) !! i
  = Some (if settled (u_promise u) then u else set_u_promise (of_res r) u).
Proof.
  intros Hu. unfold finish_upload. rewrite Hu.
  destruct (settled (u_promise u)); [done|].
  destruct (u_cb u); simpl; by rewrite list_lookup_alter_eq, Hu.
Qed.

Lemma _legacy_finish_upload i r st : _legacy (finish_upload i r st) = _legacy st.
Proof.
  unfold finish_upload. destruct (uploads st !! i) as [u|]; [|done].
  destruct (settled (u_promise u)); [done|]. by destruct (u_cb u).
Qed.

(** [emitError] emits one [streamError] with the settings of the upload
    and rejects its promise. *)
Lemma emitError_effect i err st u :
  uploads st !! i = Some u →
  let st' := emitError i err st in
  emitted (log st') = emitted (log st) ++ [streamError err (u_options u)] ∧
  uploads st' !! i
  = Some (if settled (u_promise u) then u
          else set_u_promise (Rejected err) u) ∧
  _legacy st' = _legacy st.
Proof.
  intros Hu. unfold emitError. rewrite Hu. simpl.
  rewrite emitted_finish_upload, emitted_emit, _legacy_finish_upload,
    _legacy_emit.
  split; [done|]. split; [|done].
  apply (uploads_finish_upload i (Throw err)). by rewrite uploads_emit.
Qed.

(** [emitFile] emits one [file] with the stored file and resolves the
    promise of the upload with it. *)
Lemma emitFile_effect i f st u :
  uploads st !! i = Some u →
  let st' := emitFile i f st in
  let stored := storedFile (u_options u) f in
  emitted (log st') = emitted (log st) ++ [file stored] ∧
  uploads st' !! i
  = Some (if settled (u_promise u) then u
          else set_u_promise (Fulfilled stored) u) ∧
  _legacy st' = _legacy st.
Proof.
  intros Hu. unfold emitFile. rewrite Hu. simpl.
  rewrite emitted_finish_upload, emitted_emit, _legacy_finish_upload,
    _legacy_emit.
  split; [done|]. split; [|done].
  apply (uploads_finish_upload i (Ok _)). by rewrite uploads_emit.
Qed.



Lemma start_writer_effect i streamOptions st u :
  uploads st !! i = Some u →
  let st' := start_writer i streamOptions st in
  emitted (log st') = emitted (log st) ∧ _legacy st' = _legacy st ∧
  ∃ u', uploads st' !! i = Some u' ∧
        u_promise u' = u_promise u ∧ u_options u' = streamOptions ∧
        u_closing u' = u_closing u ∧
        u_stage u' = if _legacy st then Opening else Piping.
Proof.
  intros Hu. unfold start_writer. simpl.
  destruct (_legacy st) eqn:Hleg; simpl;
    rewrite ?Hleg, !emitted_app, !app_nil_r;
    (split; [done|]; split; [done|]);
    rewrite !list_lookup_alter_eq, Hu; by eexists.
Qed.











Lemma notices_emitError i err st :
  ∃ es, log (emitError i err st) = log st ++ es ∧ Forall notice es.
Proof.
  unfold emitError. destruct (uploads st !! i) as [u|].
  2:{ exists []. by rewrite app_nil_r. }
  set (st1 := emit _ st).
  destruct (log_finish_upload i (Throw err) st1) as [-> | ->];
    unfold st1; rewrite log_emit.
  - eexists. split; [done|]. constructor; [done|].
    apply Forall_notice_deliveries.
  - rewrite <- app_assoc. eexists. split; [done|]. simpl.
    constructor; [done|]. apply Forall_app. split.
    + apply Forall_notice_deliveries.
    + by constructor.
Qed.

Lemma notices_emitFile i f st :
  ∃ es, log (emitFile i f st) = log st ++ es ∧ Forall notice es.
Proof.
  unfold emitFile. destruct (uploads st !! i) as [u|].
  2:{ exists []. by rewrite app_nil_r. }
  set (st1 := emit _ st).
  destruct (log_finish_upload i (Ok (storedFile (u_options u) f)) st1)
    as [-> | ->]; unfold st1; rewrite log_emit.
  - eexists. split; [done|]. constructor; [done|].
    apply Forall_notice_deliveries.
  - rewrite <- app_assoc. eexists. split; [done|]. simpl.
    constructor; [done|]. apply Forall_app. split.
    + apply Forall_notice_deliveries.
    + by constructor.
Qed.

Lemma _legacy_emitError i err st : _legacy (emitError i err st) = _legacy st.
Proof.
  unfold emitError. destruct (uploads st !! i); [|done].
  by rewrite _legacy_finish_upload, _legacy_emit.
Qed.

Lemma _legacy_emitFile i f st : _legacy (emitFile i f st) = _legacy st.
Proof.
  unfold emitFile. destruct (uploads st !! i); [|done].
  by rewrite _legacy_finish_upload, _legacy_emit.
Qed.

Lemma _legacy_notify i n st : _legacy (notify i n st) = _legacy st.
Proof.
  unfold notify. destruct (uploads st !! i) as [u|]; [|done].
  destruct n as [err|f|[err|]| |[err|] f], (u_stage u);
    rewrite ?_legacy_emitError, ?_legacy_emitFile; try done.
  all: try (destruct (_legacy st) eqn:Hleg;
            rewrite ?_legacy_emitError, ?_legacy_emitFile; by simpl).
  all: destruct (u_closing u);
    rewrite ?_legacy_emitError, ?_legacy_emitFile; done.
Qed.

(** On the legacy path only the callback of a successful [open] starts the
    pump. *)
Lemma pump_notify i n st :
  _legacy st = true →
  Pump i ∈ log (notify i n st) → Pump i ∈ log st ∨ n = store_opened None.
Proof.
  intros Hleg Hin.
  assert (∀ st' es,
    log st' = log st ++ es → Forall notice es →
    Pump i ∈ log st' → Pump i ∈ log st) as Hnotice.
  { intros st' es -> Hes [Hl|Hr]%elem_of_app; [done|].
    rewrite Forall_forall in Hes. by apply Hes in Hr. }
  unfold notify in Hin. destruct (uploads st !! i) as [u|]; [|by left].
  destruct n as [err|f|[err|]| |[err|] f]; [| | |by right| | |].
  - left. destruct (u_stage u); try done;
      destruct (notices_emitError i err st) as (es & Hlog & Hes); eauto.
  - left. destruct (u_stage u); try done. by rewrite Hleg in Hin.
  - left. destruct (u_stage u); try done.
    destruct (notices_emitError i err (alter_upload (set_stage OpenFailed) i st))
      as (es & Hlog & Hes). eauto.
  - left. destruct (u_stage u); try done. rewrite Hleg in Hin. simpl in Hin.
    apply elem_of_app in Hin as [Hin|Hin]; [done|]. revert Hin. not_listed.
  - left. destruct (u_closing u) as [|k]; try done.
    destruct (notices_emitError i err (alter_upload (set_closing k) i st))
      as (es & Hlog & Hes). eauto.
  - left. destruct (u_closing u) as [|k]; try done.
    destruct (notices_emitFile i f (alter_upload (set_closing k) i st))
      as (es & Hlog & Hes). eauto.
Qed.

Lemma pump_notify_all i ns st :
  _legacy st = true →
  Pump i ∈ log (notify_all i st ns) →
  Pump i ∈ log st ∨ store_opened None ∈ ns.
Proof.
  revert st. induction ns as [|n ns IH]; intros st Hleg Hin; [by left|].
  unfold notify_all in *. simpl in Hin.
  apply IH in Hin as [Hin|Hin]; [|right; by right|by rewrite _legacy_notify].
  apply pump_notify in Hin as [Hin| ->]; [by left|right; by left|done].
Qed.

(** C7: on the legacy path [fromStream] opens the store when it has made
    the writer, and pipes nothing; the pump is started by the callback of
    [open] when it reports no error, and by nothing else, so bytes are
    piped only after [open] completed; when the write stream ends,
    [close] is called, and the file it reports is what the upload resolves
    with.  On the other path the pump is started at once, no store is
    opened, and the [finish] event of the writer completes the upload. *)
Theorem legacy_open_before_pump :
  (∀ st i u streamOptions ns,
     _legacy st = true → uploads st !! i = Some u → Pump i ∉ log st →
     let st1 := start_writer i streamOptions st in
     log st1
     = log st ++ [CreateStream i streamOptions; WriterOn i "error"; StoreOpen i] ∧
     (Pump i ∈ log (notify_all i st1 ns) → store_opened None ∈ ns)) ∧
  (∀ st i u,
     _legacy st = true → uploads st !! i = Some u → u_stage u = Opening →
     log (notify i (store_opened None) st)
     = log st ++ [WriterOn i "end"; Pump i]) ∧
  (∀ st i u f,
     _legacy st = true → uploads st !! i = Some u → u_stage u = Piping →
     u_promise u = Pending →
     let st1 := notify i writer_end st in
     let st2 := notify i (store_closed None f) st1 in
     let stored := storedFile (u_options u) f in
     log st1 = log st ++ [StoreClose i] ∧
     emitted (log st2) = emitted (log st) ++ [file stored] ∧
     u_promise <$> uploads st2 !! i = Some (Fulfilled stored)) ∧
  (∀ st i u streamOptions f,
     _legacy st = false → uploads st !! i = Some u → u_promise u = Pending →
     let st1 := start_writer i streamOptions st in
     let st2 := notify i (writer_finish f) st1 in
     let stored := storedFile streamOptions f in
     log st1
     = log st ++ [CreateStream i streamOptions; WriterOn i "error";
                  WriterOn i "finish"; Pump i] ∧
     emitted (log st2) = emitted (log st) ++ [file stored] ∧
     u_promise <$> uploads st2 !! i = Some (Fulfilled stored)).
Proof.
  split; [|split; [|split]].
  - intros st i u streamOptions ns Hleg Hu Hpump st1.
    assert (log st1
      = log st ++ [CreateStream i streamOptions; WriterOn i "error";
                   StoreOpen i]) as Hlog.
    { unfold st1, start_writer. simpl. rewrite Hleg. simpl.
      by rewrite <- !app_assoc. }
    split; [done|]. intros Hin.
    apply pump_notify_all in Hin as [Hin|Hin]; [|done|].
    + rewrite Hlog in Hin. apply elem_of_app in Hin as [Hin|Hin]; [done|].
      revert Hin. not_listed.
    + unfold st1, start_writer. simpl. by rewrite Hleg.
  - intros st i u Hleg Hu Hst. unfold notify. rewrite Hu, Hst. simpl.
    by rewrite <- !app_assoc.
  - intros st i u f Hleg Hu Hst Hp st1 st2 stored.
    assert (st1 = alter_upload (set_closing (S (u_closing u))) i
                    (add_log (StoreClose i) st)) as Hst1.
    { unfold st1, notify. by rewrite Hu, Hst, Hleg. }
    split; [by rewrite Hst1|].
    assert (uploads st1 !! i = Some (set_closing (S (u_closing u)) u)) as Hu1.
    { rewrite Hst1. simpl. by rewrite list_lookup_alter_eq, Hu. }
    set (st1' := alter_upload (set_closing (u_closing u)) i st1).
    assert (st2 = emitFile i f st1') as ->.
    { unfold st2, notify. by rewrite Hu1. }
    destruct (emitFile_effect i f st1' (set_closing (u_closing u)
                (set_closing (S (u_closing u)) u))) as (He & Hup & _).
    { unfold st1'. simpl. by rewrite list_lookup_alter_eq, Hu1. }
    simpl in *. rewrite He, Hup, Hp. split; [|done].
    rewrite Hst1. simpl. by rewrite emitted_app, app_nil_r.
  - intros st i u streamOptions f Hleg Hu Hp st1 st2 stored.
    assert (log st1
      = log st ++ [CreateStream i streamOptions; WriterOn i "error";
                   WriterOn i "finish"; Pump i]) as Hlog.
    { unfold st1, start_writer. simpl. rewrite Hleg. simpl.
      by rewrite <- !app_assoc. }
    split; [done|].
    destruct (start_writer_effect i streamOptions st u Hu)
      as (He1 & Hleg1 & u1 & Hu1 & Hp1 & Ho1 & _ & Hst1).
    fold st1 in He1, Hleg1, Hu1. rewrite Hleg in Hst1, Hleg1.
    assert (st2 = emitFile i f st1) as ->.
    { unfold st2, notify. by rewrite Hu1, Hst1, Hleg1. }
    destruct (emitFile_effect i f st1 u1 Hu1) as (He & Hup & _).
    simpl in *. rewrite He, Hup, Hp1, Hp, Ho1, He1. done.
Qed.

(** ** Instances that share the cache *)

(** The instance resolves its connection through the cache: it caches and
    no [db] was configured. *)
Definition through_cache (st : state) : bool :=
  caching st && negb (bool_decide (is_Some (cfg_db (configuration_ st)))).

(** What the constructor of a caching instance calls [cache.initialize]
    with. *)
Definition signature_of (st : state) : signature :=
  {| sig_url := default "" (cfg_url (configuration_ st));
     sig_cacheName := default "default" (cacheName st);
     sig_init := _options st |}.

(** The instances that resolve their connection through the slot [idx],
    in the order they were made. *)
Definition is_user (idx : nat) (st : state) : Prop :=
  through_cache st = true ∧ cacheIndex st = Some {| slot := idx |}.

Definition users (idx : nat) (l : list state) : list state :=
  filter (is_user idx) l.

(** Those of them whose call of [MongoClient.connect] has not answered. *)
Definition is_opener (idx : nat) (st : state) : Prop :=
  is_user idx st ∧ awaiting st = Some OnConnect.

Definition in_flight (idx : nat) (l : list state) : list state :=
  filter (is_opener idx) l.

Definition signatures (c : Cache) : list signature := e_signature <$> c.

Lemma find_slot_Some sg c i :
  find_slot sg c = Some i → ∃ e, c !! i = Some e ∧ e_signature e = sg.
Proof.
  revert i. induction c as [|e c IH]; intros i; simpl; [done|].
  destruct (decide (e_signature e = sg)) as [He|He].
  - intros [= <-]. by exists e.
  - destruct (find_slot sg c) as [j|]; [|done]. intros [= <-]. simpl. by apply IH.
Qed.

Lemma find_slot_None sg c : find_slot sg c = None → sg ∉ signatures c.
Proof.
  induction c as [|e c IH]; simpl; [intros _; apply not_elem_of_nil|].
  destruct (decide (e_signature e = sg)) as [He|He]; [done|].
  destruct (find_slot sg c); [done|]. intros _.
  apply not_elem_of_cons. split; [done|]. by apply IH.
Qed.

(** [initialize] reuses the slot of the signature or adds a pending one. *)
Lemma Cache_initialize_spec sg c :
  let '(i, c') := Cache_initialize sg c in
  (c' = c ∨ c' = c ++ [fresh_entry sg] ∧ sg ∉ signatures c) ∧
  ∃ e, c' !! slot i = Some e ∧ e_signature e = sg.
Proof.
  unfold Cache_initialize. destruct (find_slot sg c) as [i|] eqn:Hf.
  - split; [by left|]. by apply find_slot_Some.
  - split; [right; split; [done|by apply find_slot_None]|].
    exists (fresh_entry sg). simpl. by rewrite lookup_app_r, Nat.sub_diag.
Qed.

Lemma signatures_alter_slot f i c :
  (∀ e, e_signature (f e) = e_signature e) →
  signatures (alter_slot f i c) = signatures c.
Proof.
  intros Hf. destruct i as [[i]|]; [|done]. simpl. unfold signatures.
  apply list_eq. intros j. rewrite !list_lookup_fmap.
  destruct (decide (i = j)) as [->|Hij].
  - rewrite list_lookup_alter_eq. destruct (c !! j); simpl; by rewrite ?Hf.
  - by rewrite list_lookup_alter_ne.
Qed.

(** What an instance keeps while it lives: its configuration, whether and
    where it caches, and the calls of [MongoClient.connect] it made. *)
Definition evolves (st st' : state) : Prop :=
  configuration_ st' = configuration_ st ∧ caching st' = caching st ∧
  cacheName st' = cacheName st ∧ cacheIndex st' = cacheIndex st ∧
  connects st' = connects st.

Lemma evolves_calm st st' : calm (λ _, False) st st' → evolves st st'.
Proof.
  intros (Hs & _ & _ & _ & _ & _ & es & Hlog & _ & _ & Hc).
  unfold skeleton in Hs. simplify_eq.
  repeat split; try done.
  unfold connects. by rewrite Hlog, filter_app, Hc, app_nil_r.
Qed.

Lemma connects_emit s st : connects (emit s st) = connects st.
Proof.
  unfold connects. rewrite log_emit, filter_app.
  rewrite filter_cons, decide_False by (by intros []).
  rewrite (filter_nil_intro (λ e, Is_true (is_connect e)) (deliveries _ _)).
  { by rewrite app_nil_r. }
  intros e He Hc.
  pose proof (Forall_notice_deliveries s
    (filter (λ r, on_event r = event_of s) (listeners st))) as Hn.
  rewrite Forall_forall in Hn. apply Hn in He. by destruct e.
Qed.

Lemma evolves_emit s st : evolves st (emit s st).
Proof.
  pose proof (core_emit s st) as H. unfold core in H.
  injection H as _ _ _ _ ? ? ? ? _ _ _ _ _ _.
  repeat split; try done. apply connects_emit.
Qed.

Lemma evolves_trans st1 st2 st3 : evolves st1 st2 → evolves st2 st3 → evolves st1 st3.
Proof.
  intros (? & ? & ? & ? & ?) (? & ? & ? & ? & ?). repeat split; congruence.
Qed.

Lemma evolves__fail l err st : evolves st (_fail l err st).
Proof.
  unfold _fail. eapply evolves_trans; [|apply evolves_emit].
  unfold _updateConnectionStatus. simpl. by repeat split.
Qed.

Lemma evolves__setDb l d c st : evolves st (_setDb l d c st).2.
Proof.
  destruct (_setDb l d c st) as [[err|] st'] eqn:H; simpl.
  - unfold _setDb in H. simpl in H.
    destruct c as [c|]; simpl in H; [|destruct (client st) eqn:Hcl];
      try done; by injection H as _ <-.
  - unfold _setDb in H. simpl in H.
    destruct c as [c|]; simpl in H; [|destruct (client st) eqn:Hcl];
      try done; injection H as <-; unfold _updateConnectionStatus; simpl;
      rewrite ?Hcl; simpl; repeat split;
      unfold connects; simpl; by rewrite !filter_app, !app_nil_r.
Qed.

(** The reactions to the promise of [_resolveConnection] end the wait. *)
Lemma evolves_settle l r st :
  evolves st (settle l r st) ∧
  (awaiting (settle l r st) = None).
Proof.
  unfold settle. destruct (awaiting st) eqn:Ha.
  2:{ split; [by repeat split|done]. }
  set (st0 := set_awaiting None st).
  assert (evolves st st0) as H0 by by repeat split.
  assert (∀ err st1, evolves st st1 → awaiting st1 = None →
    evolves st (_fail l err st1) ∧ awaiting (_fail l err st1) = None) as Hfail.
  { intros err st1 H1 Ha1. split.
    - eapply evolves_trans; [exact H1|apply evolves__fail].
    - by destruct (_fail_leaves l err st1) as (_ & _ & _ & _ & _ & -> & _). }
  destruct r as [h|err]; [|by apply Hfail].
  pose proof (evolves__setDb l (h_db h) (h_client h) st0) as Hset.
  destruct (_setDb l (h_db h) (h_client h) st0) as [[err|] st1] eqn:Heq;
    simpl in Hset.
  - apply Hfail; [by eapply evolves_trans|].
    by apply _setDb_throws in Heq as (_ & _ & _ & _ & -> & _).
  - split; [by eapply evolves_trans|].
    by apply _setDb_returns in Heq as (_ & _ & _ & -> & _).
Qed.

Lemma evolves_step st l inp :
  is_Settle inp = false →
  evolves st (step st (l, inp)) ∧ awaiting (step st (l, inp)) = awaiting st.
Proof.
  intros Hinp.
  assert (calm (λ _, False) st (step st (l, inp)) →
    evolves st (step st (l, inp)) ∧ awaiting (step st (l, inp)) = awaiting st)
    as Hcalm.
  { intros Hc. split; [by apply evolves_calm|].
    destruct Hc as (Hs & _). unfold skeleton in Hs. by simplify_eq. }
  destruct inp; try done;
    try (apply Hcalm, calm_step; [apply closed_False|by auto]).
  unfold step. simpl. unfold run_tick.
  destruct (ticks st) as [|[] rest]; [by repeat split|].
  split.
  - eapply evolves_trans; [|apply evolves_emit]. by repeat split.
  - pose proof (core_emit (connection (Conn (db st) (client st)))
                  (set_ticks rest st)) as H.
    unfold core in H. by simplify_eq.
Qed.

(** What holds of one instance, whatever the others do: only a caching
    instance has an index; an instance that resolves through the cache is
    done, or called [MongoClient.connect] once and waits for it, or never
    called it and waits for the promise of its own slot. *)
Definition local_ok (st : state) : Prop :=
  (caching st = false → cacheIndex st = None) ∧
  (caching st = true → awaiting st = Some OnConnect → through_cache st = true) ∧
  (through_cache st = true →
   is_Some (cacheIndex st) ∧
   (awaiting st = None ∨
    awaiting st = Some OnConnect ∧ connects st = 1 ∨
    awaiting st = Some (OnCache (cacheIndex st)) ∧ connects st = 0)).

Lemma through_cache_evolves st st' :
  evolves st st' → through_cache st' = through_cache st.
Proof. intros (Hc & Hg & _). unfold through_cache. by rewrite Hc, Hg. Qed.

Lemma signature_of_evolves st st' :
  evolves st st' → signature_of st' = signature_of st.
Proof.
  intros (Hc & _ & Hn & _). unfold signature_of, _options. by rewrite Hc, Hn.
Qed.

Lemma local_ok_evolves st st' :
  local_ok st → evolves st st' →
  awaiting st' = awaiting st ∨ awaiting st' = None →
  local_ok st'.
Proof.
  intros (H1 & H2 & H3) Hev Ha.
  pose proof (through_cache_evolves _ _ Hev) as Ht.
  destruct Hev as (Hc & Hg & Hn & Hi & Hk).
  unfold local_ok. rewrite Ht, Hg, Hi, Hk.
  destruct Ha as [-> | ->]; [done|].
  split; [done|]. split; [done|].
  intros Hthrough. split; [by apply H3|by left].
Qed.

(** How [_resolveConnection] uses the cache. *)
Lemma _resolveConnection_cache c st :
  log st = [] →
  (caching st = false → cacheIndex st = None) →
  (∀ i, cacheIndex st = Some i → is_Some (c !! slot i)) →
  (caching st = true → is_Some (cacheIndex st)) →
  let '(st', c') := _resolveConnection c st in
  (configuration_ st' = configuration_ st ∧ caching st' = caching st ∧
   cacheName st' = cacheName st ∧ cacheIndex st' = cacheIndex st) ∧
  local_ok st' ∧
  if through_cache st then
    ∃ i e, cacheIndex st = Some i ∧ c !! slot i = Some e ∧
      if decide (e_status e = pending) then
        c' = alter set_opening (slot i) c ∧
        awaiting st' = Some OnConnect ∧ connects st' = 1
      else
        c' = c ∧ awaiting st' = Some (OnCache (Some i)) ∧ connects st' = 0
  else c' = c.
Proof.
  intros Hlog Hno Hslot Hyes.
  unfold _resolveConnection, through_cache, local_ok, through_cache, connects.
  simpl. destruct (bool_decide (is_Some (cfg_db (configuration_ st)))) eqn:Hdb.
  { simpl. rewrite Hdb. simpl. rewrite !andb_false_r. repeat split; done. }
  destruct (caching st) eqn:Hca; simpl.
  2:{ rewrite Hca, Hlog. simpl. repeat split; done. }
  destruct (Hyes eq_refl) as [i Hi]. rewrite Hi.
  destruct (Hslot i Hi) as [e He].
  unfold Cache_isOpening, Cache_isPending. simpl. rewrite He.
  destruct (decide (e_status e = pending)) as [Hp|Hp].
  - rewrite Hp. simpl. rewrite Hca, Hdb, Hi, Hlog. simpl.
    split; [done|]. split.
    + repeat split; try done. right. by left.
    + exists i, e. by rewrite decide_True.
  - rewrite (bool_decide_eq_false_2 _ Hp), andb_false_r. simpl.
    rewrite Hca, Hdb, Hi, Hlog. simpl.
    split; [done|]. split.
    + repeat split; try done. right. by right.
    + exists i, e. by rewrite decide_False.
Qed.

(** How the constructor uses the cache: it registers at most one entry,
    for a signature that has none; an instance that resolves through the
    cache then opens its slot and connects, if the slot is pending, and
    waits for the slot otherwise. *)
Lemma constructor_cache legacy cfg l c r c' :
  constructor legacy cfg l c = (r, c') →
  ∃ c1,
    (c1 = c ∨ ∃ sg, c1 = c ++ [fresh_entry sg] ∧ sg ∉ signatures c) ∧
    match r with
    | Throw _ => c' = c1
    | Ok st =>
        local_ok st ∧
        (∀ i, cacheIndex st = Some i →
           ∃ e, c1 !! slot i = Some e ∧ e_signature e = signature_of st) ∧
        if through_cache st then
          ∃ i e, cacheIndex st = Some i ∧ c1 !! slot i = Some e ∧
            if decide (e_status e = pending) then
              c' = alter set_opening (slot i) c1 ∧
              awaiting st = Some OnConnect ∧ connects st = 1
            else
              c' = c1 ∧ awaiting st = Some (OnCache (Some i)) ∧
              connects st = 0
        else c' = c1
    end.
Proof.
  unfold constructor. destruct cfg as [cfg|]; [|intros [= <- <-]; eauto].
  destruct (negb (has_url cfg) && negb _); [intros [= <- <-]; eauto|].
  match goal with
  | |- (let '(st, c) := ?x in _) = _ → _ => destruct x as [st0 c0] eqn:Hx
  end.
  intros H. exists c0.
  assert ((c0 = c ∨ ∃ sg, c0 = c ++ [fresh_entry sg] ∧ sg ∉ signatures c) ∧
    log st0 = [] ∧ awaiting st0 = None ∧
    (caching st0 = false → cacheIndex st0 = None) ∧
    (caching st0 = true → is_Some (cacheIndex st0)) ∧
    (∀ i, cacheIndex st0 = Some i →
       ∃ e, c0 !! slot i = Some e ∧ e_signature e = signature_of st0))
    as (Hc0 & Hlog & Haw & Hno & Hyes & Hsig).
  { destruct (has_url cfg) eqn:Hurl; simpl in Hx.
    - destruct (Boolean_cache (cfg_cache cfg)) eqn:Hb; simpl in Hx.
      + pose proof (Cache_initialize_spec
          {| sig_url := default "" (cfg_url cfg);
             sig_cacheName :=
               match cfg_cache cfg with CacheNamed nm => nm | _ => "default" end;
             sig_init := if has_url cfg then cfg_options cfg else None |} c)
          as Hinit.
        unfold _options in Hx. simpl in Hx.
        destruct (Cache_initialize _ c) as [i c1]. injection Hx as <- <-.
        destruct Hinit as (Hc1 & e & He & Hsg). simpl.
        split; [destruct Hc1 as [?|[? ?]]; eauto|].
        repeat split; try done.
        intros ? [= <-]. exists e. split; [done|].
        rewrite Hsg. unfold signature_of, _options. simpl. by rewrite Hurl.
      + injection Hx as <- <-. simpl. repeat split; eauto; done.
    - injection Hx as <- <-. simpl. repeat split; eauto; done. }
  split; [done|].
  assert (∀ i, cacheIndex st0 = Some i → is_Some (c0 !! slot i)) as Hslot.
  { intros i Hi. destruct (Hsig i Hi) as (e & -> & _). eauto. }
  pose proof (_resolveConnection_cache c0 st0 Hlog Hno Hslot Hyes) as Hres.
  assert (∀ st c2, _resolveConnection c0 st0 = (st, c2) →
    (Ok st, c2) = (r, c') →
    match r with
    | Throw _ => c' = c0
    | Ok st =>
        local_ok st ∧
        (∀ i, cacheIndex st = Some i →
           ∃ e, c0 !! slot i = Some e ∧ e_signature e = signature_of st) ∧
        if through_cache st then
          ∃ i e, cacheIndex st = Some i ∧ c0 !! slot i = Some e ∧
            if decide (e_status e = pending) then
              c' = alter set_opening (slot i) c0 ∧
              awaiting st = Some OnConnect ∧ connects st = 1
            else
              c' = c0 ∧ awaiting st = Some (OnCache (Some i)) ∧
              connects st = 0
        else c' = c0
    end) as Hasync.
  { intros st c2 Hr [= <- <-]. rewrite Hr in Hres.
    destruct Hres as ((Hcf & Hcg & Hcn & Hci) & Hok & Hthrough).
    split; [done|].
    assert (signature_of st = signature_of st0) as Hsg.
    { unfold signature_of, _options. by rewrite Hcf, Hcn. }
    assert (through_cache st = through_cache st0) as Ht.
    { unfold through_cache. by rewrite Hcf, Hcg. }
    rewrite Hsg, Ht, Hci. done. }
  unfold _connect in H.
  destruct (cfg_db (configuration_ st0)) as [[d|]|] eqn:Hdb;
    try (destruct (_resolveConnection c0 st0) as [st c2] eqn:Hr;
         by apply (Hasync st c2)).
  destruct (isPromise (cfg_client (configuration_ st0)));
    [destruct (_resolveConnection c0 st0) as [st c2] eqn:Hr;
     by apply (Hasync st c2)|].
  match type of H with
  | match ?x with _ => _ end = _ => destruct x as [[err|] st] eqn:Hset
  end; injection H as <- <-; [done|].
  pose proof (evolves__setDb l d
    match cfg_client (configuration_ st0) with
    | Some (Given cl) => Some cl
    | _ => None
    end st0) as Hev.
  rewrite Hset in Hev. simpl in Hev.
  apply _setDb_returns in Hset as (_ & _ & _ & Ha & _).
  assert (through_cache st0 = false) as Ht0.
  { unfold through_cache. rewrite Hdb.
    rewrite bool_decide_eq_true_2 by eauto. apply andb_false_r. }
  assert (local_ok st0) as Hok0.
  { unfold local_ok. rewrite Ht0, Haw. done. }
  split; [apply (local_ok_evolves st0); auto|].
  rewrite (through_cache_evolves _ _ Hev), (signature_of_evolves _ _ Hev), Ht0.
  destruct Hev as (_ & _ & _ & -> & _). done.
Qed.

(** *** One element of a list is replaced *)

Section replaced.
Context {A : Type} (Q : A → Prop) `{Qdec : !∀ x, Decision (Q x)}.

Lemma filter_insert_length (l : list A) (i : nat) x x' :
  l !! i = Some x →
  length (filter Q (<[i:=x']> l)) + (if decide (Q x) then 1 else 0)
  = length (filter Q l) + (if decide (Q x') then 1 else 0).
Proof.
  revert i. induction l as [|y l IH]; intros [|i]; simpl; try done.
  - intros [= ->]. rewrite !filter_cons.
    destruct (decide (Q x)), (decide (Q x')); simpl; lia.
  - intros Hi. rewrite !filter_cons. specialize (IH i Hi).
    destruct (decide (Q y)); simpl; lia.
Qed.

Lemma fmap_filter_insert {B} (f : A → B) (l : list A) (i : nat) x x' :
  l !! i = Some x → (Q x ↔ Q x') → f x = f x' →
  f <$> filter Q (<[i:=x']> l) = f <$> filter Q l.
Proof.
  intros Hi HQ Hf. revert i Hi.
  induction l as [|y l IH]; intros [|i]; simpl; try done.
  - intros [= ->]. rewrite !filter_cons.
    destruct (decide (Q x)), (decide (Q x')); try tauto.
    by rewrite !fmap_cons, Hf.
  - intros Hi. rewrite !filter_cons. specialize (IH i Hi).
    destruct (decide (Q y)); by rewrite ?fmap_cons, ?IH.
Qed.

Lemma filter_length_pos (l : list A) (i : nat) x :
  l !! i = Some x → Q x → 0 < length (filter Q l).
Proof.
  intros Hi HQ.
  assert (x ∈ filter Q l) as Hx.
  { apply list_elem_of_filter. split; [done|]. by eapply list_elem_of_lookup_2. }
  destruct (filter Q l); [by apply elem_of_nil in Hx|simpl; lia].
Qed.
End replaced.

(** ** The invariant of the process *)

(** A slot of the registry and its users: a pending slot has none; another
    one was opened by its first user, which called [MongoClient.connect]
    once, and no later user called it; the call is unanswered exactly
    while the slot is opening; and what a user's promise of
    [_resolveConnection] was settled with is the promise of the slot. *)
Definition slot_ok (w : world) (idx : nat) (e : entry) : Prop :=
  (e_status e = pending → users idx (instances w) = []) ∧
  (e_status e ≠ pending →
   ∃ zeros, connects <$> users idx (instances w) = 1 :: zeros ∧
            Forall (eq 0) zeros) ∧
  length (in_flight idx (instances w))
  = (if decide (e_status e = opening) then 1 else 0) ∧
  (∀ k r st, (k, r) ∈ observations w → instances w !! k = Some st →
             is_user idx st → of_res r = entry_promise e).

Definition registered (c : Cache) (st : state) : Prop :=
  ∀ i, cacheIndex st = Some i →
       ∃ e, c !! slot i = Some e ∧ e_signature e = signature_of st.

Definition world_ok (w : world) : Prop :=
  NoDup (signatures (registry w)) ∧
  Forall (λ st, local_ok st ∧ registered (registry w) st) (instances w) ∧
  (∀ k r, (k, r) ∈ observations w → k < length (instances w)) ∧
  (∀ idx e, registry w !! idx = Some e → slot_ok w idx e).

Lemma world_ok_empty : world_ok empty_world.
Proof.
  split; [constructor|]. split; [constructor|]. split.
  - intros k r H. by apply elem_of_nil in H.
  - intros idx e H. done.
Qed.

Lemma is_user_evolves idx st st' :
  evolves st st' → is_user idx st' ↔ is_user idx st.
Proof.
  intros Hev. unfold is_user. rewrite (through_cache_evolves _ _ Hev).
  destruct Hev as (_ & _ & _ & -> & _). done.
Qed.

Lemma of_res_settled {A} (r : res A) : of_res r ≠ Pending.
Proof. by destruct r. Qed.

Lemma entry_promise_unsettled e : is_settled e = false → entry_promise e = Pending.
Proof. unfold is_settled, entry_promise. by destruct (e_status e). Qed.

Lemma lookup_insert_instance (l : list state) i k st st' st2 :
  l !! i = Some st → <[i:=st']> l !! k = Some st2 →
  k = i ∧ st2 = st' ∨ k ≠ i ∧ l !! k = Some st2.
Proof.
  intros Hi Hk. destruct (decide (i = k)) as [->|Hne].
  - rewrite list_lookup_insert_eq in Hk by (by eapply lookup_lt_Some).
    left. split; congruence.
  - rewrite list_lookup_insert_ne in Hk by done. right. split; congruence.
Qed.

(** An instance moves on and its slot stays as it is. *)
Lemma slot_ok_update w i st st' idx e c' news :
  instances w !! i = Some st → evolves st st' →
  (is_opener idx st ↔ is_opener idx st') →
  (∀ k r, (k, r) ∈ news →
          k = i ∧ (is_user idx st → of_res r = entry_promise e)) →
  slot_ok w idx e →
  slot_ok {| registry := c'; instances := <[i:=st']> (instances w);
             observations := observations w ++ news |} idx e.
Proof.
  intros Hi Hev Hop Hnews (Hpend & Hprof & Hfly & Hobs).
  pose proof (is_user_evolves idx _ _ Hev) as Hus.
  assert (connects <$> users idx (<[i:=st']> (instances w))
          = connects <$> users idx (instances w)) as Hsame.
  { apply (fmap_filter_insert (is_user idx) connects _ i st st'); [done|..].
    - by symmetry.
    - by destruct Hev as (_ & _ & _ & _ & ->). }
  unfold slot_ok. simpl. split; [|split; [|split]].
  - intros Hp. specialize (Hpend Hp). rewrite Hpend in Hsame.
    by apply fmap_nil_inv in Hsame.
  - intros Hp. rewrite Hsame. by apply Hprof.
  - rewrite <- Hfly. unfold in_flight.
    pose proof (filter_insert_length (is_opener idx) (instances w) i st st' Hi)
      as Hlen.
    destruct (decide (is_opener idx st)), (decide (is_opener idx st'));
      try tauto; lia.
  - intros k r st2 [Hin|Hin]%elem_of_app Hk Hu.
    + destruct (lookup_insert_instance _ _ _ _ _ _ Hi Hk) as [[-> ->]|[_ Hk']].
      * apply (Hobs i r st); [done..|]. by apply Hus.
      * by apply (Hobs k r st2).
    + destruct (Hnews k r Hin) as [-> Hr].
      destruct (lookup_insert_instance _ _ _ _ _ _ Hi Hk) as [[_ ->]|[? _]];
        [|done].
      apply Hr. by apply Hus.
Qed.

(** The slot of an instance whose call of [MongoClient.connect] is
    unanswered is opening. *)
Lemma opener_opening w i st idx e :
  instances w !! i = Some st → is_opener idx st → slot_ok w idx e →
  e_status e = opening.
Proof.
  intros Hi Hop (_ & _ & Hfly & _).
  pose proof (filter_length_pos (is_opener idx) _ _ _ Hi Hop) as Hpos.
  unfold in_flight in Hfly. rewrite Hfly in Hpos.
  destruct (decide (e_status e = opening)); [done|lia].
Qed.

(** The call of [MongoClient.connect] of the opener of a slot answers, and
    the slot is settled with the answer. *)
Lemma slot_ok_settled w i st st' idx e e' r c' :
  instances w !! i = Some st → evolves st st' →
  is_opener idx st → awaiting st' = None →
  e_status e' ≠ pending → e_status e' ≠ opening →
  entry_promise e' = of_res r →
  slot_ok w idx e →
  slot_ok {| registry := c'; instances := <[i:=st']> (instances w);
             observations := observations w ++ [(i, r)] |} idx e'.
Proof.
  intros Hi Hev Hop Ha' Hnp Hno Hpr Hslot.
  pose proof (opener_opening _ _ _ _ _ Hi Hop Hslot) as Hst.
  destruct Hslot as (Hpend & Hprof & Hfly & Hobs).
  pose proof (is_user_evolves idx _ _ Hev) as Hus.
  assert (connects <$> users idx (<[i:=st']> (instances w))
          = connects <$> users idx (instances w)) as Hsame.
  { apply (fmap_filter_insert (is_user idx) connects _ i st st'); [done|..].
    - by symmetry.
    - by destruct Hev as (_ & _ & _ & _ & ->). }
  unfold slot_ok. simpl. split; [done|]. split; [|split].
  - intros _. rewrite Hsame. apply Hprof. by rewrite Hst.
  - rewrite decide_False by done. unfold in_flight in *.
    pose proof (filter_insert_length (is_opener idx) (instances w) i st st' Hi)
      as Hlen.
    rewrite Hfly, Hst, decide_True in Hlen by done.
    rewrite decide_True in Hlen by done.
    rewrite decide_False in Hlen; [lia|].
    intros [_ Hx]. congruence.
  - intros k r2 st2 [Hin|Hin]%elem_of_app Hk Hu.
    + exfalso. apply (of_res_settled r2).
      rewrite <- (entry_promise_unsettled e)
        by (unfold is_settled; by rewrite Hst).
      destruct (lookup_insert_instance _ _ _ _ _ _ Hi Hk) as [[-> ->]|[_ Hk']].
      * apply (Hobs i r2 st); [done..|]. by apply Hus.
      * by apply (Hobs k r2 st2).
    + apply list_elem_of_singleton in Hin. by injection Hin as -> ->.
Qed.

Lemma registered_evolves c st st' :
  evolves st st' → registered c st → registered c st'.
Proof.
  intros Hev Hr i Hi. rewrite (signature_of_evolves _ _ Hev).
  apply Hr. by destruct Hev as (_ & _ & _ & <- & _).
Qed.

Lemma registered_alter f idx c st :
  (∀ e, e_signature (f e) = e_signature e) →
  registered c st → registered (alter f idx c) st.
Proof.
  intros Hf Hr i Hi. destruct (Hr i Hi) as (e & He & Hsg).
  destruct (decide (idx = slot i)) as [->|Hne].
  - exists (f e). rewrite list_lookup_alter_eq, He. simpl. by rewrite Hf.
  - exists e. by rewrite list_lookup_alter_ne.
Qed.

Lemma world_ok_update w i st st' news :
  world_ok w → instances w !! i = Some st → evolves st st' →
  (awaiting st' = awaiting st ∨
   awaiting st' = None ∧
   (through_cache st = true → awaiting st ≠ Some OnConnect)) →
  (∀ k r, (k, r) ∈ news →
     k = i ∧ ∀ idx e, is_user idx st → registry w !! idx = Some e →
                      of_res r = entry_promise e) →
  world_ok {| registry := registry w; instances := <[i:=st']> (instances w);
              observations := observations w ++ news |}.
Proof.
  intros (Hnd & Hall & Hbound & Hslots) Hi Hev Ha Hnews.
  pose proof Hall as Hall'. rewrite Forall_forall in Hall'.
  destruct (Hall' st) as [Hok Hreg]; [by eapply list_elem_of_lookup_2|].
  split; [done|]. simpl. split; [|split].
  - apply Forall_insert; [done|]. split.
    + apply (local_ok_evolves st); [done..|]. destruct Ha as [?|[? _]]; auto.
    + by apply (registered_evolves _ st).
  - intros k r [Hin|Hin]%elem_of_app; rewrite length_insert.
    + by apply (Hbound k r).
    + destruct (Hnews k r Hin) as [-> _]. by eapply lookup_lt_Some.
  - intros idx e He. apply (slot_ok_update w i st); [done..| | |by apply Hslots].
    + unfold is_opener. rewrite (is_user_evolves idx _ _ Hev).
      destruct Ha as [->|[-> Hn]]; [done|].
      split; [|by intros [_ ?]]. intros [[Ht _] Hc]. by apply Hn in Hc.
    + intros k r Hin. destruct (Hnews k r Hin) as [-> Hr].
      split; [done|]. intros Hu. by apply (Hr idx).
Qed.

Lemma world_ok_settled w i st st' idx f r :
  world_ok w → instances w !! i = Some st → evolves st st' →
  is_opener idx st → awaiting st' = None →
  (∀ e, e_signature (f e) = e_signature e) →
  (∀ e, e_status e = opening →
        e_status (f e) ≠ pending ∧ e_status (f e) ≠ opening ∧
        entry_promise (f e) = of_res r) →
  world_ok {| registry := alter f idx (registry w);
              instances := <[i:=st']> (instances w);
              observations := observations w ++ [(i, r)] |}.
Proof.
  intros (Hnd & Hall & Hbound & Hslots) Hi Hev Hop Ha Hsig Hf.
  pose proof Hall as Hall'. rewrite Forall_forall in Hall'.
  destruct (Hall' st) as [Hok Hreg]; [by eapply list_elem_of_lookup_2|].
  unfold world_ok. simpl. split; [|split; [|split]].
  - by rewrite <- (signatures_alter_slot f (Some {| slot := idx |})) in Hnd.
  - apply Forall_insert.
    + eapply Forall_impl; [exact Hall|]. intros st2 [? ?].
      split; [done|]. by apply registered_alter.
    + split; [apply (local_ok_evolves st); auto|].
      apply registered_alter; [done|]. by apply (registered_evolves _ st).
  - intros k r2 [Hin|Hin]%elem_of_app; rewrite length_insert.
    + by apply (Hbound k r2).
    + apply list_elem_of_singleton in Hin. injection Hin as -> ->.
      by eapply lookup_lt_Some.
  - intros idx2 e2 He2. destruct (decide (idx = idx2)) as [<-|Hne].
    + rewrite list_lookup_alter_eq in He2.
      destruct (registry w !! idx) as [e|] eqn:He; [|done].
      injection He2 as <-. specialize (Hslots idx e He).
      pose proof (opener_opening _ _ _ _ _ Hi Hop Hslots) as Hst.
      destruct (Hf e Hst) as (? & ? & ?).
      by apply (slot_ok_settled w i st st' idx e).
    + rewrite list_lookup_alter_ne in He2 by done.
      assert (¬ is_user idx2 st) as Hnot.
      { intros [_ Hc]. destruct Hop as [[_ Hc'] _]. congruence. }
      apply (slot_ok_update w i st); [done..| | |by apply Hslots].
      * unfold is_opener. rewrite (is_user_evolves idx2 _ _ Hev). tauto.
      * intros k r2 Hin. apply list_elem_of_singleton in Hin.
        injection Hin as -> ->. done.
Qed.

(** *** An instance is made *)

Lemma no_user_beyond w idx st :
  world_ok w → length (registry w) ≤ idx → st ∈ instances w →
  ¬ is_user idx st.
Proof.
  intros (_ & Hall & _) Hlen Hin [_ Hc]. rewrite Forall_forall in Hall.
  destruct (Hall st Hin) as [_ Hreg].
  destruct (Hreg _ Hc) as (e & He & _). simpl in He.
  apply lookup_lt_Some in He. lia.
Qed.

Lemma world_ok_register w sg :
  world_ok w → sg ∉ signatures (registry w) →
  world_ok {| registry := registry w ++ [fresh_entry sg];
              instances := instances w; observations := observations w |}.
Proof.
  intros Hw Hsg. pose proof Hw as (Hnd & Hall & Hbound & Hslots).
  unfold world_ok. simpl. split; [|split; [|split]].
  - unfold signatures. rewrite fmap_app. simpl. apply NoDup_app.
    split; [done|]. split; [|apply NoDup_singleton].
    intros x Hx ->%list_elem_of_singleton. done.
  - eapply Forall_impl; [exact Hall|]. intros st [? Hreg]. split; [done|].
    intros i Hi. destruct (Hreg i Hi) as (e & He & ?). exists e.
    split; [|done]. by apply lookup_app_l_Some.
  - done.
  - intros idx e He. apply lookup_app_Some in He as [He|[Hlen He]].
    { by apply Hslots. }
    apply list_lookup_singleton_Some in He as [_ <-].
    assert (∀ st, st ∈ instances w → ¬ is_user idx st) as Hnone.
    { intros st Hin. by apply (no_user_beyond w). }
    unfold slot_ok. simpl. split; [|split; [done|split]].
    + intros _. by apply filter_nil_intro.
    + unfold in_flight. rewrite filter_nil_intro; [done|].
      intros st Hin [Hu _]. by apply (Hnone st).
    + intros k r st _ Hk Hu. exfalso. apply (Hnone st); [|done].
      by eapply list_elem_of_lookup_2.
Qed.

Lemma slot_ok_join w st idx e e' c' :
  (∀ k r, (k, r) ∈ observations w → k < length (instances w)) →
  slot_ok w idx e →
  ¬ is_user idx st ∧ e' = e ∨
  is_user idx st ∧ e_status e = pending ∧ e_status e' = opening ∧
    awaiting st = Some OnConnect ∧ connects st = 1 ∨
  is_user idx st ∧ e_status e ≠ pending ∧ e' = e ∧
    awaiting st ≠ Some OnConnect ∧ connects st = 0 →
  slot_ok {| registry := c'; instances := instances w ++ [st];
             observations := observations w |} idx e'.
Proof.
  intros Hbound (Hpend & Hprof & Hfly & Hobs) Hcase.
  assert (∀ k r st2, (k, r) ∈ observations w →
    (instances w ++ [st]) !! k = Some st2 → instances w !! k = Some st2)
    as Hold.
  { intros k r st2 Hin Hk. rewrite lookup_app_l in Hk; [done|].
    by apply (Hbound k r). }
  unfold slot_ok, users, in_flight in *. simpl.
  rewrite !filter_app, !filter_cons, !filter_nil.
  destruct Hcase as [[Hnot ->]|[(Hu & Hp & Hp' & Ha & Hc)|(Hu & Hp & -> & Ha & Hc)]].
  - rewrite decide_False by done.
    rewrite (decide_False (P := is_opener idx st)) by (by intros [? _]).
    rewrite !app_nil_r. repeat split; try done.
    intros k r st2 Hin Hk. apply (Hobs k r st2 Hin). by apply (Hold k r).
  - rewrite decide_True by done.
    rewrite (decide_True (P := is_opener idx st)) by done.
    assert (filter (is_opener idx) (instances w) = []) as Hnone.
    { apply filter_nil_intro. intros st2 Hin [Hu2 _].
      assert (st2 ∈ filter (is_user idx) (instances w)) as Habs
        by by apply list_elem_of_filter.
      rewrite (Hpend Hp) in Habs. by apply elem_of_nil in Habs. }
    rewrite (Hpend Hp), Hnone, Hp'. simpl. rewrite Hc.
    split; [done|]. split; [by exists []|]. split; [done|].
    intros k r st2 Hin Hk Hu2. exfalso.
    assert (st2 ∈ filter (is_user idx) (instances w)) as Habs.
    { apply list_elem_of_filter. split; [done|].
      eapply list_elem_of_lookup_2. by apply (Hold k r). }
    rewrite (Hpend Hp) in Habs. by apply elem_of_nil in Habs.
  - rewrite decide_True by done.
    rewrite (decide_False (P := is_opener idx st)) by (by intros [_ ?]).
    rewrite app_nil_r. split; [done|]. split; [|split; [done|]].
    + intros _. destruct (Hprof Hp) as (zeros & Hz & Hall).
      exists (zeros ++ [0]). rewrite fmap_app, Hz. simpl. rewrite Hc.
      split; [done|]. apply Forall_app. split; [done|]. by constructor.
    + intros k r st2 Hin Hk. apply (Hobs k r st2 Hin). by apply (Hold k r).
Qed.

Lemma world_ok_join w st c' :
  world_ok w → local_ok st → registered (registry w) st →
  (if through_cache st then
     ∃ i e, cacheIndex st = Some i ∧ registry w !! slot i = Some e ∧
       if decide (e_status e = pending) then
         c' = alter set_opening (slot i) (registry w) ∧
         awaiting st = Some OnConnect ∧ connects st = 1
       else
         c' = registry w ∧ awaiting st = Some (OnCache (Some i)) ∧
         connects st = 0
   else c' = registry w) →
  world_ok {| registry := c'; instances := instances w ++ [st];
              observations := observations w |}.
Proof.
  intros (Hnd & Hall & Hbound & Hslots) Hok Hreg Hcase.
  assert (∀ k r, (k, r) ∈ observations w → k < length (instances w ++ [st]))
    as Hbound'.
  { intros k r Hin. rewrite length_app. specialize (Hbound k r Hin). lia. }
  destruct (through_cache st) eqn:Ht.
  2:{ subst c'. unfold world_ok. simpl. split; [done|]. split; [|split; [done|]].
      - apply Forall_app. split; [done|]. by apply Forall_singleton.
      - intros idx e He. apply (slot_ok_join w st idx e); [done|by apply Hslots|].
        left. split; [|done]. intros [Hc _]. congruence. }
  destruct Hcase as (i & e & Hi & He & Hcase).
  assert (is_user (slot i) st) as Hu.
  { split; [done|]. rewrite Hi. by destruct i. }
  assert (∀ idx, idx ≠ slot i → ¬ is_user idx st) as Hnu.
  { intros idx Hne [_ Hc]. rewrite Hi in Hc. injection Hc as ->. done. }
  destruct (decide (e_status e = pending)) as [Hp|Hp].
  - destruct Hcase as (-> & Ha & Hc). unfold world_ok. simpl.
    split; [|split; [|split; [done|]]].
    + by rewrite <- (signatures_alter_slot set_opening (Some i)) in Hnd.
    + apply Forall_app. split.
      * eapply Forall_impl; [exact Hall|]. intros st2 [? ?].
        split; [done|]. by apply registered_alter.
      * apply Forall_singleton. split; [done|]. by apply registered_alter.
    + intros idx e2 He2. destruct (decide (slot i = idx)) as [<-|Hne].
      * rewrite list_lookup_alter_eq, He in He2. injection He2 as <-.
        apply (slot_ok_join w st (slot i) e); [done|by apply Hslots|].
        right. left. done.
      * rewrite list_lookup_alter_ne in He2 by done.
        apply (slot_ok_join w st idx e2); [done|by apply Hslots|].
        left. split; [|done]. by apply Hnu.
  - destruct Hcase as (-> & Ha & Hc). unfold world_ok. simpl.
    split; [done|]. split; [|split; [done|]].
    + apply Forall_app. split; [done|]. by apply Forall_singleton.
    + intros idx e2 He2. destruct (decide (slot i = idx)) as [<-|Hne].
      * rewrite He in He2. injection He2 as <-.
        apply (slot_ok_join w st (slot i) e); [done|by apply Hslots|].
        right. right. split; [done|]. split; [done|]. split; [done|].
        split; [|done]. by rewrite Ha.
      * apply (slot_ok_join w st idx e2); [done|by apply Hslots|].
        left. split; [|done]. by apply Hnu.
Qed.

Lemma world_ok_eta w :
  world_ok w →
  world_ok {| registry := registry w; instances := instances w;
              observations := observations w |}.
Proof. by destruct w. Qed.

Lemma world_ok_new w legacy cfg l :
  world_ok w → world_ok (happen w (l, New legacy cfg)).
Proof.
  intros Hw. unfold happen. simpl.
  destruct (constructor legacy cfg l (registry w)) as [r c'] eqn:Hc.
  apply constructor_cache in Hc as (c1 & Hc1 & Hr).
  assert (world_ok {| registry := c1; instances := instances w;
                      observations := observations w |}) as Hw1.
  { destruct Hc1 as [->|(sg & -> & Hsg)].
    - by apply world_ok_eta.
    - by apply world_ok_register. }
  destruct r as [st|err]; [|by subst c'].
  destruct Hr as (Hok & Hreg & Hcase).
  by apply (world_ok_join
    {| registry := c1; instances := instances w;
       observations := observations w |}).
Qed.

Lemma world_ok_ConnectDone w l i answer :
  world_ok w → world_ok (happen w (l, ConnectDone i answer)).
Proof.
  intros Hw. unfold happen. simpl.
  destruct (instances w !! i) as [st|] eqn:Hi; [|done].
  destruct (awaiting st) as [[| |]|] eqn:Ha; try done.
  destruct (_createConnection answer (registry w) st) as [r c'] eqn:Hc.
  unfold observe.
  destruct (evolves_settle l r st) as [Hev Ha'].
  pose proof Hw as (_ & Hall & _ & _). rewrite Forall_forall in Hall.
  destruct (Hall st) as [(Hno & Hyes & Hthrough) _];
    [by eapply list_elem_of_lookup_2|].
  destruct (caching st) eqn:Hca.
  - specialize (Hyes eq_refl Ha).
    destruct (Hthrough Hyes) as [[[i0] Hi0] _].
    assert (is_opener i0 st) as Hop by done.
    unfold _createConnection in Hc. rewrite Hca, Hi0 in Hc.
    destruct answer as [got|err]; injection Hc as <- <-.
    + apply (world_ok_settled w i st); try done.
      * intros e. by destruct (is_settled e).
      * intros e He. unfold is_settled. rewrite He.
        unfold entry_promise. simpl. by destruct got.
    + apply (world_ok_settled w i st); try done.
      * intros e. by destruct (is_settled e).
      * intros e He. unfold is_settled. rewrite He.
        unfold entry_promise. simpl. done.
  - assert (c' = registry w) as ->.
    { unfold _createConnection in Hc. rewrite Hca, (Hno eq_refl) in Hc.
      by destruct answer; injection Hc as <- <-. }
    assert (through_cache st = false) as Ht.
    { unfold through_cache. by rewrite Hca. }
    apply (world_ok_update w i st); [done..| |].
    + right. split; [done|]. by rewrite Ht.
    + intros k r2 Hin. apply list_elem_of_singleton in Hin.
      injection Hin as -> ->. split; [done|].
      intros idx e [Hc2 _]. congruence.
Qed.

Lemma world_ok_CacheAnswered w l i :
  world_ok w → world_ok (happen w (l, CacheAnswered i)).
Proof.
  intros Hw. unfold happen. simpl.
  destruct (instances w !! i) as [st|] eqn:Hi; [|done].
  destruct (awaiting st) as [[| |j]|] eqn:Ha; try done.
  pose proof Hw as (_ & Hall & _ & _). rewrite Forall_forall in Hall.
  destruct (Hall st) as [(Hno & Hyes & Hthrough) _];
    [by eapply list_elem_of_lookup_2|].
  assert (∀ r, of_res r = Cache_waitFor j (registry w) →
    world_ok (observe i l r (registry w) st w)) as Hobs.
  { intros r Hr. unfold observe.
    destruct (evolves_settle l r st) as [Hev Ha'].
    apply (world_ok_update w i st); [done..| |].
    - right. split; [done|]. intros _. by rewrite Ha.
    - intros k r2 Hin. apply list_elem_of_singleton in Hin.
      injection Hin as -> ->. split; [done|].
      intros idx e [Ht Hidx] He.
      destruct (Hthrough Ht) as [_ [?|[[? _]|[Hj _]]]]; try congruence.
      rewrite Ha in Hj. injection Hj as ->.
      rewrite Hr. unfold Cache_waitFor, Cache_get. rewrite Hidx. simpl.
      by rewrite He. }
  destruct (Cache_waitFor j (registry w)) as [|h|err] eqn:Hwait; [done|..].
  - by apply Hobs.
  - by apply Hobs.
Qed.

Lemma world_ok_HandlesDone w l i r :
  world_ok w → world_ok (happen w (l, HandlesDone i r)).
Proof.
  intros Hw. unfold happen. simpl.
  destruct (instances w !! i) as [st|] eqn:Hi; [|done].
  destruct (awaiting st) as [[| |j]|] eqn:Ha; try done.
  pose proof Hw as (_ & Hall & _ & _). rewrite Forall_forall in Hall.
  destruct (Hall st) as [(Hno & Hyes & Hthrough) _];
    [by eapply list_elem_of_lookup_2|].
  unfold observe. destruct (evolves_settle l r st) as [Hev Ha'].
  apply (world_ok_update w i st); [done..| |].
  - right. split; [done|]. intros _. by rewrite Ha.
  - intros k r2 Hin. apply list_elem_of_singleton in Hin.
      injection Hin as -> ->. split; [done|].
    intros idx e [Ht Hidx] He.
    destruct (Hthrough Ht) as [_ [?|[[? _]|[? _]]]]; congruence.
Qed.

Lemma world_ok_Local w l i inp :
  world_ok w → world_ok (happen w (l, Local i inp)).
Proof.
  intros Hw. unfold happen. simpl.
  destruct (instances w !! i) as [st|] eqn:Hi; [|done].
  destruct (is_Settle inp) eqn:Hinp; [done|].
  destruct (evolves_step st l inp Hinp) as [Hev Ha].
  rewrite <- (app_nil_r (observations w)).
  apply (world_ok_update w i st); [done..|by left|].
  intros k r Hin. by apply elem_of_nil in Hin.
Qed.

Lemma world_ok_happen w lh : world_ok w → world_ok (happen w lh).
Proof.
  destruct lh as [l [legacy cfg|i answer|i|i r|i inp]].
  - apply world_ok_new.
  - apply world_ok_ConnectDone.
  - apply world_ok_CacheAnswered.
  - apply world_ok_HandlesDone.
  - apply world_ok_Local.
Qed.

Lemma world_ok_history w hs : world_ok w → world_ok (history w hs).
Proof.
  revert w. induction hs as [|lh hs IH]; intros w Hw; [done|].
  apply IH. by apply world_ok_happen.
Qed.

(** ** One connection for a signature *)

(** The instances that resolve their connection through the cache under the
    signature [sg], in the order they were made. *)
Definition sharing (sg : signature) (l : list state) : list state :=
  filter (λ st, through_cache st = true ∧ signature_of st = sg) l.

Lemma filter_ext_in {A} (P Q : A → Prop) `{Pdec : !∀ x, Decision (P x)}
    `{Qdec : !∀ x, Decision (Q x)} (l : list A) :
  (∀ x, x ∈ l → P x ↔ Q x) → filter P l = filter Q l.
Proof.
  induction l as [|x l IH]; intros H; [done|].
  rewrite !filter_cons, IH by (intros y Hy; apply H; by right).
  destruct (H x) as [H1 H2]; [by left|].
  destruct (decide (P x)), (decide (Q x)); tauto.
Qed.

Lemma at_most_one_of {A B} `{EqDecision B} (f : A → B) (y : B) (l : list A) :
  NoDup (f <$> l) → length (filter (λ x, f x = y) l) ≤ 1.
Proof.
  induction l as [|x l IH]; [simpl; lia|].
  rewrite fmap_cons, NoDup_cons. intros [Hx Hnd]. rewrite filter_cons.
  destruct (decide (f x = y)) as [<-|_]; [|by apply IH].
  rewrite (filter_nil_intro (λ x0, f x0 = f x)); [simpl; lia|].
  intros z Hz Hfz. apply Hx. rewrite <- Hfz. by apply list_elem_of_fmap_2.
Qed.

Lemma of_res_inj {A} (r1 r2 : res A) : of_res r1 = of_res r2 → r1 = r2.
Proof. destruct r1, r2; simpl; congruence. Qed.

(** The slot of a signature, if it has one, and its users. *)
Lemma sharing_users w sg :
  world_ok w →
  (sg ∉ signatures (registry w)) ∧ sharing sg (instances w) = [] ∨
  ∃ idx e, registry w !! idx = Some e ∧ e_signature e = sg ∧
           (∀ e2, e2 ∈ registry w → e_signature e2 = sg → e2 = e) ∧
           sharing sg (instances w) = users idx (instances w).
Proof.
  intros (Hnd & Hall & _ & _). rewrite Forall_forall in Hall.
  destruct (decide (sg ∈ signatures (registry w))) as [Hin|Hout].
  - right. apply list_elem_of_fmap in Hin as (e & -> & Hin).
    apply list_elem_of_lookup in Hin as [idx He]. exists idx, e.
    assert (∀ j e2, registry w !! j = Some e2 →
      e_signature e2 = e_signature e → j = idx) as Hsame.
    { intros j e2 Hj Hsg.
      apply (NoDup_lookup (signatures (registry w)) j idx (e_signature e));
        [done|..]; unfold signatures; rewrite list_lookup_fmap.
      - rewrite Hj. simpl. by rewrite Hsg.
      - by rewrite He. }
    split; [done|]. split; [done|]. split.
    + intros e2 [j Hj]%list_elem_of_lookup Hsg.
      rewrite (Hsame j e2 Hj Hsg) in Hj. congruence.
    + apply filter_ext_in. intros st Hst.
      destruct (Hall st Hst) as [(_ & _ & Hthrough) Hreg].
      unfold is_user. split.
      * intros [Ht Hsg]. split; [done|].
        destruct (Hthrough Ht) as [[[j] Hj] _].
        destruct (Hreg _ Hj) as (e2 & He2 & Hsg2). simpl in He2.
        rewrite Hj. do 2 f_equal. apply (Hsame j e2 He2). congruence.
      * intros [Ht Hj]. split; [done|].
        destruct (Hreg _ Hj) as (e2 & He2 & Hsg2). simpl in He2. congruence.
  - left. split; [done|]. apply filter_nil_intro.
    intros st Hst [Ht Hsg].
    destruct (Hall st Hst) as [(_ & _ & Hthrough) Hreg].
    destruct (Hthrough Ht) as [[j Hj] _].
    destruct (Hreg _ Hj) as (e2 & He2 & Hsg2). apply Hout.
    rewrite <- Hsg, <- Hsg2. apply list_elem_of_fmap_2.
    by eapply list_elem_of_lookup_2.
Qed.

(** C4: whatever happens in the process, and for every signature [sg]:
    the registry holds at most one entry of that signature; at most one of
    the instances that share it has an unanswered call of
    [MongoClient.connect]; the first of them called it exactly once, its
    slot is not pending any more and is opening while the call is
    unanswered, and every other one never called it, holds the index of the
    same slot and waits for that slot's promise or is done; what the
    promise of [_resolveConnection] of any of them was settled with is the
    promise of the entry, so any two of them got the same [{db, client}] or
    the same rejection; and once the promise of the entry is settled, an
    instance that waits for it, made before or after, is settled with
    it. *)
Theorem cache_one_connect_per_signature hs sg :
  let w := history empty_world hs in
  let group := sharing sg (instances w) in
  length (filter (λ e, e_signature e = sg) (registry w)) ≤ 1 ∧
  length (filter (λ st, awaiting st = Some OnConnect) group) ≤ 1 ∧
  (∀ first others, group = first :: others →
     connects first = 1 ∧
     ∃ i e, registry w !! slot i = Some e ∧ e_signature e = sg ∧
       e_status e ≠ pending ∧
       (awaiting first = Some OnConnect → e_status e = opening) ∧
       Forall (λ st, cacheIndex st = Some i) group ∧
       Forall (λ st, connects st = 0 ∧
                     (awaiting st = Some (OnCache (Some i)) ∨
                      awaiting st = None)) others) ∧
  (∀ k r st, (k, r) ∈ observations w → instances w !! k = Some st →
     st ∈ group →
     ∃ e, e ∈ registry w ∧ e_signature e = sg ∧ of_res r = entry_promise e) ∧
  (∀ k1 r1 st1 k2 r2 st2,
     (k1, r1) ∈ observations w → instances w !! k1 = Some st1 → st1 ∈ group →
     (k2, r2) ∈ observations w → instances w !! k2 = Some st2 → st2 ∈ group →
     r1 = r2) ∧
  (∀ l k st j e, instances w !! k = Some st → st ∈ group →
     awaiting st = Some (OnCache j) →
     e ∈ registry w → e_signature e = sg → entry_promise e ≠ Pending →
     ∃ r, of_res r = entry_promise e ∧
          observations (happen w (l, CacheAnswered k))
          = observations w ++ [(k, r)] ∧
          instances (happen w (l, CacheAnswered k)) !! k
          = Some (settle l r st)).
Proof.
  intros w group.
  assert (world_ok w) as Hw by apply world_ok_history, world_ok_empty.
  pose proof Hw as (Hnd & Hall & _ & Hslots). rewrite Forall_forall in Hall.
  split; [by apply at_most_one_of|].
  destruct (sharing_users w sg Hw) as [[_ Hnil]|(idx & e & He & Hsg & Hone & Hus)].
  { unfold group. rewrite Hnil. split; [simpl; lia|].
    split; [done|].
    repeat split; intros; exfalso; eapply elem_of_nil; eassumption. }
  destruct (Hslots idx e He) as (Hpend & Hprof & Hfly & Hobs).
  assert (∀ st, st ∈ group → st ∈ instances w ∧ is_user idx st) as Hmember.
  { intros st Hst. unfold group in Hst. rewrite Hus in Hst.
    apply list_elem_of_filter in Hst. tauto. }
  assert (∀ k r st, (k, r) ∈ observations w → instances w !! k = Some st →
    st ∈ group → of_res r = entry_promise e) as Hsees.
  { intros k r st Hin Hk Hst. apply (Hobs k r st); [done..|].
    by apply Hmember. }
  split; [|split; [|split; [|split]]].
  - unfold group. rewrite Hus. unfold users. rewrite list_filter_filter.
    rewrite (list_filter_iff _ (is_opener idx))
      by (intros st; unfold is_opener; tauto).
    unfold in_flight in Hfly. rewrite Hfly. destruct (decide _); lia.
  - intros first others Hgroup.
    assert (users idx (instances w) = first :: others) as Hlist.
    { rewrite <- Hus. exact Hgroup. }
    assert (e_status e ≠ pending) as Hp.
    { intros Hp. specialize (Hpend Hp). by rewrite Hpend in Hlist. }
    destruct (Hprof Hp) as (zeros & Hz & Hzeros).
    rewrite Hlist, fmap_cons in Hz. injection Hz as Hfirst Hrest.
    split; [done|]. exists {| slot := idx |}, e.
    split; [done|]. split; [done|]. split; [done|].
    split; [|split].
    + intros Ha. destruct (Hmember first) as [Hin Hu].
      { rewrite Hgroup. by left. }
      apply list_elem_of_lookup in Hin as [k Hk].
      by apply (opener_opening w k first idx e).
    + apply Forall_forall. intros st Hst.
      by destruct (Hmember st Hst) as [_ [_ ?]].
    + rewrite <- Hrest, Forall_fmap in Hzeros.
      rewrite Forall_forall in Hzeros. apply Forall_forall. intros st Hst.
      specialize (Hzeros st Hst). simpl in Hzeros.
      destruct (Hmember st) as [Hin [Ht Hidx]].
      { rewrite Hgroup. by right. }
      destruct (Hall st Hin) as [(_ & _ & Hthrough) _].
      destruct (Hthrough Ht) as [_ Hcases]. rewrite Hidx in Hcases.
      split; [done|]. destruct Hcases as [?|[[_ ?]|[? _]]]; auto. lia.
  - intros k r st Hin Hk Hst. exists e. split; [|split; [done|]].
    + by eapply list_elem_of_lookup_2.
    + by apply (Hsees k r st).
  - intros k1 r1 st1 k2 r2 st2 Hin1 Hk1 Hst1 Hin2 Hk2 Hst2.
    apply of_res_inj.
    rewrite (Hsees k1 r1 st1), (Hsees k2 r2 st2); done.
  - intros l k st j e2 Hk Hst Ha He2 Hsg2 Hsettled.
    rewrite (Hone e2 He2 Hsg2) in *. clear e2 He2 Hsg2.
    destruct (Hmember st Hst) as [Hin [Ht Hidx]].
    destruct (Hall st Hin) as [(_ & _ & Hthrough) _].
    destruct (Hthrough Ht) as [_ [?|[[? _]|[Hj _]]]]; try congruence.
    rewrite Ha, Hidx in Hj. injection Hj as ->.
    assert (Cache_waitFor (Some {| slot := idx |}) (registry w)
            = entry_promise e) as Hwait.
    { unfold Cache_waitFor, Cache_get. simpl. by rewrite He. }
    unfold happen. simpl. rewrite Hk, Ha, Hwait.
    destruct (entry_promise e) as [|h|err] eqn:Hpr; [done|..].
    + exists (Ok h). split; [done|]. split; [done|]. simpl.
      apply list_lookup_insert_eq. by eapply lookup_lt_Some.
    + exists (Throw err). split; [done|]. split; [done|]. simpl.
      apply list_lookup_insert_eq. by eapply lookup_lt_Some.
Qed.

(** * More of the storage engine *)

(** ** What the upload pipeline leaves alone *)

(** The connection of the instance: everything but the table of listeners,
    the promises, the uploads and the log. *)
Definition station (st : state) :=
  (db st, client st, connected st, connecting st, configuration_ st,
   (caching st, cacheName st, cacheIndex st, error st, _legacy st),
   (subscriptions st, awaiting st, ticks st)).

Lemma station_emit s st : station (emit s st) = station st.
Proof.
  pose proof (core_emit s st) as H. unfold core in H. unfold station.
  injection H as -> -> -> -> -> -> -> -> -> -> -> -> -> _. done.
Qed.

Lemma station_finish_upload i r st : station (finish_upload i r st) = station st.
Proof.
  unfold finish_upload. destruct (uploads st !! i) as [u|]; [|done].
  destruct (settled (u_promise u)); [done|]. by destruct (u_cb u).
Qed.

Lemma station_abort i err st : station (abort i err st) = station st.
Proof. unfold abort. by rewrite station_finish_upload. Qed.

Lemma station_ready st : station (ready st).2 = station st.
Proof. unfold ready. destruct (error st); [done|]. by destruct (connected st). Qed.

Lemma station_fromStream_enter i st :
  station (fromStream_enter i st) = station st.
Proof.
  unfold fromStream_enter. destruct (connecting st) eqn:Hc; [|done].
  pose proof (station_ready st) as H. by destruct (ready st) as [p st1].
Qed.

Lemma station_resume i st : station (resume i st) = station st.
Proof.
  unfold resume. destruct (uploads st !! i) as [u|]; [|done].
  destruct (u_stage u) as [p|p| | | | | ]; try done;
    destruct (promises st !! p) as [[| |]|]; try done;
    by rewrite ?station_fromStream_enter, ?station_abort.
Qed.

Lemma station_fromStream f cb st : station (fromStream f cb st) = station st.
Proof. unfold fromStream. simpl. by rewrite station_fromStream_enter. Qed.

Lemma station_start_writer i streamOptions st :
  station (start_writer i streamOptions st) = station st.
Proof. unfold start_writer. simpl. by destruct (_legacy st). Qed.

Lemma station_generated i result rng oid st :
  station (generated i result rng oid st) = station st.
Proof.
  unfold generated. destruct (uploads st !! i) as [u|]; [|done].
  destruct (u_stage u); try done.
  destruct (res_bind _ _); [apply station_start_writer|apply station_abort].
Qed.

Lemma station_emitError i err st : station (emitError i err st) = station st.
Proof.
  unfold emitError. destruct (uploads st !! i) as [u|]; [|done].
  by rewrite station_finish_upload, station_emit.
Qed.

Lemma station_emitFile i f st : station (emitFile i f st) = station st.
Proof.
  unfold emitFile. destruct (uploads st !! i) as [u|]; [|done].
  by rewrite station_finish_upload, station_emit.
Qed.

Lemma station_notify i n st : station (notify i n st) = station st.
Proof.
  unfold notify. destruct (uploads st !! i) as [u|]; [|done].
  destruct n as [err|f|[err|]| |[err|] f], (u_stage u);
    rewrite ?station_emitError, ?station_emitFile; try done.
  all: try (destruct (_legacy st) eqn:Hleg;
            rewrite ?station_emitError, ?station_emitFile; by simpl).
  all: destruct (u_closing u);
    rewrite ?station_emitError, ?station_emitFile; done.
Qed.

(** The inputs of the upload pipeline, and those of the application that
    only attach a listener or ask for [ready]. *)
Definition of_pipeline (inp : input) : bool :=
  match inp with
  | CallReady | Attach _ _ _ | FromStream _ | Resume _ | Generated _ _ _ _
  | Notify _ _ => true
  | Settle _ | Tick | BackendEvent _ | HandleFile _ => false
  end.

Lemma station_step st l inp :
  of_pipeline inp = true → station (step st (l, inp)) = station st.
Proof.
  destruct inp; try done; intros _; unfold step; simpl.
  - apply station_ready.
  - by destruct only_once.
  - apply station_fromStream.
  - apply station_resume.
  - apply station_generated.
  - apply station_notify.
Qed.

(** ** Database, client and the flags *)

(** [st'] comes after [st] with the same handles and the same wait; the
    flags may have been set again from the state of the link. *)
Definition relinked (st st' : state) : Prop :=
  db st' = db st ∧ client st' = client st ∧ error st' = error st ∧
  awaiting st' = awaiting st ∧ ticks st' = ticks st ∧
  (connecting st' = true → connecting st = true) ∧
  (connected st' = true → connected st = true ∨ is_Some (db st)).

Lemma relinked_station st st' : station st' = station st → relinked st st'.
Proof.
  unfold station. intros H.
  injection H as Hdb Hcl Hc Hg _ _ _ _ Herr _ _ Ha Ht.
  unfold relinked. rewrite Hdb, Hcl, Hc, Hg, Herr, Ha, Ht. auto 10.
Qed.

Lemma relinked_trans st1 st2 st3 :
  relinked st1 st2 → relinked st2 st3 → relinked st1 st3.
Proof.
  intros (Hdb & Hcl & Herr & Ha & Ht & Hg & Hc)
         (Hdb' & Hcl' & Herr' & Ha' & Ht' & Hg' & Hc').
  unfold relinked. rewrite Hdb', Hcl', Herr', Ha', Ht'.
  repeat split; try done; [auto|].
  intros [H|H]%Hc'; [auto|]. right. by rewrite <- Hdb.
Qed.

Lemma relinked__updateConnectionStatus l st :
  relinked st (_updateConnectionStatus l st).
Proof.
  unfold _updateConnectionStatus, relinked.
  destruct (db st) as [d|] eqn:Hdb; [destruct (client st) as [c|] eqn:Hcl|];
    simpl; rewrite ?Hdb, ?Hcl; repeat split; try done; eauto.
Qed.

Lemma relinked_errEvent l err st : relinked st (errEvent l err st).
Proof.
  unfold errEvent.
  eapply relinked_trans; [apply (relinked__updateConnectionStatus l)|].
  apply relinked_station, station_emit.
Qed.

Lemma relinked_iter_errEvent l err k st :
  relinked st (Nat.iter k (errEvent l err) st).
Proof.
  induction k as [|k IH]; simpl; [by apply relinked_station|].
  eapply relinked_trans; [exact IH|apply relinked_errEvent].
Qed.

Lemma relinked__handleFile l f st : relinked st (_handleFile l f st).
Proof.
  unfold _handleFile. destruct (connecting st).
  - pose proof (station_ready st) as H. destruct (ready st) as [p st1].
    by apply relinked_station.
  - eapply relinked_trans; [apply (relinked__updateConnectionStatus l)|].
    destruct (connected _); apply relinked_station;
      [apply station_fromStream|done].
Qed.

Lemma relinked_step st l inp :
  match inp with Settle _ | Tick => False | _ => True end →
  relinked st (step st (l, inp)).
Proof.
  destruct inp; try done; intros _;
    try (by apply relinked_station, station_step).
  - apply relinked_iter_errEvent.
  - apply relinked__handleFile.
Qed.

(** How the handles and the flags of an instance hang together: while the
    connection attempt is under way there is neither database nor client
    and the instance is not connected; it is connecting only during the
    attempt; a database comes with a client and without an error; only an
    instance with a database is connected or has the [connection] event
    queued; and every [connection] event carried both handles. *)
Definition coherent (st : state) : Prop :=
  (is_Some (awaiting st) →
   db st = None ∧ client st = None ∧ connected st = false) ∧
  (connecting st = true → is_Some (awaiting st)) ∧
  (is_Some (db st) → is_Some (client st) ∧ error st = None) ∧
  (connected st = true → is_Some (db st)) ∧
  (ticks st ≠ [] → is_Some (db st)) ∧
  (∀ result, connection result ∈ emitted (log st) →
     is_Some (conn_db result) ∧ is_Some (conn_client result)).

Lemma coherent_relinked st st' :
  relinked st st' →
  (∃ es, log st' = log st ++ es ∧ outcomes (emitted es) = []) →
  coherent st → coherent st'.
Proof.
  intros (Hdb & Hcl & Herr & Ha & Ht & Hg & Hc) (es & Hlog & Hes)
         (H1 & H2 & H3 & H4 & H5 & H6).
  unfold coherent. rewrite Hdb, Hcl, Herr, Ha, Ht.
  split; [|split; [|split; [|split; [|split]]]]; try done.
  - intros Hw. destruct (H1 Hw) as (Hd & ? & Hn). split; [done|]. split; [done|].
    destruct (connected st') eqn:Hc'; [|done].
    destruct (Hc eq_refl) as [?|[d Hd']]; congruence.
  - auto.
  - intros [?|?]%Hc; auto.
  - intros result. rewrite Hlog, emitted_app.
    intros [Hin|Hin]%elem_of_app; [auto|].
    assert (connection result ∈ outcomes (emitted es)) as Habs
      by (by apply list_elem_of_filter).
    rewrite Hes in Habs. by apply elem_of_nil in Habs.
Qed.

Lemma _setDb_client l d c st st' :
  _setDb l d c st = (None, st') →
  is_Some (client st') ∧ client st' = (if c is Some _ then c else client st).
Proof.
  unfold _setDb. simpl.
  destruct c as [c|]; simpl; [|destruct (client st) eqn:Hcl]; try done.
  - intros [= <-]. unfold _updateConnectionStatus. simpl.
    by destruct (has_isConnected c).
  - intros [= <-]. unfold _updateConnectionStatus. simpl. rewrite Hcl. eauto.
Qed.

Lemma coherent__fail l err st :
  ticks st = [] → awaiting st = None →
  (∀ result, connection result ∈ emitted (log st) →
     is_Some (conn_db result) ∧ is_Some (conn_client result)) →
  coherent (_fail l err st).
Proof.
  intros Ht Ha H6.
  destruct (_fail_leaves l err st)
    as (He' & Hdb' & _ & Hc' & Hg' & Ha' & Ht' & _ & _ & _ & Hlog').
  unfold coherent. rewrite Hdb', Hc', Hg', Ha', Ha, Ht', Ht.
  split; [by intros [? ?]|]. split; [done|]. split; [by intros [? ?]|].
  split; [done|]. split; [done|].
  intros result. rewrite Hlog', emitted_app. simpl.
  rewrite emitted_deliveries.
  intros [Hin|Hin]%elem_of_app; [auto|].
  apply list_elem_of_singleton in Hin. done.
Qed.

Lemma coherent_settle l r st : sound st → coherent st → coherent (settle l r st).
Proof.
  intros (HK & HI & _) Hco. pose proof Hco as (H1 & H2 & H3 & H4 & H5 & H6).
  unfold settle. destruct (awaiting st) as [a|] eqn:Ha; [|done].
  destruct (H1 (ltac:(eauto))) as (Hdb & Hcl & Hc).
  unfold one_outcome in HI. rewrite Ha in HI.
  assert (ticks st = []) as Ht by (destruct (ticks st); [done|simpl in HI; lia]).
  assert (error st = None) as Herr.
  { destruct (error st) eqn:He; [|done]. destruct HK as (_ & _ & ?); congruence. }
  set (st0 := set_awaiting None st).
  destruct r as [h|err]; [|by apply coherent__fail].
  destruct (_setDb l (h_db h) (h_client h) st0) as [[err|] st1] eqn:Hset.
  - apply _setDb_throws in Hset as (_ & _ & _ & _ & Ha1 & _ & Ht1 & Hlog1).
    apply coherent__fail; [by rewrite Ht1|by rewrite Ha1|by rewrite Hlog1].
  - destruct (_setDb_client _ _ _ _ _ Hset) as [Hcl1 _].
    apply _setDb_returns in Hset
      as (_ & _ & He1 & Ha1 & _ & Ht1 & Hdb1 & Hg1 & Hlog1).
    unfold coherent. rewrite Ha1, Hg1, Hdb1, He1, Hlog1.
    split; [by intros [? ?]|]. split; [done|]. split; [done|].
    split; [eauto|]. split; [eauto|].
    intros result. rewrite emitted_app, app_nil_r. auto.
Qed.

Lemma coherent_run_tick st : coherent st → coherent (run_tick st).
Proof.
  intros (H1 & H2 & H3 & H4 & H5 & H6). unfold run_tick.
  destruct (ticks st) as [|[] rest] eqn:Ht; [done|].
  assert (is_Some (db st)) as Hdb by by apply H5.
  destruct (H3 Hdb) as [Hcl Herr].
  set (s := connection _). set (st0 := set_ticks rest st).
  pose proof (station_emit s st0) as Hst. unfold station in Hst.
  injection Hst as Hdb' Hcl' Hc' Hg' _ _ _ _ Herr' _ _ Ha' Ht'.
  unfold coherent. rewrite Hdb', Hcl', Hc', Hg', Herr', Ha', Ht'. simpl.
  split; [done|]. split; [done|]. split; [done|]. split; [done|].
  split; [done|].
  intros result. rewrite emitted_emit.
  intros [Hin|Hin]%elem_of_app; [auto|].
  apply list_elem_of_singleton in Hin. unfold s in Hin.
  injection Hin as ->. done.
Qed.

Lemma constructor_blank legacy cfg l c st c' :
  constructor legacy cfg l c = (Ok st, c') →
  ∃ st0 c0,
    (pristine st0 ∧ db st0 = None ∧ client st0 = None ∧
     connected st0 = false ∧ _legacy st0 = legacy ∧
     Some (configuration_ st0) = cfg) ∧
    _connect l c0 st0 = (Ok st, c').
Proof.
  unfold constructor. destruct cfg as [cfg|]; [|done].
  destruct (negb (has_url cfg) && negb _); [done|].
  match goal with
  | |- (let '(st, c) := ?x in _) = _ → _ => destruct x as [st0 c0] eqn:Hx
  end.
  intros H. exists st0, c0. split; [|done].
  destruct (has_url cfg); simpl in Hx.
  - destruct (Boolean_cache (cfg_cache cfg)); simpl in Hx.
    + destruct (Cache_initialize _ c) as [i c1]. injection Hx as <- <-.
      by repeat split.
    + injection Hx as <- <-. by repeat split.
  - injection Hx as <- <-. by repeat split.
Qed.

Lemma _resolveConnection_handles c st :
  let st' := (_resolveConnection c st).1 in
  db st' = db st ∧ client st' = client st ∧ connected st' = connected st ∧
  _legacy st' = _legacy st ∧ configuration_ st' = configuration_ st.
Proof.
  unfold _resolveConnection. simpl.
  repeat case_match; simpl; repeat split; eauto.
Qed.

Lemma coherent_constructor legacy cfg l c st c' :
  constructor legacy cfg l c = (Ok st, c') → coherent st.
Proof.
  intros (st0 & c0 & ((Herr & _ & _ & Ht & _ & Hlog & Ha) & Hdb & Hcl & Hc & _)
          & H)%constructor_blank.
  unfold _connect in H.
  assert (∀ stc, _resolveConnection c0 st0 = stc →
    (let '(st, c) := stc in (Ok st, c)) = (Ok st, c') → coherent st) as Hasync.
  { intros [st1 c1] Hr [= <- <-].
    pose proof (_resolveConnection_leaves c0 st0) as Hleaves.
    pose proof (_resolveConnection_handles c0 st0) as Hhandles.
    rewrite Hr in Hleaves, Hhandles. simpl in Hleaves, Hhandles.
    destruct Hleaves as (_ & _ & Herr1 & Ht1 & _ & Ha1 & _ & Hlog1).
    destruct Hhandles as (Hdb1 & Hcl1 & Hc1 & _).
    unfold coherent. rewrite Hdb1, Hcl1, Hc1, Ht1, Hdb, Hcl, Hc, Ht.
    split; [done|]. split; [done|]. split; [by intros [? ?]|].
    split; [done|]. split; [done|].
    intros result. destruct Hlog1 as [-> | ->]; rewrite ?emitted_app, Hlog;
      simpl; intros Hin; by apply elem_of_nil in Hin. }
  destruct (cfg_db (configuration_ st0)) as [[d|]|];
    try (by apply (Hasync (_resolveConnection c0 st0))).
  destruct (isPromise (cfg_client (configuration_ st0)));
    [by apply (Hasync (_resolveConnection c0 st0))|].
  match type of H with
  | match ?x with _ => _ end = _ => destruct x as [[err|] st1] eqn:Hset
  end; [done|]. injection H as -> ->.
  destruct (_setDb_client _ _ _ _ _ Hset) as [Hcl1 _].
  apply _setDb_returns in Hset
    as (_ & _ & He1 & Ha1 & _ & Ht1 & Hdb1 & Hg1 & Hlog1).
  unfold coherent. rewrite Ha1, Ha, Hg1, Hdb1, He1, Herr, Hlog1, Hlog.
  split; [by intros [? ?]|]. split; [done|]. split; [done|].
  split; [eauto|]. split; [eauto|].
  intros result Hin. by apply elem_of_nil in Hin.
Qed.

Lemma coherent_step st li : sound st → coherent st → coherent (step st li).
Proof.
  intros Hs Hco. destruct li as [l inp].
  assert (match inp with Settle _ | Tick => False | _ => True end →
          coherent (step st (l, inp))) as Hother.
  { intros Hinp. apply coherent_relinked with st; [by apply relinked_step| |done].
    assert (calm (λ _, False) st (step st (l, inp)))
      as (_ & _ & _ & _ & _ & _ & es & Hlog & Hes & _).
    { apply calm_step; [apply closed_False|]. destruct inp; auto. }
    by exists es. }
  destruct inp; try (by apply Hother).
  - by apply coherent_settle.
  - by apply coherent_run_tick.
Qed.

Lemma reachable_coherent st : reachable st → coherent st.
Proof.
  induction 1 as [legacy cfg l c st c' H|st li Hr IH].
  - by eapply coherent_constructor.
  - apply coherent_step; [by apply reachable_sound|done].
Qed.

(** X1: in every state of an instance, a database is held only together
    with a client and without an error; a connected instance holds both,
    and [ready] on it is fulfilled with both; every [connection] event that
    was emitted carried both; and a connecting instance has no database,
    is not connected and holds no error. *)
Theorem handles_come_together st :
  reachable st →
  (is_Some (db st) → is_Some (client st) ∧ error st = None) ∧
  (connected st = true →
   ∃ d c, db st = Some d ∧ client st = Some c ∧
          promises (ready st).2 !! (ready st).1
          = Some (Fulfilled (Conn (Some d) (Some c)))) ∧
  (∀ result, connection result ∈ emitted (log st) →
     is_Some (conn_db result) ∧ is_Some (conn_client result)) ∧
  (connecting st = true →
   db st = None ∧ connected st = false ∧ error st = None).
Proof.
  intros Hr. pose proof (reachable_coherent st Hr) as (H1 & H2 & H3 & H4 & _ & H6).
  destruct (reachable_sound st Hr) as (HK & _).
  split; [done|]. split; [|split; [done|]].
  - intros Hc. destruct (H4 Hc) as [d Hd].
    destruct (H3 (ltac:(eauto))) as [[c Hcl] Herr].
    exists d, c. split; [done|]. split; [done|].
    unfold ready. rewrite Herr, Hc, Hd, Hcl. simpl.
    by rewrite lookup_app_r, Nat.sub_diag.
  - intros Hg. destruct (H1 (H2 Hg)) as (Hd & _ & Hc).
    split; [done|]. split; [done|].
    destruct (error st) eqn:He; [|done].
    destruct HK as (_ & _ & Ha); [congruence|].
    destruct (H2 Hg) as [a Ha']. congruence.
Qed.

(** X2: a database that comes without a client is refused.  Given as [db]
    with no [client], the constructor throws the [TypeError] of
    [this.client.on]; and when the connection attempt of an instance ends
    with a database and no client, as it does when [MongoClient.connect]
    answers with a [Db], [_setDb] throws it and [_fail] makes it the error
    of the instance: [connectionFailed] is emitted with it, and the
    instance is left without database and not connected. *)
Theorem database_without_client_refused :
  (∀ legacy cfg l c d,
     cfg_db cfg = Some (Given d) → cfg_client cfg = None →
     (constructor legacy (Some cfg) l c).1 = Throw TypeError_on_null) ∧
  (∀ d c st,
     (_createConnection (Ok (DbOf d)) c st).1
     = Ok {| h_db := d; h_client := None |}) ∧
  (∀ st l d,
     reachable st → is_Some (awaiting st) →
     let st' := settle l (Ok {| h_db := d; h_client := None |}) st in
     error st' = Some TypeError_on_null ∧ db st' = None ∧
     connected st' = false ∧
     emitted (log st')
     = emitted (log st) ++ [connectionFailed TypeError_on_null]).
Proof.
  split; [|split].
  - intros legacy cfg l c d Hdb Hcl. unfold constructor.
    rewrite Hdb. rewrite bool_decide_eq_true_2 by eauto.
    rewrite andb_false_r.
    match goal with
    | |- (let '(st, c) := ?x in _).1 = _ => destruct x as [st0 c0] eqn:Hx
    end.
    assert (configuration_ st0 = cfg ∧ client st0 = None) as [Hcfg Hnone].
    { destruct (has_url cfg); simpl in Hx.
      - destruct (Boolean_cache (cfg_cache cfg)); simpl in Hx.
        + destruct (Cache_initialize _ c) as [i c1]. by injection Hx as <- <-.
        + by injection Hx as <- <-.
      - by injection Hx as <- <-. }
    unfold _connect. rewrite Hcfg, Hdb, Hcl. simpl.
    unfold _setDb. simpl. by rewrite Hnone.
  - done.
  - intros st l d Hr [a Ha] st'.
    destruct (reachable_coherent st Hr) as (H1 & _).
    destruct (H1 (ltac:(eauto))) as (_ & Hcl & _).
    assert (st' = _fail l TypeError_on_null
                    (set_db (Some (getDatabase d))
                       (set_connecting false (set_awaiting None st)))) as ->.
    { unfold st', settle. rewrite Ha. unfold _setDb. simpl. by rewrite Hcl. }
    destruct (_fail_leaves l TypeError_on_null
                (set_db (Some (getDatabase d))
                   (set_connecting false (set_awaiting None st))))
      as (He & Hdb & _ & Hc & _ & _ & _ & _ & _ & _ & Hlog).
    split; [done|]. split; [done|]. split; [done|].
    rewrite Hlog, emitted_app. simpl. by rewrite emitted_deliveries.
Qed.

(** X3: [ready] on an instance whose connection attempt is over, that holds
    no error and is not connected, as it is after the link dropped,
    returns a promise that stays pending whatever reaches the instance
    afterwards: neither [connection] nor [connectionFailed] is emitted
    again. *)
Theorem ready_pends_after_disconnect st ins :
  reachable st →
  awaiting st = None → ticks st = [] →
  error st = None → connected st = false →
  let st' := run (ready st).2 ins in
  promises st' !! (ready st).1 = Some Pending ∧
  outcomes (emitted (log st')) = outcomes (emitted (log st)).
Proof.
  intros Hr Ha Ht Herr Hc st'.
  destruct (reachable_sound st Hr) as (_ & HI & Hwf).
  destruct (ready_waits st Hwf Herr Hc) as (_ & Htr & Hlog).
  destruct (tracks_run _ _ _ ins Htr) as (news & Hnews & Htr').
  fold st' in Hnews, Htr'. rewrite Hlog in Hnews.
  assert (reachable st') as Hr'.
  { apply reachable_run.
    change (ready st).2
      with (step st ({| client_isConnected := true;
                        topology_isConnected := true |}, CallReady)).
    by constructor. }
  destruct (reachable_sound st' Hr') as (_ & HI' & _).
  unfold one_outcome in HI, HI'. rewrite Ha, Ht in HI. simpl in HI.
  assert (news = []) as ->.
  { rewrite Hnews, length_app, HI in HI'.
    destruct news; [done|]. simpl in HI'. destruct (awaiting st'); lia. }
  rewrite app_nil_r in Hnews. split; [|done].
  by destruct Htr' as (_ & ? & _).
Qed.

(** ** The end of an upload *)

(** What [cb] was called with, call by call. *)
Definition callbacks (es : list effect) : list (res object) :=
  omap (λ e, match e with Callback r => Some r | _ => None end) es.

Lemma callbacks_app es1 es2 :
  callbacks (es1 ++ es2) = callbacks es1 ++ callbacks es2.
Proof. apply omap_app. Qed.

Lemma callbacks_deliveries s snapshot : callbacks (deliveries s snapshot) = [].
Proof.
  induction snapshot as [|r snapshot IH]; [done|].
  rewrite deliveries_cons. by destruct (fn r).
Qed.

Lemma callbacks_emit s st : callbacks (log (emit s st)) = callbacks (log st).
Proof.
  rewrite log_emit, callbacks_app. simpl.
  by rewrite callbacks_deliveries, app_nil_r.
Qed.

(** From [st] to [st'] the promise of the upload [i] stayed as it was and
    [cb] was not called, or the promise was pending and was settled, and
    [cb], if the upload has one, was called once with the same result. *)
Definition settles_once (i : nat) (st st' : state) : Prop :=
  ∀ u, uploads st !! i = Some u →
  ∃ u', uploads st' !! i = Some u' ∧ u_cb u' = u_cb u ∧
    (u_promise u' = u_promise u ∧ callbacks (log st') = callbacks (log st)
     ∨ u_promise u = Pending ∧
       ∃ r, u_promise u' = of_res r ∧
            callbacks (log st')
            = callbacks (log st) ++ (if u_cb u then [r] else [])).

Lemma settles_once_same i st st' :
  uploads st' !! i = uploads st !! i →
  callbacks (log st') = callbacks (log st) →
  settles_once i st st'.
Proof. intros Hu Hlog u H. exists u. rewrite Hu. auto. Qed.

Lemma settles_once_refl i st : settles_once i st st.
Proof. by apply settles_once_same. Qed.

Lemma settles_once_trans i st1 st2 st3 :
  settles_once i st1 st2 → settles_once i st2 st3 → settles_once i st1 st3.
Proof.
  intros H12 H23 u Hu.
  destruct (H12 u Hu) as (u2 & Hu2 & Hcb2 & H2).
  destruct (H23 u2 Hu2) as (u3 & Hu3 & Hcb3 & H3).
  exists u3. split; [done|]. split; [congruence|].
  destruct H2 as [[Hp2 Hl2]|(Hp & r & Hp2 & Hl2)].
  - destruct H3 as [[Hp3 Hl3]|(Hp & r & Hp3 & Hl3)].
    + left. split; congruence.
    + right. split; [congruence|]. exists r. split; [done|].
      by rewrite Hl3, Hl2, Hcb2.
  - destruct H3 as [[Hp3 Hl3]|(Hp' & _)].
    + right. split; [done|]. exists r. split; congruence.
    + rewrite Hp2 in Hp'. by destruct r.
Qed.

Lemma settles_once_alter_upload f i st :
  (∀ u, u_cb (f u) = u_cb u ∧ u_promise (f u) = u_promise u) →
  settles_once i st (alter_upload f i st).
Proof.
  intros Hf u Hu. exists (f u). simpl.
  rewrite list_lookup_alter_eq, Hu. destruct (Hf u) as [? ?]. auto.
Qed.

Lemma settles_once_add_log e i st :
  match e with Callback _ => False | _ => True end →
  settles_once i st (add_log e st).
Proof.
  intros He. apply settles_once_same; [done|]. simpl.
  rewrite callbacks_app. destruct e; try done; by rewrite app_nil_r.
Qed.

Lemma settles_once_emit s i st : settles_once i st (emit s st).
Proof.
  apply settles_once_same; [by rewrite uploads_emit|apply callbacks_emit].
Qed.

Lemma settles_once_finish_upload i r st : settles_once i st (finish_upload i r st).
Proof.
  intros u Hu. unfold finish_upload. rewrite Hu.
  destruct (settled (u_promise u)) eqn:Hs; [exists u; auto|].
  exists (set_u_promise (of_res r) u).
  assert (u_promise u = Pending) as Hp by by destruct (u_promise u).
  destruct (u_cb u) eqn:Hcb; simpl; rewrite list_lookup_alter_eq, Hu; simpl.
  - split; [done|]. split; [done|]. right. split; [done|]. exists r.
    by rewrite callbacks_app.
  - split; [done|]. split; [done|]. right. split; [done|]. exists r.
    by rewrite app_nil_r.
Qed.

Lemma settles_once_abort i err st : settles_once i st (abort i err st).
Proof.
  unfold abort. eapply settles_once_trans; [|apply settles_once_finish_upload].
  by apply settles_once_alter_upload.
Qed.

Lemma settles_once_emitError i err st : settles_once i st (emitError i err st).
Proof.
  unfold emitError. destruct (uploads st !! i) as [u|] eqn:Hu;
    [|apply settles_once_refl].
  eapply settles_once_trans; [apply settles_once_emit|].
  apply settles_once_finish_upload.
Qed.

Lemma settles_once_emitFile i f st : settles_once i st (emitFile i f st).
Proof.
  unfold emitFile. destruct (uploads st !! i) as [u|] eqn:Hu;
    [|apply settles_once_refl].
  eapply settles_once_trans; [apply settles_once_emit|].
  apply settles_once_finish_upload.
Qed.

Lemma settles_once_altered f i st st' :
  (∀ u, u_cb (f u) = u_cb u ∧ u_promise (f u) = u_promise u) →
  settles_once i (alter_upload f i st) st' → settles_once i st st'.
Proof.
  intros Hf H. eapply settles_once_trans; [|exact H].
  by apply settles_once_alter_upload.
Qed.

Lemma settles_once_logged e i st st' :
  match e with Callback _ => False | _ => True end →
  settles_once i (add_log e st) st' → settles_once i st st'.
Proof.
  intros He H. eapply settles_once_trans; [|exact H].
  by apply settles_once_add_log.
Qed.

Lemma settles_once_notify i n st : settles_once i st (notify i n st).
Proof.
  unfold notify. destruct (uploads st !! i) as [u|]; [|apply settles_once_refl].
  destruct n as [err|f|[err|]| |err f].
  - destruct (u_stage u); try apply settles_once_refl;
      apply settles_once_emitError.
  - destruct (u_stage u); try apply settles_once_refl.
    destruct (_legacy st); [apply settles_once_refl|apply settles_once_emitFile].
  - destruct (u_stage u); try apply settles_once_refl.
    apply (settles_once_altered (set_stage OpenFailed)); [done|].
    apply settles_once_emitError.
  - destruct (u_stage u); try apply settles_once_refl.
    apply (settles_once_altered (set_stage Piping)); [done|].
    apply (settles_once_logged (WriterOn i "end")); [done|].
    by apply settles_once_add_log.
  - destruct (u_stage u); try apply settles_once_refl.
    destruct (_legacy st); [|apply settles_once_refl].
    apply (settles_once_logged (StoreClose i)); [done|].
    by apply settles_once_alter_upload.
  - destruct (u_stage u);
      (destruct (u_closing u) as [|k]; [apply settles_once_refl|];
       apply (settles_once_altered (set_closing k)); [done|];
       destruct err; [apply settles_once_emitError|apply settles_once_emitFile]).
Qed.

Lemma settles_once_ready i st : settles_once i st (ready st).2.
Proof.
  apply settles_once_same; unfold ready; destruct (error st); try done;
    by destruct (connected st).
Qed.

Lemma settles_once_fromStream_enter i st :
  settles_once i st (fromStream_enter i st).
Proof.
  unfold fromStream_enter. destruct (connecting st).
  - pose proof (settles_once_ready i st) as H. destruct (ready st) as [p st1].
    eapply settles_once_trans; [exact H|by apply settles_once_alter_upload].
  - by apply settles_once_alter_upload.
Qed.

Lemma settles_once_resume i st : settles_once i st (resume i st).
Proof.
  unfold resume. destruct (uploads st !! i) as [u|]; [|apply settles_once_refl].
  destruct (u_stage u) as [p|p| | | | | ]; try apply settles_once_refl;
    destruct (promises st !! p) as [[| |]|]; try apply settles_once_refl;
    auto using settles_once_fromStream_enter, settles_once_abort.
  by apply settles_once_alter_upload.
Qed.

Lemma settles_once_start_writer i streamOptions st :
  settles_once i st (start_writer i streamOptions st).
Proof.
  unfold start_writer.
  apply (settles_once_altered (set_u_options streamOptions)); [done|].
  apply (settles_once_logged (CreateStream i streamOptions)); [done|].
  apply (settles_once_logged (WriterOn i "error")); [done|].
  destruct (_legacy _).
  - apply (settles_once_logged (StoreOpen i)); [done|].
    by apply settles_once_alter_upload.
  - apply (settles_once_logged (WriterOn i "finish")); [done|].
    apply (settles_once_logged (Pump i)); [done|].
    by apply settles_once_alter_upload.
Qed.

Lemma settles_once_generated i result rng oid st :
  settles_once i st (generated i result rng oid st).
Proof.
  unfold generated. destruct (uploads st !! i) as [u|]; [|apply settles_once_refl].
  destruct (u_stage u); try apply settles_once_refl.
  destruct (res_bind _ _);
    [apply settles_once_start_writer|apply settles_once_abort].
Qed.

(** The inputs that belong to the upload [i]: the reaction to the promise
    of [ready] it waits for, the answer of the naming function, and what
    its writer reports. *)
Definition of_upload (i : nat) (inp : input) : Prop :=
  match inp with
  | Resume j | Generated j _ _ _ | Notify j _ => j = i
  | _ => False
  end.

(** X4: whatever of an upload's own inputs reaches the instance, in any
    order and number, the promise of the upload is settled at most once and
    stays as it was settled, and [cb] is called at most once, with what the
    promise was settled with. *)
Theorem upload_settles_once st i u ins :
  uploads st !! i = Some u →
  Forall (λ li, of_upload i li.2) ins →
  let st' := run st ins in
  ∃ u', uploads st' !! i = Some u' ∧
    (u_promise u' = u_promise u ∧ callbacks (log st') = callbacks (log st)
     ∨ u_promise u = Pending ∧
       ∃ r, u_promise u' = of_res r ∧
            callbacks (log st')
            = callbacks (log st) ++ (if u_cb u then [r] else [])).
Proof.
  intros Hu Hins st'.
  assert (settles_once i st st') as H.
  { unfold st'. clear Hu st'. revert st.
    induction Hins as [|[l inp] ins Hinp _ IH]; intros st;
      [apply settles_once_refl|].
    change (run st ((l, inp) :: ins)) with (run (step st (l, inp)) ins).
    eapply settles_once_trans; [|apply IH].
    destruct inp; simpl in Hinp; try done; subst; unfold step; simpl.
    - apply settles_once_resume.
    - apply settles_once_generated.
    - apply settles_once_notify. }
  destruct (H u Hu) as (u' & Hu' & _ & H'). by exists u'.
Qed.

(** X5: [emitError] stays attached to the writer.  Every error the writer
    of an upload reports is emitted as [streamError] with the settings of
    the upload, the second and later ones as well; the promise of the
    upload is rejected with the first. *)
Theorem every_writer_error_is_emitted st i u streamOptions errs :
  uploads st !! i = Some u →
  u_promise u = Pending →
  let st' :=
    notify_all i (start_writer i streamOptions st) (writer_error <$> errs) in
  emitted (log st')
  = emitted (log st) ++ ((λ err, streamError err streamOptions) <$> errs) ∧
  u_promise <$> uploads st' !! i
  = Some (match errs with [] => Pending | err :: _ => Rejected err end).
Proof.
  intros Hu Hp st'.
  destruct (start_writer_effect i streamOptions st u Hu)
    as (He0 & _ & u0 & Hu0 & Hp0 & Ho0 & _ & Hst0).
  assert (∀ st1 u1,
    uploads st1 !! i = Some u1 → u_options u1 = streamOptions →
    u_stage u1 = Opening ∨ u_stage u1 = Piping →
    emitted (log (notify_all i st1 (writer_error <$> errs)))
    = emitted (log st1) ++ ((λ err, streamError err streamOptions) <$> errs) ∧
    u_promise <$> uploads (notify_all i st1 (writer_error <$> errs)) !! i
    = Some (if settled (u_promise u1) then u_promise u1
            else match errs with [] => Pending | err :: _ => Rejected err end))
    as Hall.
  { clear. induction errs as [|err errs IH]; intros st1 u1 Hu1 Ho1 Hs1.
    - simpl. rewrite app_nil_r, Hu1. simpl. split; [done|].
      by destruct (u_promise u1).
    - change (notify_all i st1 (writer_error <$> err :: errs))
        with (notify_all i (notify i (writer_error err) st1)
                (writer_error <$> errs)).
      assert (notify i (writer_error err) st1 = emitError i err st1) as ->.
      { unfold notify. rewrite Hu1. by destruct Hs1 as [-> | ->]. }
      destruct (emitError_effect i err st1 u1 Hu1) as (He & Hu' & _).
      assert (u_options (if settled (u_promise u1) then u1
                         else set_u_promise (Rejected err) u1) = streamOptions)
        as Ho' by by destruct (settled (u_promise u1)).
      assert (u_stage (if settled (u_promise u1) then u1
                       else set_u_promise (Rejected err) u1) = Opening
              ∨ u_stage (if settled (u_promise u1) then u1
                         else set_u_promise (Rejected err) u1) = Piping)
        as Hs' by by destruct (settled (u_promise u1)).
      destruct (IH _ _ Hu' Ho' Hs') as [He' Hp'].
      rewrite He', He, Ho1, Hp', <- app_assoc. split; [done|].
      destruct (settled (u_promise u1)) eqn:Hs; [by rewrite Hs|].
      simpl. done. }
  assert (u_stage u0 = Opening ∨ u_stage u0 = Piping) as Hs0
    by (rewrite Hst0; destruct (_legacy st); auto).
  destruct (Hall _ u0 Hu0 Ho0 Hs0) as [He Hpr].
  unfold st'. rewrite He, He0, Hpr, Hp0, Hp. done.
Qed.

Lemma abort_effect i err st u :
  uploads st !! i = Some u → u_promise u = Pending →
  log (abort i err st)
  = log st ++ (if u_cb u then [Callback (Throw err)] else []) ∧
  listeners (abort i err st) = listeners st ∧
  promises (abort i err st) = promises st.
Proof.
  intros Hu Hp. unfold abort, finish_upload. simpl.
  rewrite list_lookup_alter_eq, Hu. simpl. rewrite Hp. simpl.
  destruct (u_cb u); simpl; by rewrite ?app_nil_r.
Qed.

(** X6: an upload that ends before its writer is made ends without an
    event.  When the naming function throws or rejects, when its generator
    has ended, when what it gave has a type that is not allowed, or when
    the random bytes for the filename cannot be had, the promise of the
    upload is rejected with that error and [cb], if the upload has one, is
    called with it; nothing is emitted, [streamError] neither, no writer is
    made, and the instance is left as it was. *)
Theorem naming_failure_is_silent :
  (∀ st i u result rng oid err,
     uploads st !! i = Some u → u_stage u = Generating →
     u_promise u = Pending →
     (try fileSettings ← _generate st result;
      streamOptions_of rng oid (u_file u) fileSettings) = Throw err →
     let st' := generated i result rng oid st in
     log st' = log st ++ (if u_cb u then [Callback (Throw err)] else []) ∧
     emitted (log st') = emitted (log st) ∧
     u_promise <$> uploads st' !! i = Some (Rejected err) ∧
     station st' = station st ∧ listeners st' = listeners st) ∧
  (∀ st err v,
     cfg_file (configuration_ st) = true →
     _generate st (Returned (Throw err)) = Throw err ∧
     _generate st (Yielded false (Throw err)) = Throw err ∧
     _generate st (Yielded true v)
     = Throw (new_Error "Generator ended unexpectedly")) ∧
  (∀ err oid descriptor fileSettings settings,
     fileSettings_to_settings fileSettings = Ok settings →
     truthy (get settings "filename") = false →
     streamOptions_of (EntropyFails err) oid descriptor fileSettings
     = Throw err).
Proof.
  split; [|split].
  - intros st i u result rng oid err Hu Hst Hp Hbad st'.
    assert (st' = abort i err st) as ->.
    { unfold st', generated. by rewrite Hu, Hst, Hbad. }
    destruct (abort_effect i err st u Hu Hp) as (Hlog & Hl & _).
    split; [done|]. split; [|split; [|split; [|done]]].
    + rewrite Hlog, emitted_app. destruct (u_cb u); by rewrite app_nil_r.
    + by apply abort_rejects with u.
    + apply station_abort.
  - intros st err v Hf. unfold _generate. by rewrite Hf.
  - intros err oid descriptor fileSettings settings Hs Hname.
    unfold streamOptions_of. rewrite Hs. simpl.
    unfold _mergeProps. by rewrite read_plain, Hname.
Qed.

(** X7: [fromStream] does not ask whether the instance is connected.  On
    an instance that holds its database, [fromStream] goes on to the naming
    function at once, and when that answers with settings the writer is
    made, on an instance that lost its link ([connected] is [false]) as on
    a connected one; the connection of the instance is not touched. *)
Theorem fromStream_checks_no_connection
    st l l' f result rng oid fileSettings conf :
  reachable st → is_Some (db st) →
  _generate st result = Ok fileSettings →
  streamOptions_of rng oid f fileSettings = Ok conf →
  let i := length (uploads st) in
  let st1 := step st (l, FromStream f) in
  let st2 := step st1 (l', Generated i result rng oid) in
  log st1 = log st ∧
  (∃ rest,
     log st2 = log st ++ CreateStream i conf :: WriterOn i "error" :: rest) ∧
  station st2 = station st.
Proof.
  intros Hr Hdb Hgen Hconf i st1 st2.
  destruct (reachable_coherent st Hr) as (H1 & H2 & _).
  assert (connecting st = false) as Hc.
  { destruct (connecting st) eqn:Hc; [|done].
    destruct (H1 (H2 eq_refl)) as (Hnone & _).
    rewrite Hnone in Hdb. by destruct Hdb. }
  assert (st1 = alter_upload (set_stage Generating) i
                  (new_upload f false Generating st).2) as Hst1.
  { unfold st1, step, fromStream, fromStream_enter. simpl. by rewrite Hc. }
  assert (uploads st1 !! i
          = Some {| u_file := f; u_cb := false; u_stage := Generating;
                    u_options := ∅; u_closing := 0; u_promise := Pending |})
    as Hu1.
  { rewrite Hst1. simpl. rewrite list_lookup_alter_eq.
    by rewrite lookup_app_r, Nat.sub_diag. }
  assert (st2 = start_writer i conf st1) as Hst2.
  { unfold st2, step, generated. simpl. rewrite Hu1. simpl.
    assert (_generate st1 result = Ok fileSettings) as ->
      by by rewrite Hst1.
    simpl. by rewrite Hconf. }
  split; [by rewrite Hst1|]. split.
  - destruct (log_start_writer i conf st1) as (rest & Hlog & _).
    exists rest. rewrite Hst2, Hlog. by rewrite Hst1.
  - rewrite Hst2, station_start_writer. by rewrite Hst1.
Qed.

(** X8: an instance calls [MongoClient.connect] at most once, in its
    constructor, and exactly when it is left waiting for the answer; an
    instance that was given a [db] never calls it; and nothing that reaches
    the instance afterwards makes it connect again. *)
Theorem connects_once_for_all legacy cfg l c st c' ins :
  constructor legacy cfg l c = (Ok st, c') →
  connects st = (if decide (awaiting st = Some OnConnect) then 1 else 0) ∧
  (is_Some (cfg_db (configuration_ st)) → connects st = 0) ∧
  connects (run st ins) = connects st.
Proof.
  intros Hnew. split; [|split].
  - apply constructor_blank in Hnew
      as (st0 & c0 & ((_ & _ & _ & _ & _ & Hlog & Ha) & _) & H).
    unfold _connect in H.
    assert (∀ stc, _resolveConnection c0 st0 = stc →
      (let '(st, c) := stc in (Ok st, c)) = (Ok st, c') →
      connects st = (if decide (awaiting st = Some OnConnect) then 1 else 0))
      as Hasync.
    { intros [st1 c1] Hr [= <- <-]. revert Hr.
      unfold _resolveConnection, connects. simpl.
      repeat case_match; intros [= <- <-]; simpl; by rewrite Hlog. }
    destruct (cfg_db (configuration_ st0)) as [[d|]|];
      try (by apply (Hasync (_resolveConnection c0 st0))).
    destruct (isPromise (cfg_client (configuration_ st0)));
      [by apply (Hasync (_resolveConnection c0 st0))|].
    match type of H with
    | match ?x with _ => _ end = _ => destruct x as [[err|] st1] eqn:Hset
    end; [done|]. injection H as -> ->.
    apply _setDb_returns in Hset as (_ & _ & _ & Ha1 & _ & _ & _ & _ & Hlog1).
    unfold connects. rewrite Hlog1, Hlog, Ha1, Ha. done.
  - intros Hdb.
    apply constructor_blank in Hnew
      as (st0 & c0 & ((_ & _ & _ & _ & _ & Hlog & Ha) & _) & H).
    unfold _connect in H.
    assert (∀ stc, _resolveConnection c0 st0 = stc →
      (let '(st, c) := stc in (Ok st, c)) = (Ok st, c') →
      connects st = 0) as Hasync.
    { intros [st1 c1] Hr [= <- <-].
      pose proof (_resolveConnection_handles c0 st0) as Hh.
      rewrite Hr in Hh. simpl in Hh. destruct Hh as (_ & _ & _ & _ & Hcfg).
      rewrite Hcfg in Hdb. revert Hr.
      unfold _resolveConnection, connects. simpl.
      rewrite bool_decide_eq_true_2 by done.
      intros [= <- <-]. simpl. by rewrite Hlog. }
    destruct (cfg_db (configuration_ st0)) as [[d|]|] eqn:Hd;
      try (by apply (Hasync (_resolveConnection c0 st0))).
    destruct (isPromise (cfg_client (configuration_ st0)));
      [by apply (Hasync (_resolveConnection c0 st0))|].
    match type of H with
    | match ?x with _ => _ end = _ => destruct x as [[err|] st1] eqn:Hset
    end; [done|]. injection H as -> ->.
    apply _setDb_returns in Hset as (_ & _ & _ & _ & _ & _ & _ & _ & Hlog1).
    unfold connects. by rewrite Hlog1, Hlog.
  - clear Hnew. revert st. induction ins as [|[l0 inp] ins IH]; intros st; [done|].
    change (run st ((l0, inp) :: ins)) with (run (step st (l0, inp)) ins).
    rewrite IH. destruct (is_Settle inp) eqn:Hinp.
    + destruct inp; try done. unfold step. simpl.
      by destruct (evolves_settle l0 r st) as [(_ & _ & _ & _ & ?) _].
    + by destruct (evolves_step st l0 inp Hinp) as [(_ & _ & _ & _ & ?) _].
Qed.

(** X9: an instance made without cache keeps to itself.  Its constructor
    leaves the registry as it is and the instance without index; when no
    [db] was given it calls [MongoClient.connect] itself; and whatever the
    answer, [_createConnection] leaves the registry as it is. *)
Theorem uncached_instances_connect_alone legacy cfg l c st c' :
  constructor legacy (Some cfg) l c = (Ok st, c') →
  has_url cfg && Boolean_cache (cfg_cache cfg) = false →
  c' = c ∧ caching st = false ∧ cacheIndex st = None ∧
  (cfg_db cfg = None → awaiting st = Some OnConnect ∧ connects st = 1) ∧
  ∀ answer c2, (_createConnection answer c2 st).2 = c2.
Proof.
  intros Hnew Hno. unfold constructor in Hnew.
  destruct (negb (has_url cfg) && negb _); [done|].
  match type of Hnew with
  | (let '(st, c) := ?x in _) = _ => destruct x as [st0 c0] eqn:Hx
  end.
  assert (c0 = c ∧ caching st0 = false ∧ cacheIndex st0 = None ∧
          log st0 = [] ∧ configuration_ st0 = cfg ∧ client st0 = None)
    as (-> & Hca & Hci & Hlog & Hcfg & Hcl).
  { destruct (has_url cfg); simpl in Hx, Hno.
    - rewrite Hno in Hx. simpl in Hx. by injection Hx as <- <-.
    - by injection Hx as <- <-. }
  unfold _connect in Hnew.
  assert (∀ stc, _resolveConnection c st0 = stc →
    (let '(st, c) := stc in (Ok st, c)) = (Ok st, c') →
    c' = c ∧ caching st = false ∧ cacheIndex st = None ∧
    (cfg_db cfg = None → awaiting st = Some OnConnect ∧ connects st = 1) ∧
    ∀ answer c2, (_createConnection answer c2 st).2 = c2) as Hasync.
  { intros [st1 c1] Hr [= <- <-]. revert Hr.
    unfold _resolveConnection, connects. simpl. rewrite Hca, Hcfg. simpl.
    destruct (bool_decide (is_Some (cfg_db cfg))) eqn:Hdb;
      intros [= <- <-]; simpl; rewrite ?Hlog.
    - split; [done|]. split; [done|]. split; [done|]. split.
      + intros Hnone. rewrite Hnone in Hdb.
        apply bool_decide_eq_true_1 in Hdb. by destruct Hdb.
      + intros [got|err] c2; unfold _createConnection; simpl;
          by rewrite ?Hca, ?Hci.
    - split; [done|]. split; [done|]. split; [done|]. split; [done|].
      intros [got|err] c2; unfold _createConnection; simpl;
        by rewrite ?Hca, ?Hci. }
  rewrite Hcfg in Hnew.
  destruct (cfg_db cfg) as [[d|]|] eqn:Hd;
    try (by apply (Hasync (_resolveConnection c st0))).
  destruct (isPromise (cfg_client cfg));
    [by apply (Hasync (_resolveConnection c st0))|].
  match type of Hnew with
  | match ?x with _ => _ end = _ => destruct x as [[err|] st1] eqn:Hset
  end; [done|]. injection Hnew as -> ->.
  pose proof (evolves__setDb l d
    match cfg_client cfg with Some (Given cl) => Some cl | _ => None end st0)
    as Hev.
  rewrite Hset in Hev. simpl in Hev. destruct Hev as (_ & Hca1 & _ & Hci1 & _).
  split; [done|]. split; [congruence|]. split; [congruence|]. split; [done|].
  intros [got|err] c2; unfold _createConnection; simpl;
    by rewrite ?Hca1, ?Hci1, ?Hca, ?Hci.
Qed.

(** ** Uploads that arrive during the connection attempt *)

(** The upload [_handleFile] makes while the instance is connecting. *)
Definition queued (f : File) (p : nat) : upload :=
  {| u_file := Some f; u_cb := true; u_stage := Queued p; u_options := ∅;
     u_closing := 0; u_promise := Pending |}.

Lemma _handleFile_queues st l f :
  reachable st → connecting st = true →
  let p := length (promises st) in
  let st1 := _handleFile l f st in
  st1 = set_uploads (uploads (ready st).2 ++ [queued f p]) (ready st).2 ∧
  uploads st1 = uploads st ++ [queued f p] ∧
  log st1 = log st ∧ station st1 = station st ∧
  is_Some (awaiting st) ∧ ticks st = [] ∧
  tracks p None st1.
Proof.
  intros Hr Hg p st1.
  destruct (reachable_coherent st Hr) as (H1 & H2 & _).
  destruct (reachable_sound st Hr) as (HK & HI & Hwf).
  pose proof (H2 Hg) as Ha. destruct (H1 Ha) as (_ & _ & Hc).
  assert (error st = None) as Herr.
  { destruct (error st) eqn:He; [|done].
    destruct HK as (_ & _ & Ha'); [congruence|].
    destruct Ha as [a Ha]. congruence. }
  assert (ticks st = []) as Ht.
  { unfold one_outcome in HI. destruct Ha as [a Ha]. rewrite Ha in HI.
    destruct (ticks st); [done|simpl in HI; lia]. }
  destruct (ready_waits st Hwf Herr Hc) as (Hp & Htr & Hlog).
  assert (uploads (ready st).2 = uploads st) as Hu.
  { unfold ready. by rewrite Herr, Hc. }
  assert (st1 = set_uploads (uploads (ready st).2 ++ [queued f p]) (ready st).2)
    as Hst1.
  { unfold st1, _handleFile. rewrite Hg. fold p in Hp.
    destruct (ready st) as [q stR]. simpl in *. subst q.
    unfold new_upload. simpl. done. }
  split; [done|]. rewrite Hst1. simpl. rewrite Hu.
  split; [done|]. split; [done|]. split; [apply station_ready|].
  split; [done|]. split; [done|].
  fold p in Htr. rewrite Hp in Htr. by apply tracks_same with (ready st).2.
Qed.

(** X10: an upload that [_handleFile] receives while the instance is
    connecting waits for the end of the connection attempt: nothing is done
    for it before.  When the attempt fails, [cb] is called with the error
    of the connection, the upload ends there and no naming function is
    asked; when it succeeds and [connection] has been emitted, the upload
    goes on to the naming function. *)
Theorem uploads_wait_for_the_connection st l f :
  reachable st → connecting st = true →
  let i := length (uploads st) in
  let st1 := _handleFile l f st in
  (log st1 = log st ∧ resume i st1 = st1 ∧
   ∃ p, uploads st1 !! i = Some (queued f p) ∧
        promises st1 !! p = Some Pending) ∧
  (∀ l' err,
     let st2 := step st1 (l', Settle (Throw err)) in
     let st3 := resume i st2 in
     log st3 = log st2 ++ [Callback (Throw err)] ∧
     callbacks (log st3) = callbacks (log st) ++ [Throw err] ∧
     u_promise <$> uploads st3 !! i = Some (Rejected err) ∧
     u_stage <$> uploads st3 !! i = Some Aborted) ∧
  (∀ l' l'' h c,
     h_client h = Some c →
     let st2 := step (step st1 (l', Settle (Ok h))) (l'', Tick) in
     let st3 := resume i st2 in
     log st3 = log st2 ∧ callbacks (log st3) = callbacks (log st) ∧
     u_promise <$> uploads st3 !! i = Some Pending ∧
     u_stage <$> uploads st3 !! i = Some Generating).
Proof.
  intros Hr Hg i st1.
  destruct (_handleFile_queues st l f Hr Hg)
    as (Hst1 & Hu1 & Hlog1 & Hstn1 & [a Ha] & Ht & Htr).
  fold st1 in Hst1, Hu1, Hlog1, Hstn1, Htr.
  set (p := length (promises st)) in *.
  assert (uploads st1 !! i = Some (queued f p)) as Hi.
  { rewrite Hu1. by rewrite lookup_app_r, Nat.sub_diag. }
  assert (awaiting st1 = Some a ∧ ticks st1 = [] ∧ client st1 = None)
    as (Ha1 & Ht1 & Hcl1).
  { unfold station in Hstn1.
    injection Hstn1 as _ Hcl _ _ _ _ _ _ _ _ _ -> ->.
    destruct (reachable_coherent st Hr) as (H1 & _).
    destruct (H1 (ltac:(eauto))) as (_ & ? & _). split; [done|].
    split; [done|]. congruence. }
  split; [|split].
  - split; [done|]. split.
    + unfold resume. rewrite Hi. simpl.
      destruct Htr as (_ & Hp & _). by rewrite Hp.
    + exists p. split; [done|]. by destruct Htr as (_ & ? & _).
  - intros l' err st2 st3.
    destruct (tracks_step p None st1 (l', Settle (Throw err)) Htr)
      as (news & Hnews & Htr2).
    fold st2 in Hnews, Htr2.
    assert (st2 = _fail l' err (set_awaiting None st1)) as Hst2.
    { unfold st2, step, settle. simpl. by rewrite Ha1. }
    destruct (_fail_leaves l' err (set_awaiting None st1))
      as (_ & _ & _ & _ & _ & _ & _ & Hu2 & _ & _ & Hlog2).
    rewrite <- Hst2 in Hu2, Hlog2. simpl in Hu2, Hlog2.
    assert (news = [connectionFailed err]) as ->.
    { rewrite Hlog2, emitted_app, outcomes_app in Hnews.
      apply app_inv_head in Hnews. rewrite <- Hnews. simpl.
      by rewrite emitted_deliveries. }
    destruct Htr2 as (_ & Hp2 & _). simpl in Hp2.
    assert (uploads st2 !! i = Some (queued f p)) as Hi2 by by rewrite Hu2.
    assert (st3 = abort i err st2) as Hst3.
    { unfold st3, resume. rewrite Hi2. simpl. by rewrite Hp2. }
    destruct (abort_effect i err st2 (queued f p) Hi2 eq_refl) as (Hlog3 & _).
    simpl in Hlog3. rewrite <- Hst3 in Hlog3.
    split; [done|]. split; [|split].
    + rewrite Hlog3, callbacks_app, Hlog2, callbacks_app, Hlog1. simpl.
      by rewrite callbacks_deliveries, app_nil_r.
    + rewrite Hst3. by apply abort_rejects with (queued f p).
    + rewrite Hst3. unfold abort, finish_upload. simpl.
      rewrite list_lookup_alter_eq, Hi2. simpl.
      by rewrite !list_lookup_alter_eq, Hi2.
  - intros l' l'' h c Hc st2 st3.
    set (st1s := step st1 (l', Settle (Ok h))) in *.
    destruct (_setDb l' (h_db h) (h_client h) (set_awaiting None st1))
      as [[err|] stS] eqn:Hset.
    { exfalso. revert Hset. rewrite Hc. unfold _setDb. simpl. done. }
    assert (st1s = stS) as Hst1s.
    { unfold st1s, step, settle. simpl. by rewrite Ha1, Hset. }
    destruct (tracks_step p None st1 (l', Settle (Ok h)) Htr)
      as (news & Hnews & Htr1s).
    fold st1s in Hnews, Htr1s.
    apply _setDb_returns in Hset
      as (_ & _ & _ & _ & HuS & HtS & _ & HgS & HlogS).
    rewrite <- Hst1s in HuS, HtS, HgS, HlogS. simpl in HuS, HtS, HlogS.
    assert (news = []) as ->.
    { rewrite HlogS, emitted_app, app_nil_r in Hnews.
      rewrite <- (app_nil_r (outcomes (emitted (log st1)))) in Hnews at 1.
      by apply app_inv_head in Hnews. }
    simpl in Htr1s. rewrite Ht1 in HtS. simpl in HtS.
    destruct (tracks_step p None st1s (l'', Tick) Htr1s)
      as (news & Hnews2 & Htr2).
    fold st2 in Hnews2, Htr2.
    set (s := connection (Conn (db st1s) (client st1s))).
    assert (st2 = emit s (set_ticks [] st1s)) as Hst2.
    { unfold st2, step, run_tick. simpl. by rewrite HtS. }
    assert (news = [s]) as ->.
    { rewrite Hst2, emitted_emit, outcomes_app in Hnews2.
      apply app_inv_head in Hnews2. by rewrite <- Hnews2. }
    destruct Htr2 as (_ & Hp2 & _). simpl in Hp2.
    assert (uploads st2 !! i = Some (queued f p)) as Hi2.
    { rewrite Hst2, uploads_emit. simpl. by rewrite HuS. }
    assert (connecting st2 = false) as Hg2.
    { pose proof (station_emit s (set_ticks [] st1s)) as Hstn.
      rewrite <- Hst2 in Hstn. unfold station in Hstn.
      injection Hstn as _ _ _ -> _ _ _ _ _ _ _ _ _. done. }
    assert (st3 = alter_upload (set_stage Generating) i st2) as Hst3.
    { unfold st3, resume. rewrite Hi2. simpl. rewrite Hp2.
      unfold fromStream_enter. by rewrite Hg2. }
    rewrite Hst3. simpl. rewrite list_lookup_alter_eq, Hi2. simpl.
    split; [done|]. split; [|done].
    rewrite Hst2, callbacks_emit. simpl.
    rewrite HlogS, callbacks_app, Hlog1. simpl. by rewrite app_nil_r.
Qed.

(** ** What is asked of the driver *)

(** The calls [createStream] and [_removeFile] make to the driver, with
    their arguments: [new GridStore(db, id, filename, mode, settings)] and
    its [stream()], [new GridFSBucket(db, bucket)] and its
    [openUploadStream(filename, settings)], [GridStore.unlink(db, id,
    options, cb)], and [new GridFSBucket(db, bucket)] with its
    [delete(id, cb)]. *)
Inductive driver_call : Type :=
  | GridStore_stream (database : option Db) (id filename : value)
      (mode : string) (settings : object)
  | GridFSBucket_openUploadStream (database : option Db) (bucket : object)
      (filename : value) (settings : object)
  | GridStore_unlink (database : option Db) (id : value) (options : object)
  | GridFSBucket_delete (database : option Db) (bucket : object) (id : value).

(** [createStream(options)]. *)
Definition createStream (st : state) (options : object) : driver_call :=
  if _legacy st then
    GridStore_stream (db st) (get options "id") (get options "filename") "w"
      {[ "chunk_size" := get options "chunkSize";
         "metadata" := get options "metadata";
         "content_type" := get options "contentType";
         "root" := get options "bucketName";
         "aliases" := get options "aliases" ]}
  else
    GridFSBucket_openUploadStream (db st)
      {[ "bucketName" := get options "bucketName" ]}
      (get options "filename")
      {[ "id" := get options "id";
         "chunkSizeBytes" := get options "chunkSize";
         "contentType" := get options "contentType";
         "metadata" := get options "metadata";
         "aliases" := get options "aliases";
         "disableMD5" := get options "disableMD5" ]}.

(** [_removeFile(request, file, cb)]. *)
Definition _removeFile (st : state) (f : object) : driver_call :=
  if _legacy st then
    GridStore_unlink (db st) (get f "id") {[ "root" := get f "bucketName" ]}
  else
    GridFSBucket_delete (db st) {[ "bucketName" := get f "bucketName" ]}
      (get f "id").

(** The bucket a call names, and the chunk size it asks for. *)
Definition bucket_of (c : driver_call) : value :=
  match c with
  | GridStore_stream _ _ _ _ settings => get settings "root"
  | GridFSBucket_openUploadStream _ bucket _ _ => get bucket "bucketName"
  | GridStore_unlink _ _ options => get options "root"
  | GridFSBucket_delete _ bucket _ => get bucket "bucketName"
  end.

Definition chunk_size_of (c : driver_call) : value :=
  match c with
  | GridStore_stream _ _ _ _ settings => get settings "chunk_size"
  | GridFSBucket_openUploadStream _ _ _ settings =>
      get settings "chunkSizeBytes"
  | _ => VUndefined
  end.

Definition database_of (c : driver_call) : option Db :=
  match c with
  | GridStore_stream d _ _ _ _ | GridFSBucket_openUploadStream d _ _ _
  | GridStore_unlink d _ _ | GridFSBucket_delete d _ _ => d
  end.

(** The settings [createStream] reads. *)
Definition read_by_createStream : list string :=
  ["id"; "filename"; "chunkSize"; "metadata"; "contentType"; "bucketName";
   "aliases"; "disableMD5"].

Lemma get_insert_ne (o : object) k k' v :
  k ≠ k' → get (<[k := v]> o) k' = get o k'.
Proof. intros Hne. unfold get. by rewrite lookup_insert_ne. Qed.

(** X11: a file is removed where it was written.  [_removeFile], given the
    file an upload reported with [emitFile], asks the driver to delete, by
    the id the writer reported, from the bucket and the database
    [createStream] made the writer for, whatever the settings of the upload
    were; both use the old store on the legacy path and the bucket on the
    other. *)
Theorem removed_where_it_was_written st streamOptions f :
  let written := createStream st streamOptions in
  let removed := _removeFile st (storedFile streamOptions f) in
  bucket_of removed = bucket_of written ∧
  bucket_of written = get streamOptions "bucketName" ∧
  database_of removed = database_of written ∧
  match written, removed with
  | GridStore_stream _ _ _ _ _, GridStore_unlink _ id _ =>
      _legacy st = true ∧ id = get f "_id"
  | GridFSBucket_openUploadStream _ _ _ _, GridFSBucket_delete _ _ id =>
      _legacy st = false ∧ id = get f "_id"
  | _, _ => False
  end.
Proof.
  unfold createStream, _removeFile, storedFile.
  destruct (_legacy st); simpl; unfold get; by simplify_map_eq.
Qed.

(** X12: the writer is made from the merged settings and from nothing
    else.  Unless the naming function gave a chunk size or a bucket name,
    the writer is asked for with chunk size 261120 in the bucket ["fs"];
    a setting [createStream] does not read changes nothing of what is
    asked of the driver, and on the legacy path [disableMD5] is such a
    setting. *)
Theorem writer_gets_the_settings :
  (∀ st rng oid descriptor fileSettings settings conf,
     fileSettings_to_settings fileSettings = Ok settings →
     streamOptions_of rng oid descriptor fileSettings = Ok conf →
     (settings !! "chunkSize" = None →
      chunk_size_of (createStream st conf) = VNumber 261120%float) ∧
     (settings !! "bucketName" = None →
      bucket_of (createStream st conf) = VString "fs") ∧
     (∀ v, settings !! "bucketName" = Some v →
           bucket_of (createStream st conf) = v)) ∧
  (∀ st options k v,
     k ∉ read_by_createStream →
     createStream st (<[k := v]> options) = createStream st options) ∧
  (∀ st options v,
     _legacy st = true →
     createStream st (<["disableMD5" := v]> options)
     = createStream st options).
Proof.
  split; [|split].
  - intros st rng oid descriptor fileSettings settings conf Hs Hconf.
    unfold streamOptions_of in Hconf. rewrite Hs in Hconf. simpl in Hconf.
    assert (conf !! "chunkSize"
            = match settings !! "chunkSize" with
              | Some v => Some v
              | None => Some (VNumber 261120%float)
              end) as Hchunk.
    { rewrite (_mergeProps_lookup _ _ _ _ _ "chunkSize" Hconf). simpl.
      destruct (settings !! "chunkSize"); [done|].
      by rewrite lookup_singleton_ne. }
    assert (conf !! "bucketName"
            = match settings !! "bucketName" with
              | Some v => Some v
              | None => Some (VString "fs")
              end) as Hbucket.
    { rewrite (_mergeProps_lookup _ _ _ _ _ "bucketName" Hconf). simpl.
      destruct (settings !! "bucketName"); [done|].
      by rewrite lookup_singleton_ne. }
    assert (chunk_size_of (createStream st conf) = get conf "chunkSize")
      as ->.
    { unfold createStream, chunk_size_of.
      destruct (_legacy st); unfold get at 1; by simplify_map_eq. }
    assert (bucket_of (createStream st conf) = get conf "bucketName") as ->.
    { unfold createStream, bucket_of.
      destruct (_legacy st); unfold get at 1; by simplify_map_eq. }
    unfold get. rewrite Hchunk, Hbucket.
    split; [by intros ->|]. split; [by intros ->|]. by intros v ->.
  - intros st options k v Hk. unfold createStream.
    assert (∀ k', k' ∈ read_by_createStream →
      get (<[k := v]> options) k' = get options k') as Hget.
    { intros k' Hk'. apply get_insert_ne. intros ->. done. }
    rewrite !Hget; [done|unfold read_by_createStream; set_solver..].
  - intros st options v Hleg. unfold createStream. rewrite Hleg.
    by rewrite !get_insert_ne.
Qed.

(** ** The naming function and its generator *)

(** [request], as the middleware hands it over, and the arguments
    [(request, file)] an upload is named from. *)
Record Request := { request_serial : nat }.

Definition arguments : Type := option Request * option File.

(** What the body of a generator does when it is resumed: it yields a
    value (a promise stands for what it settles with), returns, or
    throws. *)
Inductive resumed : Type :=
  | Yields (v : res returned)
  | Returns
  | Throws (err : Error).

(** A generator object.  Its body is resumed with the value [next] was
    given, which the [yield] it stopped at evaluates to; what it does then
    depends on the values it has been given so far.  The value given to the
    [next] that starts the body is dropped. *)
Record generator := {
  body : list (option arguments) → resumed;
  received : list (option arguments);
  started : bool;
  completed : bool
}.

(** [generator.next(x)]: [{value, done}], or the error the body throws.  A
    generator that has returned or thrown is completed, and [next] on it
    gives [{value: undefined, done: true}]. *)
Definition next (x : option arguments) (g : generator)
    : generator * res produced :=
  if completed g then (g, Ok (Yielded true (Ok RUndefined)))
  else
    let given := if started g then received g ++ [x] else received g in
    match body g given with
    | Yields v =>
        ({| body := body g; received := given; started := true;
            completed := false |},
         Ok (Yielded false v))
    | Returns =>
        ({| body := body g; received := given; started := true;
            completed := true |},
         Ok (Yielded true (Ok RUndefined)))
    | Throws err =>
        ({| body := body g; received := given; started := true;
            completed := true |},
         Throw err)
    end.

(** [this._file]: nothing, a plain function, a generator function, or a
    generator.  What a plain function returns may depend on the calls made
    to it so far. *)
Inductive naming : Type :=
  | NoFile
  | PlainFunction (f : list arguments → res returned) (calls : list arguments)
  | GeneratorFunction (gf : arguments → list (option arguments) → resumed)
  | Generator (g : generator).

(** [_generate(request, file)], with [this._file] before and after. *)
Definition _generate_from (nf : naming) (a : arguments)
    : naming * res returned :=
  match nf with
  | NoFile => (NoFile, Ok (RObject ∅))
  | GeneratorFunction gf =>
      let generator :=
        {| body := gf a; received := []; started := false;
           completed := false |} in
      let '(generator, result) := next None generator in
      (Generator generator, try result ← result; _handleResult result)
  | Generator generator =>
      let '(generator, result) := next (Some a) generator in
      (Generator generator, try result ← result; _handleResult result)
  | PlainFunction f calls =>
      (PlainFunction f (calls ++ [a]),
       _handleResult (Returned (f (calls ++ [a]))))
  end.

(** The uploads of a sequence are named one after the other. *)
Fixpoint generate_all (nf : naming) (uploads : list arguments)
    : naming * list (res returned) :=
  match uploads with
  | [] => (nf, [])
  | a :: rest =>
      let '(nf, r) := _generate_from nf a in
      let '(nf, rs) := generate_all nf rest in
      (nf, r :: rs)
  end.

Definition generator_ended : Error :=
  new_Error "Generator ended unexpectedly".

(** What an upload is named with when the body of the generator does
    [step]. *)
Definition named_by (step : resumed) : res returned :=
  match step with
  | Yields v => v
  | Returns => Throw generator_ended
  | Throws err => Throw err
  end.

Definition is_ended (nf : naming) : Prop :=
  match nf with Generator g => completed g = true | _ => False end.

(** The two views of [_generate] agree: what [_generate_from] gives is what
    [_generate] makes of what calling the naming function gave. *)
Lemma _generate_from_agrees st nf a :
  cfg_file (configuration_ st) = (if nf is NoFile then false else true) →
  ∃ result, (_generate_from nf a).2 = _generate st result.
Proof.
  intros Hf. unfold _generate. rewrite Hf.
  destruct nf as [|f calls|gf|g]; simpl.
  - by exists (Returned (Ok RUndefined)).
  - by exists (Returned (f (calls ++ [a]))).
  - destruct (next None _) as [g' [result|err]] eqn:Hn; simpl.
    + by exists result.
    + by exists (Returned (Throw err)).
  - destruct (next (Some a) g) as [g' [result|err]] eqn:Hn; simpl.
    + by exists result.
    + by exists (Returned (Throw err)).
Qed.

Lemma _generate_from_ended nf a :
  is_ended nf → _generate_from nf a = (nf, Throw generator_ended).
Proof.
  destruct nf as [|f calls|gf|g]; try done. simpl. intros Hc.
  unfold next. by rewrite Hc.
Qed.

Lemma generate_all_ended nf uploads :
  is_ended nf →
  generate_all nf uploads = (nf, (λ _, Throw generator_ended) <$> uploads).
Proof.
  intros Hc. induction uploads as [|a rest IH]; [done|].
  simpl. by rewrite (_generate_from_ended nf a Hc), IH.
Qed.

Lemma generate_all_app nf uploads1 uploads2 :
  generate_all nf (uploads1 ++ uploads2)
  = let '(nf1, rs1) := generate_all nf uploads1 in
    let '(nf2, rs2) := generate_all nf1 uploads2 in
    (nf2, rs1 ++ rs2).
Proof.
  revert nf. induction uploads1 as [|a rest IH]; intros nf; simpl.
  - by destruct (generate_all nf uploads2).
  - destruct (_generate_from nf a) as [nf1 r]. rewrite IH.
    destruct (generate_all nf1 rest) as [nf2 rs].
    by destruct (generate_all nf2 uploads2).
Qed.

(** The body returns or throws. *)
Definition ends (step : resumed) : Prop :=
  match step with Yields _ => False | Returns | Throws _ => True end.

(** X13: a generator that has ended names nothing any more.  When the body
    of the generator returns or throws while an upload is named, be it the
    first upload, for which the generator function is called, or a later
    one, that upload fails, with "Generator ended unexpectedly" or with
    what was thrown, and every upload after it fails with "Generator ended
    unexpectedly", whatever its request and file: the instance keeps the
    ended generator as [_file]. *)
Theorem ended_generator_names_nothing :
  (∀ gf a later,
     ends (gf a []) →
     let nf' := (_generate_from (GeneratorFunction gf) a).1 in
     (_generate_from (GeneratorFunction gf) a).2 = named_by (gf a []) ∧
     generate_all nf' later
     = (nf', (λ _, Throw generator_ended) <$> later)) ∧
  (∀ g a later,
     completed g = false →
     let given :=
       if started g then received g ++ [Some a] else received g in
     ends (body g given) →
     let nf' := (_generate_from (Generator g) a).1 in
     (_generate_from (Generator g) a).2 = named_by (body g given) ∧
     generate_all nf' later
     = (nf', (λ _, Throw generator_ended) <$> later)).
Proof.
  split.
  - intros gf a later Hends nf'.
    assert ((_generate_from (GeneratorFunction gf) a).2 = named_by (gf a [])
            ∧ is_ended nf') as [Hr Hend].
    { unfold nf'. simpl. unfold next. simpl.
      by destruct (gf a []) as [v| |err]. }
    split; [done|]. by apply generate_all_ended.
  - intros g a later Hlive given Hends nf'.
    assert ((_generate_from (Generator g) a).2 = named_by (body g given)
            ∧ is_ended nf') as [Hr Hend].
    { unfold nf'. simpl. unfold next. rewrite Hlive. fold given.
      by destruct (body g given) as [v| |err]. }
    split; [done|]. by apply generate_all_ended.
Qed.

Lemma length_generate_all nf uploads :
  length (generate_all nf uploads).2 = length uploads.
Proof.
  revert nf. induction uploads as [|a rest IH]; intros nf; [done|].
  simpl. destruct (_generate_from nf a) as [nf1 r].
  specialize (IH nf1). destruct (generate_all nf1 rest) as [nf2 rs].
  simpl in *. by rewrite IH.
Qed.

Lemma generate_all_generator bd pre rest k :
  let g := {| body := bd; received := pre; started := true;
              completed := false |} in
  k < length rest →
  (∀ j, j < k → ¬ ends (bd (pre ++ (Some <$> take (S j) rest)))) →
  (generate_all (Generator g) rest).2 !! k
  = Some (named_by (bd (pre ++ (Some <$> take (S k) rest)))).
Proof.
  revert pre k. induction rest as [|a rest IH]; intros pre k g Hk Hlive;
    [simpl in Hk; lia|].
  simpl. unfold next. simpl.
  destruct k as [|k].
  - destruct (bd (pre ++ [Some a])) as [v| |err] eqn:Hstep;
      destruct (generate_all _ rest) as [nf rs]; simpl;
      by rewrite ?take_0, Hstep.
  - assert (¬ ends (bd (pre ++ [Some a]))) as H0.
    { exact (Hlive 0 (ltac:(lia))). }
    destruct (bd (pre ++ [Some a])) as [v| |err] eqn:Hstep; try (by destruct H0).
    specialize (IH (pre ++ [Some a]) k (ltac:(simpl in Hk; lia))).
    simpl in IH.
    destruct (generate_all _ rest) as [nf rs]. simpl in *.
    rewrite IH.
    + by rewrite <- app_assoc.
    + intros j Hj. specialize (Hlive (S j) (ltac:(lia))).
      simpl in Hlive. by rewrite <- app_assoc.
Qed.

(** X14: how a generator function sees the uploads.  It is called once,
    for the first upload and with its request and file; every later upload
    resumes the generator with its own request and file as the value of
    [yield].  So as long as the body has not ended, the upload number [k]
    is named by what the body does when the generator of the first upload
    has been given the requests and files of the uploads 1 to [k]. *)
Theorem generator_sees_the_uploads gf a0 rest k :
  let results := (generate_all (GeneratorFunction gf) (a0 :: rest)).2 in
  k ≤ length rest →
  (∀ j, j < k → ¬ ends (gf a0 (Some <$> take j rest))) →
  length results = S (length rest) ∧
  results !! k = Some (named_by (gf a0 (Some <$> take k rest))).
Proof.
  intros results Hk Hlive. split.
  { unfold results. by rewrite length_generate_all. }
  unfold results. simpl. unfold next. simpl.
  destruct k as [|k].
  - destruct (gf a0 []) as [v| |err] eqn:Hstep;
      destruct (generate_all _ rest) as [nf rs]; simpl;
      by rewrite ?take_0, Hstep.
  - assert (¬ ends (gf a0 [])) as H0.
    { exact (Hlive 0 (ltac:(lia))). }
    destruct (gf a0 []) as [v| |err] eqn:Hstep; try (by destruct H0).
    pose proof (generate_all_generator (gf a0) [] rest k (ltac:(lia))) as Hgen.
    simpl in Hgen.
    destruct (generate_all _ rest) as [nf rs]. simpl in *.
    apply Hgen. intros j Hj. apply (Hlive (S j)). lia.
Qed.

(** ** Uploads side by side *)

(** The upload [j] is in [st'] what it was in [st]. *)
Definition leaves (j : nat) (st st' : state) : Prop :=
  ∀ u, uploads st !! j = Some u → uploads st' !! j = Some u.

Lemma leaves_same j st st' : uploads st' = uploads st → leaves j st st'.
Proof. intros H u. by rewrite H. Qed.

Lemma leaves_refl j st : leaves j st st.
Proof. by intros u Hu. Qed.

#[local] Hint Resolve leaves_refl : core.

Lemma leaves_trans j st1 st2 st3 :
  leaves j st1 st2 → leaves j st2 st3 → leaves j st1 st3.
Proof. intros H12 H23 u Hu. auto. Qed.

Lemma leaves_alter_upload f i j st : i ≠ j → leaves j st (alter_upload f i st).
Proof. intros Hij u Hu. simpl. by rewrite list_lookup_alter_ne. Qed.

Lemma leaves_new_upload f cb s j st : leaves j st (new_upload f cb s st).2.
Proof. intros u Hu. simpl. by apply lookup_app_l_Some. Qed.

Lemma leaves_finish_upload i r j st : i ≠ j → leaves j st (finish_upload i r st).
Proof.
  intros Hij. unfold finish_upload. destruct (uploads st !! i) as [u|]; [|done].
  destruct (settled (u_promise u)); [done|].
  destruct (u_cb u); by apply leaves_alter_upload.
Qed.

Lemma leaves_abort i err j st : i ≠ j → leaves j st (abort i err st).
Proof.
  intros Hij. unfold abort.
  eapply leaves_trans; [by apply leaves_alter_upload|].
  by apply leaves_finish_upload.
Qed.

Lemma leaves_emit s j st : leaves j st (emit s st).
Proof. apply leaves_same, uploads_emit. Qed.

Lemma leaves_ready j st : leaves j st (ready st).2.
Proof.
  apply leaves_same. unfold ready. destruct (error st); [done|].
  by destruct (connected st).
Qed.

Lemma leaves_fromStream_enter i j st :
  i ≠ j → leaves j st (fromStream_enter i st).
Proof.
  intros Hij. unfold fromStream_enter. destruct (connecting st).
  - pose proof (leaves_ready j st) as H. destruct (ready st) as [p st1].
    eapply leaves_trans; [exact H|by apply leaves_alter_upload].
  - by apply leaves_alter_upload.
Qed.

Lemma leaves_resume i j st : i ≠ j → leaves j st (resume i st).
Proof.
  intros Hij. unfold resume. destruct (uploads st !! i) as [u|]; [|done].
  destruct (u_stage u) as [p|p| | | | | ]; try done;
    destruct (promises st !! p) as [[| |]|]; try done;
    auto using leaves_fromStream_enter, leaves_abort, leaves_alter_upload.
Qed.

Lemma leaves_start_writer i streamOptions j st :
  i ≠ j → leaves j st (start_writer i streamOptions st).
Proof.
  intros Hij u Hu. unfold start_writer. simpl.
  destruct (_legacy st); simpl; by rewrite !list_lookup_alter_ne.
Qed.

Lemma leaves_generated i result rng oid j st :
  i ≠ j → leaves j st (generated i result rng oid st).
Proof.
  intros Hij. unfold generated. destruct (uploads st !! i) as [u|]; [|done].
  destruct (u_stage u); try done.
  destruct (res_bind _ _); [by apply leaves_start_writer|by apply leaves_abort].
Qed.

Lemma leaves_emitError i err j st : i ≠ j → leaves j st (emitError i err st).
Proof.
  intros Hij. unfold emitError. destruct (uploads st !! i) as [u|]; [|done].
  eapply leaves_trans; [apply leaves_emit|by apply leaves_finish_upload].
Qed.

Lemma leaves_emitFile i f j st : i ≠ j → leaves j st (emitFile i f st).
Proof.
  intros Hij. unfold emitFile. destruct (uploads st !! i) as [u|]; [|done].
  eapply leaves_trans; [apply leaves_emit|by apply leaves_finish_upload].
Qed.

Lemma leaves_notify i n j st : i ≠ j → leaves j st (notify i n st).
Proof.
  intros Hij u' Hu'. unfold notify.
  destruct (uploads st !! i) as [u|]; [|done].
  destruct n as [err|f|[err|]| |[err|] f], (u_stage u); try done;
    try (by apply leaves_emitError);
    try (destruct (_legacy st); try done);
    try (by apply leaves_emitFile);
    try (simpl; by rewrite list_lookup_alter_ne).
  all: try (apply leaves_emitError; [done|]; simpl;
            by rewrite list_lookup_alter_ne).
  all: destruct (u_closing u) as [|k]; try done.
  all: try (apply leaves_emitError; [done|]; simpl;
            by rewrite list_lookup_alter_ne).
  all: apply leaves_emitFile; [done|]; simpl; by rewrite list_lookup_alter_ne.
Qed.

Lemma uploads__updateConnectionStatus l st :
  uploads (_updateConnectionStatus l st) = uploads st.
Proof.
  unfold _updateConnectionStatus. by destruct (db st), (client st).
Qed.

Lemma leaves_iter_errEvent l err k j st :
  leaves j st (Nat.iter k (errEvent l err) st).
Proof.
  induction k as [|k IH]; simpl; [done|].
  eapply leaves_trans; [exact IH|]. unfold errEvent.
  apply leaves_same. by rewrite uploads_emit, uploads__updateConnectionStatus.
Qed.

Lemma leaves_settle l r j st : leaves j st (settle l r st).
Proof.
  apply leaves_same. unfold settle. destruct (awaiting st); [|done].
  assert (∀ err st1, uploads st1 = uploads st →
          uploads (_fail l err st1) = uploads st) as Hfail.
  { intros err st1 H1.
    destruct (_fail_leaves l err st1) as (_ & _ & _ & _ & _ & _ & _ & -> & _).
    done. }
  destruct r as [h|err]; [|by apply Hfail].
  destruct (_setDb l (h_db h) (h_client h) (set_awaiting None st))
    as [[err|] st1] eqn:Hset.
  - apply Hfail. by apply _setDb_throws in Hset as (_ & _ & _ & _ & _ & -> & _).
  - by apply _setDb_returns in Hset as (_ & _ & _ & _ & -> & _).
Qed.

Lemma leaves_fromStream f cb j st : leaves j st (fromStream f cb st).
Proof.
  intros u Hu. unfold fromStream, new_upload. simpl.
  apply leaves_fromStream_enter; simpl.
  - intros <-. apply lookup_lt_Some in Hu. lia.
  - by apply lookup_app_l_Some.
Qed.

Lemma leaves_step j st l inp :
  ¬ of_upload j inp → leaves j st (step st (l, inp)).
Proof.
  intros Hinp. destruct inp; unfold step; simpl; simpl in Hinp.
  - apply leaves_settle.
  - unfold run_tick. destruct (ticks st) as [|[] rest]; [done|].
    apply leaves_trans with (set_ticks rest st); [by apply leaves_same|].
    apply leaves_emit.
  - apply leaves_iter_errEvent.
  - apply leaves_ready.
  - destruct only_once; by apply leaves_same.
  - unfold _handleFile. destruct (connecting st).
    + pose proof (leaves_ready j st) as H. destruct (ready st) as [p st1].
      eapply leaves_trans; [exact H|apply leaves_new_upload].
    + eapply leaves_trans;
        [apply leaves_same, (uploads__updateConnectionStatus l)|].
      destruct (connected _); [apply leaves_fromStream|by apply leaves_same].
  - apply leaves_fromStream.
  - apply leaves_resume. by intros ->.
  - apply leaves_generated. by intros ->.
  - apply leaves_notify. by intros ->.
Qed.

(** X15: uploads do not touch one another.  An upload changes only by its
    own inputs: whatever else reaches the instance, the end of the
    connection attempt, backend events, calls of [ready], new uploads, and
    the naming functions and writers of other uploads, leaves its stage,
    its settings and its promise as they are. *)
Theorem upload_changes_by_its_own_inputs st j u ins :
  uploads st !! j = Some u →
  Forall (λ li, ¬ of_upload j li.2) ins →
  uploads (run st ins) !! j = Some u.
Proof.
  intros Hu Hins. revert st Hu.
  induction Hins as [|[l inp] ins Hinp _ IH]; intros st Hu; [done|].
  change (run st ((l, inp) :: ins)) with (run (step st (l, inp)) ins).
  apply IH. by apply leaves_step.
Qed.

(** ** Backend events *)

(** [errEvent] is attached to the client once, when the instance gets its
    database. *)
Definition subscribed (st : state) : Prop :=
  subscriptions st = (if db st is Some _ then 1 else 0).

Lemma subscribed_constructor legacy cfg l c st c' :
  constructor legacy cfg l c = (Ok st, c') → subscribed st.
Proof.
  unfold constructor. destruct cfg as [cfg|]; [|done].
  destruct (negb (has_url cfg) && negb _); [done|].
  match goal with
  | |- (let '(st, c) := ?x in _) = _ → _ => destruct x as [st0 c0] eqn:Hx
  end.
  assert (subscriptions st0 = 0 ∧ db st0 = None ∧ client st0 = None)
    as (Hs0 & Hdb0 & Hcl0).
  { destruct (has_url cfg); simpl in Hx.
    - destruct (Boolean_cache (cfg_cache cfg)); simpl in Hx.
      + destruct (Cache_initialize _ c) as [i c1]. by injection Hx as <- <-.
      + by injection Hx as <- <-.
    - by injection Hx as <- <-. }
  unfold _connect.
  assert (∀ stc, _resolveConnection c0 st0 = stc →
    (let '(st, c) := stc in (Ok st, c)) = (Ok st, c') → subscribed st)
    as Hasync.
  { intros [st1 c1] Hr [= <- <-]. revert Hr.
    unfold _resolveConnection, subscribed.
    destruct (bool_decide _);
      [|destruct (negb _); [|destruct (_ && _)]];
      intros [= <- <-]; simpl; by rewrite Hs0, Hdb0. }
  destruct (cfg_db (configuration_ st0)) as [[d|]|];
    try (by apply (Hasync (_resolveConnection c0 st0))).
  destruct (isPromise (cfg_client (configuration_ st0)));
    [by apply (Hasync (_resolveConnection c0 st0))|].
  unfold _setDb. simpl.
  destruct (cfg_client (configuration_ st0)) as [[cl|]|]; simpl;
    rewrite ?Hcl0; try done.
  intros [= <- <-]. unfold subscribed, _updateConnectionStatus. simpl.
  rewrite Hs0. by destruct (has_isConnected cl).
Qed.

Lemma subscribed__fail l err st :
  subscriptions st = 0 → subscribed (_fail l err st).
Proof.
  intros Hs. unfold subscribed.
  destruct (_fail_leaves l err st) as (_ & -> & _).
  unfold _fail.
  pose proof (station_emit (connectionFailed err)
    (_updateConnectionStatus l
       (set_error (Some err)
          (set_client None (set_db None (set_connecting false st))))))
    as Hst.
  unfold station in Hst. injection Hst as _ _ _ _ _ _ _ _ _ _ -> _ _.
  unfold _updateConnectionStatus. simpl. done.
Qed.

Lemma subscribed_reachable st : reachable st → subscribed st.
Proof.
  induction 1 as [legacy cfg l c st c' H|st [l inp] Hr IH].
  - by eapply subscribed_constructor.
  - assert (match inp with Settle _ | Tick => False | _ => True end →
            subscribed (step st (l, inp))) as Hother.
    { intros Hinp.
      assert (calm (λ _, False) st (step st (l, inp))) as (Hs & _).
      { apply calm_step; [apply closed_False|]. destruct inp; auto. }
      unfold skeleton in Hs. injection Hs as Hdb _ _ Hsub _ _ _ _ _ _.
      unfold subscribed. by rewrite Hdb, Hsub. }
    destruct inp; try (by apply Hother).
    + unfold step, settle. simpl.
      destruct (awaiting st) as [a|] eqn:Ha; [|done].
      destruct (reachable_coherent st Hr) as (H1 & _).
      destruct (H1 (ltac:(eauto))) as (Hdb & Hcl & _).
      assert (subscriptions st = 0) as Hs0.
      { unfold subscribed in IH. by rewrite Hdb in IH. }
      destruct r as [h|err]; [|by apply subscribed__fail].
      unfold _setDb. simpl.
      destruct (h_client h) as [cl|]; simpl; rewrite ?Hcl.
      * unfold subscribed, _updateConnectionStatus. simpl. rewrite Hs0.
        by destruct (has_isConnected cl).
      * by apply subscribed__fail.
    + unfold step, run_tick. simpl.
      destruct (ticks st) as [|[] rest]; [done|].
      pose proof (station_emit (connection (Conn (db st) (client st)))
                    (set_ticks rest st)) as Hst.
      unfold station in Hst. injection Hst as Hdb _ _ _ _ _ _ _ _ _ Hsub _ _.
      unfold subscribed. by rewrite Hdb, Hsub.
Qed.

(** X16: a backend event is reported once.  On an instance that holds a
    database, an [error], [parseError], [timeout] or [close] of the client
    makes exactly one [dbError], and [connected] is then what the link
    says; an instance without database, whose connection attempt is still
    under way or has failed, reports nothing. *)
Theorem one_dbError_per_backend_event st l err :
  reachable st →
  let st' := step st (l, BackendEvent err) in
  let carried := match err with Some e => e | None => new_Error "" end in
  emitted (log st')
  = emitted (log st) ++ (if db st is Some _ then [dbError carried] else []) ∧
  connected st'
  = (if db st is Some _ then link_status l st else connected st).
Proof.
  intros Hr st' carried. pose proof (subscribed_reachable st Hr) as Hs.
  unfold st', step. simpl. unfold subscribed in Hs. rewrite Hs.
  destruct (db st) as [d|] eqn:Hdb; simpl.
  - unfold errEvent. fold carried. rewrite emitted_emit. split; [|].
    + f_equal. unfold _updateConnectionStatus. rewrite Hdb.
      by destruct (client st).
    + pose proof (station_emit (dbError carried)
                    (_updateConnectionStatus l st)) as Hst.
      unfold station in Hst. injection Hst as _ _ -> _ _ _ _ _ _ _ _ _ _.
      apply connected__updateConnectionStatus.
  - by rewrite app_nil_r.
Qed.

End Storage.

(** * Examples *)

(** The properties above, at instances that can be run. *)

Definition sample_toString (n : float) : string := "7".
Definition sample_getDatabase (d : Db) : Db := d.

Definition up : link :=
  {| client_isConnected := true; topology_isConnected := true |}.

Definition boom : Error := new_Error "boom".

Definition sample_rng : entropy := EntropyGives (λ _, Byte.xab).

Definition sample_file : option File :=
  Some {| mimetype := VString "text/plain" |}.

(** [new GridFSStorage({db, client, file})], with handles that are open. *)
Definition cfg_handles : configuration :=
  {| cfg_url := None; cfg_options := None; cfg_cache := CacheUnset;
     cfg_db := Some (Given {| db_serial := 1 |});
     cfg_client :=
       Some (Given {| client_serial := 1; has_isConnected := true |});
     cfg_file := true |}.

(** [new GridFSStorage({url, cache: true})]. *)
Definition cfg_cached : configuration :=
  {| cfg_url := Some "mongodb://host/db"; cfg_options := None;
     cfg_cache := CacheFlag true; cfg_db := None; cfg_client := None;
     cfg_file := false |}.

Definition idle : state :=
  {| db := None; client := None; connected := false; connecting := false;
     configuration_ := cfg_handles; caching := false; cacheName := None;
     cacheIndex := None; error := None; _legacy := false; listeners := [];
     subscriptions := 0; awaiting := None; ticks := []; promises := [];
     uploads := []; log := [] |}.

Definition made (legacy : bool) (cfg : configuration) : state :=
  match (constructor sample_getDatabase legacy (Some cfg) up []).1 with
  | Ok st => st
  | Throw _ => idle
  end.

Lemma made_reachable legacy cfg :
  (constructor sample_getDatabase legacy (Some cfg) up []).1
  = Ok (made legacy cfg) →
  reachable sample_toString sample_getDatabase (made legacy cfg).
Proof.
  intros H.
  apply (reachable_new _ _ legacy (Some cfg) up []
           (made legacy cfg)
           (constructor sample_getDatabase legacy (Some cfg) up []).2).
  rewrite <- H. by destruct (constructor _ _ _ _ _).
Qed.

(** An instance whose connection attempt failed. *)
Definition failed : state :=
  step sample_toString sample_getDatabase (made false cfg_cached)
    (up, Settle (Throw boom)).

Lemma failed_reachable : reachable sample_toString sample_getDatabase failed.
Proof. apply reachable_step, made_reachable. vm_compute. reflexivity. Qed.

(** An upload that waits for its naming function, and the upload as it is
    then. *)
Definition uploading (legacy : bool) : state :=
  run sample_toString sample_getDatabase (made legacy cfg_handles)
    [(up, Tick); (up, FromStream sample_file)].

Definition waiting_upload : upload :=
  {| u_file := sample_file; u_cb := false; u_stage := Generating;
     u_options := ∅; u_closing := 0; u_promise := Pending |}.

Definition named (fileSettings : returned) : object :=
  match streamOptions_of sample_toString sample_rng 7 sample_file fileSettings with
  | Ok streamOptions => streamOptions
  | Throw _ => ∅
  end.

Definition png : returned := RObject {[ "contentType" := VString "image/png" ]}.

Lemma merge_precedence_witness :
  streamOptions_of sample_toString sample_rng 7 sample_file png = Ok (named png) ∧
  named png !! "contentType" = Some (VString "image/png") ∧
  ∃ settings,
    fileSettings_to_settings sample_toString png = Ok settings ∧
    ∀ k, named png !! k
         = by_precedence
             [settings; inferred sample_file; defaults;
              auto_generated sample_rng 7] k.
Proof.
  assert (streamOptions_of sample_toString sample_rng 7 sample_file png
          = Ok (named png)) as H by (vm_compute; reflexivity).
  split; [exact H|]. split; [vm_compute; reflexivity|].
  exact (proj1 (merge_precedence sample_toString) _ _ _ _ _ H).
Defined.






Definition bad_type : Error :=
  new_Error "Invalid type for file settings, got boolean".

Lemma naming_result_validation_witness :
  uploads (uploading false) !! 0 = Some waiting_upload ∧
  _generate (uploading false) (Returned (Ok (RBoolean true)))
  = Ok (RBoolean true) ∧
  fileSettings_to_settings sample_toString (RBoolean true) = Throw bad_type ∧
  u_promise
    <$> uploads (generated sample_toString 0 (Returned (Ok (RBoolean true)))
                   sample_rng 7 (uploading false)) !! 0
  = Some (Rejected bad_type).
Proof.
  assert (uploads (uploading false) !! 0 = Some waiting_upload) as Hu
    by (vm_compute; reflexivity).
  assert (_generate (uploading false) (Returned (Ok (RBoolean true)))
          = Ok (RBoolean true)) as Hg by (vm_compute; reflexivity).
  assert (fileSettings_to_settings sample_toString (RBoolean true)
          = Throw bad_type) as Hbad by (vm_compute; reflexivity).
  split; [exact Hu|]. split; [exact Hg|]. split; [exact Hbad|].
  exact (proj1 (proj2
    (proj2 (naming_result_validation sample_toString)
       (uploading false) 0 waiting_upload (Returned (Ok (RBoolean true)))
       (RBoolean true) sample_rng 7 bad_type
       Hu eq_refl eq_refl Hg Hbad))).
Defined.

Lemma handleFile_requires_connection_witness :
  connecting failed = false ∧ link_status up failed = false ∧
  log (_handleFile up {| mimetype := VString "text/plain" |} failed)
  = log failed ++ [Callback (Throw connection_must_be_open)].
Proof.
  assert (connecting failed = false) as Hc by (vm_compute; reflexivity).
  assert (link_status up failed = false) as Hl by (vm_compute; reflexivity).
  split; [exact Hc|]. split; [exact Hl|].
  exact (proj1 (handleFile_requires_connection up
                  {| mimetype := VString "text/plain" |} failed Hc Hl)).
Defined.

Lemma ready_settlement_witness :
  reachable sample_toString sample_getDatabase failed ∧
  error failed = Some boom ∧
  error (run sample_toString sample_getDatabase failed
           [(up, CallReady); (up, Tick)]) = Some boom ∧
  promises
    (ready (run sample_toString sample_getDatabase failed
              [(up, CallReady); (up, Tick)])).2
  !! (ready (run sample_toString sample_getDatabase failed
               [(up, CallReady); (up, Tick)])).1
  = Some (Rejected boom).
Proof.
  assert (error failed = Some boom) as He by (vm_compute; reflexivity).
  split; [exact failed_reachable|]. split; [exact He|].
  exact (proj1 (proj2 (ready_settlement sample_toString sample_getDatabase))
           failed boom [(up, CallReady); (up, Tick)] failed_reachable He).
Defined.

Definition sample_handles : handles :=
  {| h_db := {| db_serial := 2 |};
     h_client := Some {| client_serial := 2; has_isConnected := true |} |}.


(** The document the writer hands over when it is done. *)
Definition stored_document : object :=
  {[ "_id" := VObjectID 7; "filename" := VString "a.txt";
     "length" := VNumber 3%float ]}.

Definition boom2 : Error := new_Error "boom again".




Lemma legacy_open_before_pump_witness :
  _legacy (uploading true) = true ∧
  uploads (uploading true) !! 0 = Some waiting_upload ∧
  log (start_writer 0 (named png) (uploading true))
  = log (uploading true)
    ++ [CreateStream 0 (named png); WriterOn 0 "error"; StoreOpen 0] ∧
  (Pump 0
   ∈ log (notify_all 0
            (start_writer 0 (named png) (uploading true))
            [store_opened None; writer_end]) →
   store_opened None ∈ [store_opened None; writer_end]).
Proof.
  assert (_legacy (uploading true) = true) as Hl by (vm_compute; reflexivity).
  assert (uploads (uploading true) !! 0 = Some waiting_upload) as Hu
    by (vm_compute; reflexivity).
  split; [exact Hl|]. split; [exact Hu|].
  refine (proj1 legacy_open_before_pump (uploading true) 0
    waiting_upload (named png) [store_opened None; writer_end] Hl Hu _).
  intros H. vm_compute in H.
  repeat (apply elem_of_cons in H as [H|H]; [discriminate H|]).
  by apply elem_of_nil in H.
Defined.

(** Three instances of one signature: the first connects, the others wait;
    the connection of the first is made, and the second is told. *)
Definition sample_signature : signature :=
  {| sig_url := "mongodb://host/db"; sig_cacheName := "default";
     sig_init := None |}.

Definition sample_history : list (link * happening) :=
  [(up, New false (Some cfg_cached)); (up, New false (Some cfg_cached));
   (up, New false (Some cfg_cached));
   (up, ConnectDone 0
          (Ok (ClientOf {| client_serial := 2; has_isConnected := true |}
                        {| db_serial := 2 |})));
   (up, CacheAnswered 1)].

Abbreviation sample_world :=
  (history sample_toString sample_getDatabase empty_world sample_history).

Abbreviation sample_group :=
  (sharing sample_signature (instances sample_world)).

Lemma cache_one_connect_per_signature_witness :
  sample_group = hd idle sample_group :: tail sample_group ∧
  length (tail sample_group) = 2 ∧
  observations sample_world = [(0, Ok sample_handles); (1, Ok sample_handles)] ∧
  connects (hd idle sample_group) = 1 ∧
  ∃ i e, registry sample_world !! slot i = Some e ∧
    e_signature e = sample_signature ∧
    e_status e ≠ pending ∧
    (awaiting (hd idle sample_group) = Some OnConnect → e_status e = opening) ∧
    Forall (λ st, cacheIndex st = Some i) sample_group ∧
    Forall (λ st, connects st = 0 ∧
                  (awaiting st = Some (OnCache (Some i)) ∨
                   awaiting st = None)) (tail sample_group).
Proof.
  assert (sample_group = hd idle sample_group :: tail sample_group) as Hg
    by (vm_compute; reflexivity).
  split; [exact Hg|]. split; [vm_compute; reflexivity|].
  split; [vm_compute; reflexivity|].
  exact (proj1 (proj2 (proj2
    (cache_one_connect_per_signature sample_toString sample_getDatabase
       sample_history sample_signature)))
    (hd idle sample_group) (tail sample_group) Hg).
Defined.

(** ** More instances *)

Definition down : link :=
  {| client_isConnected := false; topology_isConnected := false |}.

(** An instance that was connected and whose link dropped. *)
Definition connected_once : state :=
  run sample_toString sample_getDatabase (made false cfg_handles) [(up, Tick)].

Definition dropped : state :=
  run sample_toString sample_getDatabase (made false cfg_handles)
    [(up, Tick); (down, BackendEvent None)].

Lemma connected_once_reachable :
  reachable sample_toString sample_getDatabase connected_once.
Proof. apply reachable_run, made_reachable. vm_compute. reflexivity. Qed.

Lemma dropped_reachable : reachable sample_toString sample_getDatabase dropped.
Proof. apply reachable_run, made_reachable. vm_compute. reflexivity. Qed.

Lemma connecting_reachable :
  reachable sample_toString sample_getDatabase (made false cfg_cached).
Proof. apply made_reachable. vm_compute. reflexivity. Qed.

Lemma handles_come_together_witness :
  reachable sample_toString sample_getDatabase connected_once ∧
  connected connected_once = true ∧
  ∃ d c, db connected_once = Some d ∧ client connected_once = Some c ∧
         promises (ready connected_once).2 !! (ready connected_once).1
         = Some (Fulfilled (Conn (Some d) (Some c))).
Proof.
  assert (connected connected_once = true) as Hc by (vm_compute; reflexivity).
  split; [exact connected_once_reachable|]. split; [exact Hc|].
  exact (proj1 (proj2 (handles_come_together sample_toString
                         sample_getDatabase connected_once
                         connected_once_reachable)) Hc).
Defined.

Lemma database_without_client_refused_witness :
  reachable sample_toString sample_getDatabase (made false cfg_cached) ∧
  is_Some (awaiting (made false cfg_cached)) ∧
  error (settle sample_getDatabase up
           (Ok {| h_db := {| db_serial := 2 |}; h_client := None |})
           (made false cfg_cached))
  = Some TypeError_on_null.
Proof.
  assert (is_Some (awaiting (made false cfg_cached))) as Ha
    by (vm_compute; eauto).
  split; [exact connecting_reachable|]. split; [exact Ha|].
  exact (proj1 (proj2 (proj2 (database_without_client_refused
                                sample_toString sample_getDatabase))
                  (made false cfg_cached) up {| db_serial := 2 |}
                  connecting_reachable Ha)).
Defined.

Lemma ready_pends_after_disconnect_witness :
  reachable sample_toString sample_getDatabase dropped ∧
  awaiting dropped = None ∧ ticks dropped = [] ∧ error dropped = None ∧
  connected dropped = false ∧
  promises
    (run sample_toString sample_getDatabase (ready dropped).2
       [(up, Tick); (up, BackendEvent None); (up, CallReady)])
  !! (ready dropped).1 = Some Pending.
Proof.
  assert (awaiting dropped = None) as Ha by (vm_compute; reflexivity).
  assert (ticks dropped = []) as Ht by (vm_compute; reflexivity).
  assert (error dropped = None) as He by (vm_compute; reflexivity).
  assert (connected dropped = false) as Hc by (vm_compute; reflexivity).
  split; [exact dropped_reachable|]. split; [exact Ha|]. split; [exact Ht|].
  split; [exact He|]. split; [exact Hc|].
  exact (proj1 (ready_pends_after_disconnect sample_toString sample_getDatabase
                  dropped [(up, Tick); (up, BackendEvent None); (up, CallReady)]
                  dropped_reachable Ha Ht He Hc)).
Defined.

Definition upload_inputs : list (link * input) :=
  [(up, Generated 0 (Returned (Ok (RString "a.txt"))) sample_rng 7);
   (up, Notify 0 (writer_finish stored_document));
   (up, Notify 0 (writer_error boom));
   (up, Notify 0 (writer_finish stored_document))].

Lemma upload_settles_once_witness :
  uploads (uploading false) !! 0 = Some waiting_upload ∧
  ∃ u',
    uploads (run sample_toString sample_getDatabase (uploading false)
               upload_inputs) !! 0 = Some u' ∧
    (u_promise u' = u_promise waiting_upload ∧
     callbacks (log (run sample_toString sample_getDatabase (uploading false)
                       upload_inputs))
     = callbacks (log (uploading false))
     ∨ u_promise waiting_upload = Pending ∧
       ∃ r, u_promise u' = of_res r ∧
            callbacks (log (run sample_toString sample_getDatabase
                              (uploading false) upload_inputs))
            = callbacks (log (uploading false))
              ++ (if u_cb waiting_upload then [r] else [])).
Proof.
  assert (uploads (uploading false) !! 0 = Some waiting_upload) as Hu
    by (vm_compute; reflexivity).
  split; [exact Hu|].
  refine (upload_settles_once sample_toString sample_getDatabase
            (uploading false) 0 waiting_upload upload_inputs Hu _).
  repeat constructor.
Defined.

Lemma every_writer_error_is_emitted_witness :
  uploads (uploading false) !! 0 = Some waiting_upload ∧
  emitted
    (log (notify_all 0 (start_writer 0 (named png) (uploading false))
            (writer_error <$> [boom; boom2])))
  = emitted (log (uploading false))
    ++ ((λ err, streamError err (named png)) <$> [boom; boom2]).
Proof.
  assert (uploads (uploading false) !! 0 = Some waiting_upload) as Hu
    by (vm_compute; reflexivity).
  split; [exact Hu|].
  exact (proj1 (every_writer_error_is_emitted (uploading false) 0
                  waiting_upload (named png) [boom; boom2] Hu eq_refl)).
Defined.

Lemma naming_failure_is_silent_witness :
  uploads (uploading false) !! 0 = Some waiting_upload ∧
  (try fileSettings ← _generate (uploading false)
                        (Yielded true (Ok RUndefined));
   streamOptions_of sample_toString sample_rng 7 (u_file waiting_upload)
     fileSettings)
  = Throw generator_ended ∧
  log (generated sample_toString 0 (Yielded true (Ok RUndefined)) sample_rng 7
         (uploading false))
  = log (uploading false)
    ++ (if u_cb waiting_upload then [Callback (Throw generator_ended)] else []).
Proof.
  assert (uploads (uploading false) !! 0 = Some waiting_upload) as Hu
    by (vm_compute; reflexivity).
  assert ((try fileSettings ← _generate (uploading false)
                                (Yielded true (Ok RUndefined));
           streamOptions_of sample_toString sample_rng 7
             (u_file waiting_upload) fileSettings)
          = Throw generator_ended) as Hbad by (vm_compute; reflexivity).
  split; [exact Hu|]. split; [exact Hbad|].
  exact (proj1 (proj1 (naming_failure_is_silent sample_toString)
                  (uploading false) 0 waiting_upload
                  (Yielded true (Ok RUndefined)) sample_rng 7 generator_ended
                  Hu eq_refl eq_refl Hbad)).
Defined.

Lemma fromStream_checks_no_connection_witness :
  reachable sample_toString sample_getDatabase dropped ∧
  is_Some (db dropped) ∧ connected dropped = false ∧
  _generate dropped (Returned (Ok RUndefined)) = Ok RUndefined ∧
  streamOptions_of sample_toString sample_rng 7 sample_file RUndefined
  = Ok (named RUndefined) ∧
  ∃ rest,
    log (step sample_toString sample_getDatabase
           (step sample_toString sample_getDatabase dropped
              (down, FromStream sample_file))
           (down, Generated (length (uploads dropped))
                    (Returned (Ok RUndefined)) sample_rng 7))
    = log dropped
      ++ CreateStream (length (uploads dropped)) (named RUndefined)
         :: WriterOn (length (uploads dropped)) "error" :: rest.
Proof.
  assert (is_Some (db dropped)) as Hdb by (vm_compute; eauto).
  assert (_generate dropped (Returned (Ok RUndefined)) = Ok RUndefined) as Hg
    by (vm_compute; reflexivity).
  assert (streamOptions_of sample_toString sample_rng 7 sample_file RUndefined
          = Ok (named RUndefined)) as Hconf by (vm_compute; reflexivity).
  split; [exact dropped_reachable|]. split; [exact Hdb|].
  split; [vm_compute; reflexivity|].
  split; [exact Hg|]. split; [exact Hconf|].
  exact (proj1 (proj2 (fromStream_checks_no_connection sample_toString
                         sample_getDatabase dropped down down sample_file
                         (Returned (Ok RUndefined)) sample_rng 7 RUndefined
                         (named RUndefined) dropped_reachable Hdb Hg Hconf))).
Defined.

Lemma made_constructed legacy cfg :
  (constructor sample_getDatabase legacy (Some cfg) up []).1
  = Ok (made legacy cfg) →
  constructor sample_getDatabase legacy (Some cfg) up []
  = (Ok (made legacy cfg),
     (constructor sample_getDatabase legacy (Some cfg) up []).2).
Proof. intros H. rewrite <- H. by destruct (constructor _ _ _ _ _). Qed.

Lemma connects_once_for_all_witness :
  constructor sample_getDatabase false (Some cfg_cached) up []
  = (Ok (made false cfg_cached),
     (constructor sample_getDatabase false (Some cfg_cached) up []).2) ∧
  connects (run sample_toString sample_getDatabase (made false cfg_cached)
              [(up, Settle (Throw boom)); (up, HandleFile {| mimetype := VNull |});
               (up, CallReady); (up, Tick)])
  = connects (made false cfg_cached).
Proof.
  assert (constructor sample_getDatabase false (Some cfg_cached) up []
          = (Ok (made false cfg_cached),
             (constructor sample_getDatabase false (Some cfg_cached) up []).2))
    as H by (apply made_constructed; vm_compute; reflexivity).
  split; [exact H|].
  exact (proj2 (proj2 (connects_once_for_all sample_toString sample_getDatabase
                         false (Some cfg_cached) up [] (made false cfg_cached)
                         _ _ H))).
Defined.

(** [new GridFSStorage({url})]. *)
Definition cfg_plain : configuration :=
  {| cfg_url := Some "mongodb://host/db"; cfg_options := None;
     cfg_cache := CacheUnset; cfg_db := None; cfg_client := None;
     cfg_file := false |}.

Lemma uncached_instances_connect_alone_witness :
  constructor sample_getDatabase false (Some cfg_plain) up []
  = (Ok (made false cfg_plain),
     (constructor sample_getDatabase false (Some cfg_plain) up []).2) ∧
  (constructor sample_getDatabase false (Some cfg_plain) up []).2 = [] ∧
  caching (made false cfg_plain) = false ∧
  cacheIndex (made false cfg_plain) = None ∧
  (cfg_db cfg_plain = None →
   awaiting (made false cfg_plain) = Some OnConnect ∧
   connects (made false cfg_plain) = 1) ∧
  ∀ answer c2, (_createConnection answer c2 (made false cfg_plain)).2 = c2.
Proof.
  assert (constructor sample_getDatabase false (Some cfg_plain) up []
          = (Ok (made false cfg_plain),
             (constructor sample_getDatabase false (Some cfg_plain) up []).2))
    as H by (apply made_constructed; vm_compute; reflexivity).
  split; [exact H|].
  exact (uncached_instances_connect_alone sample_getDatabase false cfg_plain
           up [] (made false cfg_plain) _ H eq_refl).
Defined.

Lemma uploads_wait_for_the_connection_witness :
  reachable sample_toString sample_getDatabase (made false cfg_cached) ∧
  connecting (made false cfg_cached) = true ∧
  log (_handleFile up {| mimetype := VNull |} (made false cfg_cached))
  = log (made false cfg_cached).
Proof.
  assert (connecting (made false cfg_cached) = true) as Hc
    by (vm_compute; reflexivity).
  split; [exact connecting_reachable|]. split; [exact Hc|].
  exact (proj1 (proj1 (uploads_wait_for_the_connection sample_toString
                         sample_getDatabase (made false cfg_cached) up
                         {| mimetype := VNull |} connecting_reachable Hc))).
Defined.

Lemma writer_gets_the_settings_witness :
  fileSettings_to_settings sample_toString png
  = Ok {[ "contentType" := VString "image/png" ]} ∧
  streamOptions_of sample_toString sample_rng 7 sample_file png
  = Ok (named png) ∧
  chunk_size_of (createStream failed (named png)) = VNumber 261120%float.
Proof.
  assert (fileSettings_to_settings sample_toString png
          = Ok {[ "contentType" := VString "image/png" ]}) as Hs
    by reflexivity.
  assert (streamOptions_of sample_toString sample_rng 7 sample_file png
          = Ok (named png)) as Hconf by (vm_compute; reflexivity).
  split; [exact Hs|]. split; [exact Hconf|].
  exact (proj1 (proj1 (writer_gets_the_settings sample_toString)
                  failed sample_rng 7 sample_file png _ (named png) Hs Hconf)
           eq_refl).
Defined.

(** A generator function that names two uploads after the request it was
    given last and then returns. *)
Definition by_request (a : arguments) (given : list (option arguments))
    : resumed :=
  match given with
  | [] | [_] =>
      match default a (mjoin (last given)) with
      | (Some request, _) =>
          Yields (Ok (RString (pretty (request_serial request))))
      | (None, _) => Yields (Ok RUndefined)
      end
  | _ => Returns
  end.

Definition upload_of (n : nat) : arguments :=
  (Some {| request_serial := n |}, sample_file).

(** Its generator after two uploads. *)
Definition resumed_once : generator :=
  {| body := by_request (upload_of 1); received := [Some (upload_of 2)];
     started := true; completed := false |}.

Lemma ended_generator_names_nothing_witness :
  completed resumed_once = false ∧
  ends (by_request (upload_of 1) [Some (upload_of 2); Some (upload_of 3)]) ∧
  (_generate_from (Generator resumed_once) (upload_of 3)).2
  = Throw generator_ended ∧
  generate_all (_generate_from (Generator resumed_once) (upload_of 3)).1
    [upload_of 4; upload_of 5]
  = ((_generate_from (Generator resumed_once) (upload_of 3)).1,
     [Throw generator_ended; Throw generator_ended]).
Proof.
  split; [reflexivity|]. split; [exact I|].
  exact (proj2 ended_generator_names_nothing resumed_once (upload_of 3)
           [upload_of 4; upload_of 5] eq_refl I).
Defined.

Lemma generator_sees_the_uploads_witness :
  1 ≤ length [upload_of 2; upload_of 3] ∧
  (generate_all (GeneratorFunction by_request)
     (upload_of 1 :: [upload_of 2; upload_of 3])).2 !! 1
  = Some (Ok (RString "2")).
Proof.
  assert (1 ≤ length [upload_of 2; upload_of 3]) as Hk by (simpl; lia).
  split; [exact Hk|].
  refine (proj2 (generator_sees_the_uploads by_request (upload_of 1)
                   [upload_of 2; upload_of 3] 1 Hk _)).
  intros j Hj. assert (j = 0) as -> by lia. simpl. intros [].
Defined.

(** What reaches the instance beside the first upload: a second upload, its
    naming and its writer, a backend event and a call of [ready]. *)
Definition other_inputs : list (link * input) :=
  [(up, FromStream sample_file);
   (up, Generated 1 (Returned (Ok (RString "b.txt"))) sample_rng 8);
   (down, BackendEvent (Some boom));
   (up, Notify 1 (writer_error boom));
   (up, CallReady)].

Lemma upload_changes_by_its_own_inputs_witness :
  uploads (uploading false) !! 0 = Some waiting_upload ∧
  uploads (run sample_toString sample_getDatabase (uploading false)
             other_inputs) !! 0
  = Some waiting_upload.
Proof.
  split; [vm_compute; reflexivity|].
  apply upload_changes_by_its_own_inputs; [vm_compute; reflexivity|].
  repeat constructor; simpl; intros H; try discriminate H; exact H.
Defined.

Lemma one_dbError_per_backend_event_witness :
  reachable sample_toString sample_getDatabase connected_once ∧
  emitted (log (step sample_toString sample_getDatabase connected_once
                  (down, BackendEvent (Some boom))))
  = emitted (log connected_once) ++ [dbError boom] ∧
  connected (step sample_toString sample_getDatabase connected_once
               (down, BackendEvent (Some boom)))
  = false.
Proof.
  split; [exact connected_once_reachable|].
  exact (one_dbError_per_backend_event sample_toString sample_getDatabase
           connected_once down (Some boom) connected_once_reachable).
Defined.
